(** * django_orm_views.sync: dependency resolution and view rebuild

    A shallow embedding of [src/django_orm_views/sync.py]:
    [_topological_sort_views] with its inner generator
    [_sets_of_views_deps_iterator], and [sync_views].

    Python dictionaries keyed by view classes are finite maps ([gmap]),
    Python sets of classes are finite sets ([gset]).  The only place where
    the iteration order of a Python set reaches the result is the batch
    yielded by the generator; that order is left abstract ([PySet]). *)

From stdpp Require Import gmap strings list fin_maps relations.

Set Default Proof Using "Type".

(** ** Data model *)

(** A view class.  Classes are compared and hashed by identity. *)
Definition class_id := positive.

(** [view.creation_sql]: a statement and its bound parameters. *)
Record sql_query := SqlQuery { sql : string; params : list string }.

(** A view instance, with the attributes that [sync.py] reads. *)
Record view := View {
  __class__ : class_id;
  name : string;
  view_dependencies : list class_id;
  hidden : bool;
  creation_sql : sql_query;
}.

Global Instance sql_query_eq_dec : EqDecision sql_query.
Proof. solve_decision. Defined.

Global Instance view_eq_dec : EqDecision view.
Proof. solve_decision. Defined.

(** The iteration order of a Python [set] built from a sequence of
    elements: every element of the sequence exactly once, in an order the
    language does not fix. *)
Class PySet := {
  set_iter : list view → list view;
  set_iter_NoDup : ∀ l, NoDup (set_iter l);
  set_iter_elem_of : ∀ l x, x ∈ set_iter l ↔ x ∈ l;
}.

(** One admissible order: first occurrences, in insertion order. *)
Definition insertion_order : PySet :=
  {| set_iter := remove_dups;
     set_iter_NoDup := NoDup_remove_dups;
     set_iter_elem_of := λ l x, elem_of_remove_dups l x |}.

(** The address of a Python object, for the places where it matters
    which object a name refers to. *)
Definition loc := positive.

(** Exceptions that reach the callers of this module.  [AttributeError] is
    raised on an object that is not of the kind the code expects.
    [OutOfFuel] is not a Python exception: it marks a run of the
    [while True] loop cut short by the bound of the model, and is shown
    below never to arise. *)
Inductive exn :=
  | CyclicDependencyError (view_to_deps : gmap class_id (gset class_id))
  | KeyError (key : class_id)
  | AttributeError (object : loc)
  | ExecutionError (database : string) (statement : string)
  | OutOfFuel.

Global Instance exn_eq_dec : EqDecision exn.
Proof. solve_decision. Defined.

(** ** _topological_sort_views *)

(** [{view.__class__: view for view in views}]: later instances of a class
    overwrite earlier ones. *)
Definition build_view_cls_to_view (views : list view) : gmap class_id view :=
  foldl (λ d view, <[__class__ view := view]> d) ∅ views.

(** [{view.__class__: set(view.view_dependencies) for view in views}] *)
Definition build_view_to_deps (views : list view)
    : gmap class_id (gset class_id) :=
  foldl (λ d view, <[__class__ view := list_to_set (view_dependencies view)]> d)
        ∅ views.

(** [set(item for item, dep in view_to_deps.items() if not dep)] *)
Definition ordered_of (view_to_deps : gmap class_id (gset class_id))
    : gset class_id :=
  dom (filter (λ kv, kv.2 = ∅) view_to_deps).

(** [{item: (dep - ordered) for item, dep in view_to_deps.items()
      if item not in ordered}] *)
Definition drop_ordered (ordered : gset class_id)
    (view_to_deps : gmap class_id (gset class_id))
    : gmap class_id (gset class_id) :=
  (λ dep, dep ∖ ordered) <$> filter (λ kv, kv.1 ∉ ordered) view_to_deps.

(** [view_cls_to_view[view]] for each [view] of a sequence of classes; a
    missing key raises [KeyError]. *)
Fixpoint lookup_views (view_cls_to_view : gmap class_id view)
    (keys : list class_id) : exn + list view :=
  match keys with
  | [] => inr []
  | k :: keys' =>
      match view_cls_to_view !! k with
      | None => inl (KeyError k)
      | Some v =>
          match lookup_views view_cls_to_view keys' with
          | inl e => inl e
          | inr vs => inr (v :: vs)
          end
      end
  end.

(** What a generator did when it was run to its end: the values it
    yielded, in order, and the exception that ended it, if any. *)
Record generated := Generated {
  yielded : list (list view);
  raised : option exn;
}.

Section resolver.
Context `{PySet}.

(** The [while True] loop of the generator, from the state held in
    [view_cls_to_view] and [view_to_deps].  [fuel] bounds the number of
    passes that yield a batch; the pass that breaks needs none. *)
Fixpoint deps_loop (fuel : nat) (view_cls_to_view : gmap class_id view)
    (view_to_deps : gmap class_id (gset class_id)) : generated :=
  let ordered := ordered_of view_to_deps in
  if decide (ordered = ∅) then
    if decide (view_to_deps = ∅) then Generated [] None
    else Generated [] (Some (CyclicDependencyError view_to_deps))
  else
    match fuel with
    | 0 => Generated [] (Some OutOfFuel)
    | S fuel' =>
        match lookup_views view_cls_to_view (elements ordered) with
        | inl e => Generated [] (Some e)
        | inr vs =>
            let rest :=
              deps_loop fuel' view_cls_to_view
                        (drop_ordered ordered view_to_deps) in
            Generated (set_iter vs :: yielded rest) (raised rest)
        end
    end.

(** The generator.  [views.copy()] builds a new list with the same
    items; the two dictionaries are built from it. *)
Definition _sets_of_views_deps_iterator (views : list view) : generated :=
  let view_cls_to_view := build_view_cls_to_view views in
  let view_to_deps := build_view_to_deps views in
  deps_loop (length views) view_cls_to_view view_to_deps.

(** [list(itertools.chain.from_iterable(gen))]: the batches flattened in
    the order they were yielded; an exception raised by the generator
    replaces the list. *)
Definition _topological_sort_views (list_of_views : list view)
    : exn + list view :=
  let g := _sets_of_views_deps_iterator list_of_views in
  match raised g with
  | Some e => inl e
  | None => inr (concat (yielded g))
  end.
End resolver.

(** ** The dependency graph of a list of descriptors *)

(** The instance that stands for its class in the two dictionaries: the
    last one of that class in the list. *)
Definition representative (views : list view) (v : view) : Prop :=
  ∃ l1 l2, views = l1 ++ v :: l2 ∧ __class__ v ∉ __class__ <$> l2.

(** The representatives, in the order of the list. *)
Fixpoint representatives (views : list view) : list view :=
  match views with
  | [] => []
  | v :: views' =>
      if decide (__class__ v ∈ __class__ <$> views') then representatives views'
      else v :: representatives views'
  end.

(** [depends_on views c d]: the descriptor of identity [c] lists [d] among
    its dependencies. *)
Definition depends_on (views : list view) (c d : class_id) : Prop :=
  ∃ v, representative views v ∧ __class__ v = c ∧ d ∈ view_dependencies v.

(** Every dependency is the identity of a descriptor of the list. *)
Definition dependencies_closed (views : list view) : Prop :=
  ∀ c d, depends_on views c d → d ∈ __class__ <$> views.

(** No identity reaches itself along dependencies. *)
Definition acyclic (views : list view) : Prop :=
  ∀ c, ¬ tc (depends_on views) c c.

(** [x] occurs strictly before [y] in [l]. *)
Definition strictly_before {A} (x y : A) (l : list A) : Prop :=
  ∃ l1 l2 l3, l = l1 ++ x :: l2 ++ y :: l3.

(** The edges of a working map, and the identities that a map can resolve:
    those all of whose dependencies can be resolved. *)
Definition dep_edge (m : gmap class_id (gset class_id)) (c d : class_id)
    : Prop :=
  ∃ deps, m !! c = Some deps ∧ d ∈ deps.

Inductive resolvable (m : gmap class_id (gset class_id)) : class_id → Prop :=
  | resolvable_intro c deps :
      m !! c = Some deps →
      (∀ d, d ∈ deps → resolvable m d) →
      resolvable m c.

(** The passes of the loop as a relation between the working map at the
    loop head and what the generator does from there. *)
Inductive loop_runs `{PySet} (view_cls_to_view : gmap class_id view)
    : gmap class_id (gset class_id) → generated → Prop :=
  | loop_done :
      loop_runs view_cls_to_view ∅ (Generated [] None)
  | loop_stuck m :
      ordered_of m = ∅ → m ≠ ∅ →
      loop_runs view_cls_to_view m
                (Generated [] (Some (CyclicDependencyError m)))
  | loop_yield m vs g :
      ordered_of m ≠ ∅ →
      lookup_views view_cls_to_view (elements (ordered_of m)) = inr vs →
      loop_runs view_cls_to_view (drop_ordered (ordered_of m) m) g →
      loop_runs view_cls_to_view m
                (Generated (set_iter vs :: yielded g) (raised g)).

(** ** sync_views *)

(** A database alias, key of [registry] and of [connections]. *)
Definition database := string.

(** Arguments of a logging call. *)
Inductive log_arg :=
  | ArgInt (n : nat)
  | ArgStr (s : string)
  | ArgStrs (l : list string).

(** What [sync_views] does to the outside, in the order it does it. *)
Inductive event :=
  | Log (logger : string) (msg : string) (args : list log_arg)
  | CursorEnter (db : database)
  | CursorExit (db : database)
  | AtomicEnter
  | AtomicCommit
  | AtomicRollback
  | Execute (db : database) (statement : string)
            (parameters : option (list string)).

Global Instance log_arg_eq_dec : EqDecision log_arg.
Proof. solve_decision. Defined.

Global Instance event_eq_dec : EqDecision event.
Proof. solve_decision. Defined.

(** The value a Python call evaluates to, as far as this module goes. *)
Inductive py_value :=
  | PyNone
  | PyInt (n : Z).

Global Instance py_value_eq_dec : EqDecision py_value.
Proof. solve_decision. Defined.

(** What the module takes from its surroundings: the constant
    [SUB_SCHEMA_NAME] of [constants.py], and the database, which may refuse
    a statement. *)
Class Surroundings := {
  SUB_SCHEMA_NAME : string;
  execute_fails : database → string → bool;
}.

(** A computation: the events it emitted and how it ended. *)
Definition action (A : Type) : Type := list event * (exn + A).

Global Instance action_ret : MRet action := λ A a, ([], inr a).

Definition raise {A} (e : exn) : action A := ([], inl e).

Definition emit (e : event) : action unit := ([e], inr tt).

(** Sequencing: an exception ends the computation. *)
Global Instance action_bind : MBind action := λ A B k x,
  match x with
  | (t, inl e) => (t, inl e)
  | (t, inr a) => let '(t', r) := k a in (t ++ t', r)
  end.

(** [for x in l: body] *)
Fixpoint for_each {A} (l : list A) (body : A → action unit) : action unit :=
  match l with
  | [] => mret tt
  | x :: l' => body x;; for_each l' body
  end.

(** [with connections[database].cursor() as cursor: body]: the cursor is
    closed however the body ends.  The alias is taken to be configured and
    the cursor to open: a run in which [connections[database]] or
    [cursor()] raises is not among the runs described here. *)
Definition with_cursor {A} (db : database) (body : action A) : action A :=
  let '(t, r) := body in (CursorEnter db :: t ++ [CursorExit db], r).

(** [with transaction.atomic(): body]: committed when the body ends
    normally, rolled back when it raises; the exception goes on. *)
Definition atomic {A} (body : action A) : action A :=
  let '(t, r) := body in
  (AtomicEnter :: t ++ [match r with
                        | inr _ => AtomicCommit
                        | inl _ => AtomicRollback
                        end], r).

(** How an f-string renders an [Optional[str]]. *)
Definition format_optional (s : option string) : string :=
  match s with
  | Some s => s
  | None => "None"
  end.

Section sync.
Context `{PySet} `{Surroundings}.

(** [cursor.execute(statement, params=parameters)] *)
Definition execute (db : database) (statement : string)
    (parameters : option (list string)) : action unit :=
  emit (Execute db statement parameters);;
  if execute_fails db statement then raise (ExecutionError db statement)
  else mret tt.

Definition drop_and_create_schema_sql : string :=
  "DROP SCHEMA IF EXISTS " ++ SUB_SCHEMA_NAME ++ " CASCADE; CREATE SCHEMA "
    ++ SUB_SCHEMA_NAME ++ ";".

Definition grant_usage_sql (user : option string) : string :=
  "GRANT USAGE ON SCHEMA " ++ SUB_SCHEMA_NAME ++ " TO "
    ++ format_optional user ++ ";".

Definition grant_select_sql (view_name : string) (user : option string)
    : string :=
  "GRANT SELECT ON " ++ SUB_SCHEMA_NAME ++ "." ++ view_name ++ " TO "
    ++ format_optional user ++ ";".

(** What runs inside [with transaction.atomic()]. *)
Definition rebuild_schema (grant_select_permissions_to_user : option string)
    (db : database) (views_to_generate : list view) : action unit :=
  execute db drop_and_create_schema_sql None;;
  for_each views_to_generate (λ view,
    emit (Log "" "generating view %s" [ArgStr (name view)]);;
    execute db (sql (creation_sql view))
               (Some (params (creation_sql view))));;
  (if decide (grant_select_permissions_to_user ≠ None)
   then execute db (grant_usage_sql grant_select_permissions_to_user) None
   else mret tt);;
  for_each views_to_generate (λ view,
    if hidden view || bool_decide (grant_select_permissions_to_user = None)
    then mret tt
    else execute db
           (grant_select_sql (name view) grant_select_permissions_to_user)
           None).

(** The body of [for database, views in registry.items()]. *)
Definition sync_database (grant_select_permissions_to_user : option string)
    (item : database * list view) : action unit :=
  let '(db, views) := item in
  views_to_generate ←
    (([], _topological_sort_views views) : action (list view));
  with_cursor db
    (atomic (rebuild_schema grant_select_permissions_to_user db
                            views_to_generate));;
  emit (Log "" "Successfully sync'd %s views for %s database"
            [ArgInt (length views_to_generate); ArgStr db]).

(** [registry] is a dictionary from database aliases to collections of
    views, met in insertion order.  The function has no [return]. *)
Definition sync_views (grant_select_permissions_to_user : option string)
    (registry : list (database * list view)) : action py_value :=
  emit (Log "sync" "Syncing view registry for databases %s"
            [ArgStrs (registry.*1)]);;
  for_each registry (sync_database grant_select_permissions_to_user);;
  emit (Log "" "Successfully sync'd %s views" [ArgInt (length registry)]);;
  mret PyNone.
End sync.

(** The statements sent to the database, in order. *)
Definition statements (t : list event) : list string :=
  omap (λ e, match e with Execute _ s _ => Some s | _ => None end) t.

(** The events that reach a database: cursors, transactions, statements. *)
Definition database_event (e : event) : bool :=
  match e with
  | Log _ _ _ => false
  | _ => true
  end.

(** Events that open or close a transaction. *)
Definition transaction_event (e : event) : bool :=
  match e with
  | AtomicEnter | AtomicCommit | AtomicRollback => true
  | _ => false
  end.

(** [t] is one transaction on [db] that ends with [closing]: a cursor is
    opened, the transaction begun, and nothing inside begins or ends
    another one. *)
Definition own_transaction (db : database) (closing : event)
    (t : list event) : Prop :=
  ∃ inside,
    t = CursorEnter db :: AtomicEnter :: inside ++ [closing; CursorExit db] ∧
    Forall (λ e, transaction_event e = false) inside.

(** ** Notions used to state the properties *)

(** [set(view.view_dependencies)] *)
Definition deps_set (v : view) : gset class_id :=
  list_to_set (view_dependencies v).

(** Every key of [view_cls_to_view] is the class of its value. *)
Definition cls_to_view_wf (vmap : gmap class_id view) : Prop :=
  ∀ c v, vmap !! c = Some v → __class__ v = c.

(** The classes of a sequence of views, as a set. *)
Definition classes_of (vs : list view) : gset class_id :=
  list_to_set (__class__ <$> vs).

(** The identities a list of descriptors can resolve, said on the
    descriptors themselves. *)
Inductive resolves (views : list view) : class_id → Prop :=
  | resolves_intro v :
      representative views v →
      (∀ d, d ∈ view_dependencies v → resolves views d) →
      resolves views (__class__ v).

(** The working map at the head of the pass number [n] (from 0); it no
    longer changes once no dependency set is empty. *)
Definition working_map (n : nat) (view_to_deps : gmap class_id (gset class_id))
    : gmap class_id (gset class_id) :=
  Nat.iter n (λ m, drop_ordered (ordered_of m) m) view_to_deps.

Section residue.
Context `{PySet}.

(** The identities that the generator yields, and what it leaves. *)
Definition emitted (views : list view) : gset class_id :=
  classes_of (concat (yielded (_sets_of_views_deps_iterator views))).

Definition residue (views : list view) : gmap class_id (gset class_id) :=
  drop_ordered (emitted views) (build_view_to_deps views).
End residue.

Section grants.
Context `{Surroundings}.

(** The grant statements of a rebuild, in order. *)
Definition grants grantee out : list string :=
  match grantee with
  | Some user =>
      grant_usage_sql (Some user) ::
      ((λ v, grant_select_sql (name v) (Some user)) <$>
         filter (λ v, hidden v = false) out)
  | None => []
  end.
End grants.

(** ** Sample inputs *)

Module Examples.
Definition A : class_id := 1%positive.
Definition B : class_id := 2%positive.
Definition C : class_id := 3%positive.
Definition X : class_id := 9%positive.

Definition select (body : string) : sql_query :=
  SqlQuery ("CREATE VIEW v AS " ++ body) [].

(** A chain: a depends on b, b depends on c; c is hidden. *)
Definition view_a : view := View A "a" [B] false (select "SELECT * FROM b").
Definition view_b : view := View B "b" [C] false (select "SELECT * FROM c").
Definition view_c : view := View C "c" [] true (select "SELECT 1").
Definition chain : list view := [view_a; view_b; view_c].

(** A cycle: a depends on b, b depends on a. *)
Definition view_b_cyclic : view :=
  View B "b" [A] false (select "SELECT * FROM a").
Definition cycle : list view := [view_a; view_b_cyclic].

(** A dependency on a class that is not registered. *)
Definition view_dangling : view :=
  View A "a" [X] false (select "SELECT * FROM x").
Definition dangling : list view := [view_dangling; view_c].

(** Two instances of one class. *)
Definition view_c' : view := View C "c2" [] false (select "SELECT 2").
Definition doubled : list view := [view_c; view_b; view_c'].
End Examples.

Module SyncExamples.
(** A database that accepts every statement. *)
Definition accepting : Surroundings :=
  {| SUB_SCHEMA_NAME := "views"; execute_fails := λ _ _, false |}.

(** A database that refuses to create the view b. *)
Definition refusing : Surroundings :=
  {| SUB_SCHEMA_NAME := "views";
     execute_fails := λ _ s,
       bool_decide (s = sql (creation_sql Examples.view_b)) |}.

Definition registry_one : list (database * list view) :=
  [("default", Examples.chain)].

Definition registry_two : list (database * list view) :=
  [("first", Examples.cycle); ("second", Examples.chain)].
End SyncExamples.

(** Decide a closed decidable proposition by evaluation. *)
Ltac by_compute := apply (bool_decide_unpack _); vm_compute; exact I.

(** ** The resolver on a store of objects

    The same function once more, with the objects it is given and the
    objects it creates held in a store, so that one can say which objects
    a call touches.  Reading an attribute or iterating reads the store;
    [views.copy()], [set(...)], a comprehension and [dep - ordered] each
    create an object; nothing in [_topological_sort_views] assigns to an
    attribute or an item, or calls a method that changes its object. *)

Inductive object :=
  | PyList (items : list loc)
  | PyViewInstance (cls : class_id) (view_name : string)
                   (dependencies : loc) (is_hidden : bool)
                   (creation : sql_query)
  | PyClassSeq (classes : list class_id)
  | PyClassSet (classes : gset class_id)
  | PyViewSet (items : list loc)
  | PyViewDict (entries : gmap class_id loc)
  | PyDepsDict (entries : gmap class_id loc).

Abbreviation heap := (gmap loc object).

(** *** Reading *)

Definition read_list (h : heap) (l : loc) : option (list loc) :=
  match h !! l with
  | Some (PyList items) => Some items
  | _ => None
  end.

Definition read_class_seq (h : heap) (l : loc) : option (list class_id) :=
  match h !! l with
  | Some (PyClassSeq classes) => Some classes
  | _ => None
  end.

Definition read_class_set (h : heap) (l : loc) : option (gset class_id) :=
  match h !! l with
  | Some (PyClassSet classes) => Some classes
  | _ => None
  end.

Definition read_view_set (h : heap) (l : loc) : option (list loc) :=
  match h !! l with
  | Some (PyViewSet items) => Some items
  | _ => None
  end.

Definition read_view_dict (h : heap) (l : loc) : option (gmap class_id loc) :=
  match h !! l with
  | Some (PyViewDict entries) => Some entries
  | _ => None
  end.

(** The attributes of a view instance; [view_dependencies] refers to a
    sequence of classes. *)
Definition read_view (h : heap) (l : loc) : option view :=
  match h !! l with
  | Some (PyViewInstance cls view_name dependencies is_hidden creation) =>
      match read_class_seq h dependencies with
      | Some classes => Some (View cls view_name classes is_hidden creation)
      | None => None
      end
  | _ => None
  end.

(** A dictionary from classes to sets of classes, with the sets it refers
    to. *)
Definition read_deps_dict (h : heap) (l : loc)
    : option (gmap class_id (gset class_id)) :=
  match h !! l with
  | Some (PyDepsDict entries) => Some (omap (read_class_set h) entries)
  | _ => None
  end.

Fixpoint read_all {A} (read : heap → loc → option A) (h : heap)
    (ls : list loc) : exn + list A :=
  match ls with
  | [] => inr []
  | l :: ls' =>
      match read h l with
      | None => inl (AttributeError l)
      | Some a =>
          match read_all read h ls' with
          | inl e => inl e
          | inr rest => inr (a :: rest)
          end
      end
  end.

(** *** Computations on the store *)

Definition heap_action (A : Type) : Type := heap → heap * (exn + A).

Global Instance heap_action_ret : MRet heap_action := λ A a h, (h, inr a).

Global Instance heap_action_bind : MBind heap_action := λ A B k x h,
  match x h with
  | (h', inl e) => (h', inl e)
  | (h', inr a) => k a h'
  end.

Definition heap_raise {A} (e : exn) : heap_action A := λ h, (h, inl e).

Definition load {A} (read : heap → loc → option A) (l : loc)
    : heap_action A := λ h,
  (h, match read h l with
      | Some a => inr a
      | None => inl (AttributeError l)
      end).

Definition load_all {A} (read : heap → loc → option A) (ls : list loc)
    : heap_action (list A) := λ h, (h, read_all read h ls).

(** A new object, at an address not in use. *)
Definition alloc (o : object) : heap_action loc := λ h,
  let l := fresh (dom h) in (<[l := o]> h, inr l).

(** One new set per entry, in order; later entries for a key replace
    earlier ones. *)
Fixpoint alloc_sets (entries : list (class_id * gset class_id))
    (d : gmap class_id loc) : heap_action (gmap class_id loc) :=
  match entries with
  | [] => mret d
  | (k, s) :: entries' =>
      l ← alloc (PyClassSet s);
      alloc_sets entries' (<[k := l]> d)
  end.

(** A new dictionary from classes to new sets. *)
Definition alloc_deps_dict (entries : list (class_id * gset class_id))
    : heap_action loc :=
  d ← alloc_sets entries ∅;
  alloc (PyDepsDict d).

(** [view_cls_to_view[view]] for each class of a sequence. *)
Fixpoint lookup_refs (view_cls_to_view : gmap class_id loc)
    (keys : list class_id) : exn + list loc :=
  match keys with
  | [] => inr []
  | k :: keys' =>
      match view_cls_to_view !! k with
      | None => inl (KeyError k)
      | Some l =>
          match lookup_refs view_cls_to_view keys' with
          | inl e => inl e
          | inr ls => inr (l :: ls)
          end
      end
  end.

(** What the generator did: the set objects it yielded and the exception
    that ended it, if any. *)
Record generated_refs := GeneratedRefs {
  yielded_refs : list loc;
  raised_ref : option exn;
}.

Section heap_resolver.
Context `{PySet}.

(** The loop, with [view_cls_to_view] and [view_to_deps] referring to
    dictionaries in the store.  The set that is yielded holds the
    instances found in [view_cls_to_view]; its iteration order is the one
    [set_iter] gives to what these instances hold. *)
Fixpoint heap_deps_loop (fuel : nat) (view_cls_to_view view_to_deps : loc)
    : heap_action generated_refs :=
  deps ← load read_deps_dict view_to_deps;
  ordered_ref ← alloc (PyClassSet (ordered_of deps));
  ordered ← load read_class_set ordered_ref;
  if decide (ordered = ∅) then
    deps ← load read_deps_dict view_to_deps;
    if decide (deps = ∅) then mret (GeneratedRefs [] None)
    else mret (GeneratedRefs [] (Some (CyclicDependencyError deps)))
  else
    match fuel with
    | 0 => mret (GeneratedRefs [] (Some OutOfFuel))
    | S fuel' =>
        cls_to_ref ← load read_view_dict view_cls_to_view;
        match lookup_refs cls_to_ref (elements ordered) with
        | inl e => mret (GeneratedRefs [] (Some e))
        | inr refs =>
            vs ← load_all read_view refs;
            batch ← alloc (PyViewSet
                             (omap (λ v, cls_to_ref !! __class__ v)
                                   (set_iter vs)));
            deps ← load read_deps_dict view_to_deps;
            view_to_deps' ←
              alloc_deps_dict (map_to_list (drop_ordered ordered deps));
            rest ← heap_deps_loop fuel' view_cls_to_view view_to_deps';
            mret (GeneratedRefs (batch :: yielded_refs rest)
                                (raised_ref rest))
        end
    end.

(** The generator up to its loop: the copy of the list and the two
    dictionaries.  The values of [view_cls_to_view] are the instances of
    the caller; the values of [view_to_deps] are new sets. *)
Definition heap_iterator_setup (views : loc)
    : heap_action (loc * loc * loc) :=
  items ← load read_list views;
  views ← alloc (PyList items);
  items ← load read_list views;
  vs ← load_all read_view items;
  view_cls_to_view ←
    alloc (PyViewDict
             (foldl (λ d lv, <[__class__ lv.2 := lv.1]> d) ∅ (zip items vs)));
  items ← load read_list views;
  vs ← load_all read_view items;
  view_to_deps ←
    alloc_deps_dict
      ((λ v, (__class__ v, list_to_set (view_dependencies v))) <$> vs);
  mret (views, view_cls_to_view, view_to_deps).

Definition heap_sets_of_views_deps_iterator (views : loc)
    : heap_action generated_refs :=
  '(views, view_cls_to_view, view_to_deps) ← heap_iterator_setup views;
  items ← load read_list views;
  heap_deps_loop (length items) view_cls_to_view view_to_deps.

(** [list(itertools.chain.from_iterable(...))]: a new list with the
    items of the sets yielded. *)
Definition heap_topological_sort_views (list_of_views : loc)
    : heap_action loc :=
  g ← heap_sets_of_views_deps_iterator list_of_views;
  match raised_ref g with
  | Some e => heap_raise e
  | None =>
      batches ← load_all read_view_set (yielded_refs g);
      alloc (PyList (concat batches))
  end.
End heap_resolver.

(** [h'] has every object of [h], unchanged. *)
Definition preserves (h h' : heap) : Prop :=
  ∀ l o, h !! l = Some o → h' !! l = Some o.

(** A computation that leaves every object it finds as it is. *)
Definition extending {A} (x : heap_action A) : Prop :=
  ∀ h, preserves h (x h).1.

(** *** What a store holds, for comparing with the functions above *)

(** [l] refers to a view instance that holds [v]. *)
Definition view_at (h : heap) (l : loc) (v : view) : Prop :=
  read_view h l = Some v.

(** [d] maps the classes that [m] maps, each to an instance that holds
    what [m] gives. *)
Definition views_at (h : heap) (d : gmap class_id loc)
    (m : gmap class_id view) : Prop :=
  ∀ c, option_Forall2 (view_at h) (d !! c) (m !! c).

(** [d] maps the classes that [m] maps, each to a set object that holds
    what [m] gives. *)
Definition sets_at (h : heap) (d : gmap class_id loc)
    (m : gmap class_id (gset class_id)) : Prop :=
  ∀ c, option_Forall2 (λ l s, read_class_set h l = Some s) (d !! c) (m !! c).

(** [l] refers to a dictionary of sets that holds [m]. *)
Definition deps_dict_at (h : heap) (l : loc)
    (m : gmap class_id (gset class_id)) : Prop :=
  ∃ d, h !! l = Some (PyDepsDict d) ∧ sets_at h d m.

(** [l] refers to a set of instances that hold [vs], in that order. *)
Definition batch_at (h : heap) (l : loc) (vs : list view) : Prop :=
  ∃ refs, read_view_set h l = Some refs ∧ Forall2 (view_at h) refs vs.

(** A store with the chain of [Examples]: the list at address 1, the three
    instances at 2, 3 and 4, their dependency sequences at 5, 6 and 7. *)
Definition chain_store : heap :=
  list_to_map
    [(1%positive, PyList [2%positive; 3%positive; 4%positive]);
     (2%positive, PyViewInstance Examples.A "a" 5%positive false
                    (Examples.select "SELECT * FROM b"));
     (3%positive, PyViewInstance Examples.B "b" 6%positive false
                    (Examples.select "SELECT * FROM c"));
     (4%positive, PyViewInstance Examples.C "c" 7%positive true
                    (Examples.select "SELECT 1"));
     (5%positive, PyClassSeq [Examples.B]);
     (6%positive, PyClassSeq [Examples.C]);
     (7%positive, PyClassSeq [])].

(** ** generate_view_docs *)

(** The records of [iwoca_data_docs.models] that [generate_view_docs]
    builds, with the members of [TableType] and [Country] it names. *)
Inductive TableType := postgres_view.

Inductive Country := uk | de.

Global Instance TableType_eq_dec : EqDecision TableType.
Proof. solve_decision. Defined.

Global Instance Country_eq_dec : EqDecision Country.
Proof. solve_decision. Defined.

Global Instance Country_countable : Countable Country.
Proof.
  refine (inj_countable' (λ c, match c with uk => true | de => false end)
                         (λ b : bool, if b then uk else de) _).
  by intros [].
Defined.

(** What an attribute of [view.Docs.Fields] can hold: [None], a string,
    such as a description that the view declares, or any other object,
    such as the attributes that every class has. *)
Inductive attr_value :=
  | AttrNone
  | AttrStr (s : string)
  | AttrObject (repr : string).

Global Instance attr_value_eq_dec : EqDecision attr_value.
Proof. solve_decision. Defined.

Record FieldDoc := MkFieldDoc {
  field_name : string;
  field_type : string;
  field_description : attr_value;
}.

Record TableDoc := MkTableDoc {
  table_name : string;
  table_type : TableType;
  table_description : string;
  field_docs : list FieldDoc;
  countries : gset Country;
}.

Global Instance FieldDoc_eq_dec : EqDecision FieldDoc.
Proof. solve_decision. Defined.

Global Instance TableDoc_eq_dec : EqDecision TableDoc.
Proof. solve_decision. Defined.

(** What [generate_view_docs] reads of a view beyond the attributes above,
    and what it asks of the database: [view.run_documentation_check],
    [view.schema_qry], [view.Docs.documentation], the lookup of an
    attribute of [view.Docs.Fields] by name, which gives the value of the
    attribute, of whatever kind, or nothing when the lookup raises
    [AttributeError], and the rows that [cursor.fetchall()] gives after a
    statement: pairs of a column name and a type. *)
Class Documentation := {
  run_documentation_check : view → bool;
  schema_qry : view → sql_query;
  docs_documentation : view → string;
  fields_getattr : view → string → option attr_value;
  fetchall : database → sql_query → list (string * string);
}.

(** [getattr(o, name, None)], from the lookup of [name] in [o]. *)
Definition getattr_or_None (found : option attr_value) : attr_value :=
  match found with
  | Some value => value
  | None => AttrNone
  end.

(** [for x in l: body], where the body changes a local value. *)
Fixpoint for_fold {A S} (l : list A) (s : S) (body : A → S → action S)
    : action S :=
  match l with
  | [] => mret s
  | x :: l' => s' ← body x s; for_fold l' s' body
  end.

Section docs.
Context `{PySet} `{Surroundings} `{Documentation}.

(** [FieldDoc(name=name, type=field_type,
              description=getattr(view.Docs.Fields, name, None))] *)
Definition field_doc (view : view) (row : string * string) : FieldDoc :=
  MkFieldDoc row.1 row.2 (getattr_or_None (fields_getattr view row.1)).

(** [TableDoc(name=view.name, type=TableType.postgres_view,
              description=view.Docs.documentation,
              field_docs=validated_field_list,
              countries={Country.uk, Country.de})] *)
Definition table_doc (view : view) (field_list : list (string * string))
    : TableDoc :=
  MkTableDoc (name view) postgres_view (docs_documentation view)
             (field_doc view <$> field_list) {[uk; de]}.

(** The body of [for view in views_to_generate], on [docs_list]. *)
Definition document_view (db : database) (view : view)
    (docs_list : list TableDoc) : action (list TableDoc) :=
  if negb (run_documentation_check view) then mret docs_list
  else
    field_list ←
      with_cursor db
        (execute db (sql (schema_qry view)) (Some (params (schema_qry view)));;
         mret (fetchall db (schema_qry view)));
    mret (docs_list ++ [table_doc view field_list]).

Definition generate_view_docs (registry : list (database * list view))
    : action (list TableDoc) :=
  for_fold registry [] (λ item docs_list,
    let '(db, views) := item in
    views_to_generate ←
      (([], _topological_sort_views views) : action (list view));
    for_fold views_to_generate docs_list (document_view db)).
End docs.

(** The views that [generate_view_docs] documents on a resolved sequence. *)
Definition documented `{Documentation} (views : list view) : list view :=
  filter (λ v, run_documentation_check v = true) views.

(** One cursor opened on [db], one statement, the cursor closed. *)
Definition bracketed_query (db : database) (q : sql_query) : list event :=
  [CursorEnter db; Execute db (sql q) (Some (params q)); CursorExit db].

(** ** Notions used to state further properties *)

(** Each view of the list depends on the next one and on nothing else;
    the last one depends on nothing. *)
Definition is_chain (views : list view) : Prop :=
  ∀ i v, views !! i = Some v →
    view_dependencies v =
      match views !! S i with
      | Some w => [__class__ w]
      | None => []
      end.

Section scripts.
Context `{Surroundings}.

(** The statements that the pass for a database sends when none is
    refused. *)
Definition rebuild_script (grantee : option string) (out : list view)
    : list string :=
  drop_and_create_schema_sql ::
  ((λ v, sql (creation_sql v)) <$> out) ++ grants grantee out.

(** The first statement of a script that the database refuses. *)
Definition first_refused (db : database) (script : list string)
    : option string :=
  head (filter (λ s, execute_fails db s = true) script).

(** The statements of a script up to the first one refused, included. *)
Fixpoint sent (db : database) (script : list string) : list string :=
  match script with
  | [] => []
  | s :: rest => s :: if execute_fails db s then [] else sent db rest
  end.

(** [x] sends the statements of [script] to [db] one after the other and
    stops at the first one refused, raising [ExecutionError] for it. *)
Definition runs_script (db : database) (x : action unit)
    (script : list string) : Prop :=
  statements x.1 = sent db script ∧
  x.2 = match first_refused db script with
        | Some s => inl (ExecutionError db s)
        | None => inr tt
        end.
End scripts.

(** The resolved sequence of a list of views; empty when the views do not
    resolve. *)
Definition resolved `{PySet} (views : list view) : list view :=
  match _topological_sort_views views with
  | inr out => out
  | inl _ => []
  end.

Section docs_notions.
Context `{PySet} `{Surroundings} `{Documentation}.

(** The documentation of the views of one database, when every query is
    accepted: one record for each resolved view that asks for the check,
    in the resolved order. *)
Definition database_docs (item : database * list view) : list TableDoc :=
  (λ v, table_doc v (fetchall item.1 (schema_qry v)))
    <$> documented (resolved item.2).

(** The queries that go with them. *)
Definition database_queries (item : database * list view) : list event :=
  concat ((λ v, bracketed_query item.1 (schema_qry v))
            <$> documented (resolved item.2)).

(** The body of the outer loop. *)
Definition document_database (item : database * list view)
    (docs_list : list TableDoc) : action (list TableDoc) :=
  let '(db, views) := item in
  views_to_generate ←
    (([], _topological_sort_views views) : action (list view));
  for_fold views_to_generate docs_list (document_view db).

(** When [x] raises the error of a refused statement, the database named
    refused the statement, which is the last one that [x] sent, and the
    last event of [x] is the closing of the cursor on that database. *)
Definition fails_fast {A} (x : action A) : Prop :=
  ∀ db s, x.2 = inl (ExecutionError db s) →
    execute_fails db s = true ∧
    last (statements x.1) = Some s ∧
    last x.1 = Some (CursorExit db).

(** [t] is a sequence of queries, each with its own cursor, and each the
    schema query of a view of the registry that asks for the check. *)
Definition schema_queries_only (registry : list (database * list view))
    (t : list event) : Prop :=
  ∃ queries : list (database * view),
    t = concat ((λ q, bracketed_query q.1 (schema_qry q.2)) <$> queries) ∧
    ∀ db v, (db, v) ∈ queries →
      run_documentation_check v = true ∧
      ∃ views, (db, views) ∈ registry ∧ v ∈ views.
End docs_notions.

Module DocsExamples.
(** The views that are not hidden ask for the check; every view has an
    [id] column that [Docs.Fields] describes and an [amount] column that
    it does not.  [Docs.Fields] is a class, so it also has the attributes
    of every class, of which two are given. *)
Definition documenting : Documentation :=
  {| run_documentation_check := λ v, negb (hidden v);
     schema_qry := λ v,
       SqlQuery "SELECT column_name, data_type FROM columns WHERE name = %s"
                [name v];
     docs_documentation := λ v, ("The view " ++ name v)%string;
     fields_getattr := λ _ attribute,
       if decide (attribute = "id") then Some (AttrStr "The identifier")
       else if decide (attribute = "__module__")
       then Some (AttrStr "reports.views")
       else if decide (attribute = "__dict__")
       then Some (AttrObject "mappingproxy")
       else None;
     fetchall := λ _ _, [("id", "integer"); ("amount", "numeric")] |}.

(** A database that refuses every schema query. *)
Definition no_introspection : Surroundings :=
  {| SUB_SCHEMA_NAME := "views";
     execute_fails := λ _ s,
       bool_decide
         (s = "SELECT column_name, data_type FROM columns WHERE name = %s") |}.
End DocsExamples.

(** * Properties *)

(** ** The working map *)

Section working_map.
Implicit Types (m : gmap class_id (gset class_id)) (O : gset class_id).
Implicit Types (c d : class_id).

Lemma elem_of_ordered_of m c : c ∈ ordered_of m ↔ m !! c = Some ∅.
Proof.
  unfold ordered_of. rewrite elem_of_dom. split.
  - intros [D HD]. apply map_lookup_filter_Some in HD as [HD Hemp].
    simpl in Hemp. by subst.
  - intros Hc. exists ∅. by apply map_lookup_filter_Some.
Qed.

Lemma ordered_of_subseteq m : ordered_of m ⊆ dom m.
Proof.
  intros c Hc. apply elem_of_ordered_of in Hc. apply elem_of_dom. eauto.
Qed.

Lemma ordered_of_empty : ordered_of ∅ = ∅.
Proof.
  apply set_eq. intros c. rewrite elem_of_ordered_of, lookup_empty.
  set_solver.
Qed.

Lemma lookup_drop_ordered O m c :
  drop_ordered O m !! c =
    if decide (c ∈ O) then None else (λ dep, dep ∖ O) <$> m !! c.
Proof.
  unfold drop_ordered. rewrite lookup_fmap.
  destruct (m !! c) as [D|] eqn:Hm.
  - case_decide as HO.
    + rewrite (proj2 (map_lookup_filter_None _ m c)); [done|].
      right. intros D' HD'. simpl. tauto.
    + erewrite (proj2 (map_lookup_filter_Some _ m c D)); [done|].
      split; [done|]. by simpl.
  - rewrite (proj2 (map_lookup_filter_None _ m c)); [|by left].
    by case_decide.
Qed.

Lemma lookup_drop_ordered_Some O m c D' :
  drop_ordered O m !! c = Some D' ↔
    (c ∉ O) ∧ (∃ D, m !! c = Some D ∧ D' = D ∖ O).
Proof.
  rewrite lookup_drop_ordered. case_decide as HO.
  - split; [done|]. tauto.
  - rewrite fmap_Some. naive_solver.
Qed.

Lemma dom_drop_ordered O m : dom (drop_ordered O m) = dom m ∖ O.
Proof.
  apply set_eq. intros c. rewrite elem_of_difference, !elem_of_dom.
  rewrite lookup_drop_ordered. case_decide as HO.
  - split; [intros []; done | tauto].
  - rewrite fmap_is_Some. tauto.
Qed.

Lemma drop_ordered_drop_ordered O1 O2 m :
  drop_ordered O2 (drop_ordered O1 m) = drop_ordered (O1 ∪ O2) m.
Proof.
  apply map_eq. intros c. rewrite !lookup_drop_ordered.
  repeat case_decide; try set_solver.
  destruct (m !! c) as [D|]; simpl; [|done].
  f_equal. set_solver.
Qed.

Lemma size_drop_ordered m :
  ordered_of m ≠ ∅ → size (drop_ordered (ordered_of m) m) < size m.
Proof.
  intros Hne. rewrite <- !size_dom, dom_drop_ordered.
  apply subset_size. apply set_choose_L in Hne as [c Hc].
  pose proof (ordered_of_subseteq m).
  set_solver.
Qed.
End working_map.

(** ** The two dictionaries *)

Section dictionaries.
Implicit Types (views : list view) (v w : view) (c d : class_id).

Lemma build_view_cls_to_view_snoc views v :
  build_view_cls_to_view (views ++ [v]) =
    <[__class__ v := v]> (build_view_cls_to_view views).
Proof. unfold build_view_cls_to_view. by rewrite foldl_snoc. Qed.

Lemma build_view_to_deps_snoc views v :
  build_view_to_deps (views ++ [v]) =
    <[__class__ v := deps_set v]> (build_view_to_deps views).
Proof. unfold build_view_to_deps. by rewrite foldl_snoc. Qed.

Lemma build_view_to_deps_fmap views :
  build_view_to_deps views = deps_set <$> build_view_cls_to_view views.
Proof.
  induction views as [|v views IH] using rev_ind; [symmetry; apply fmap_empty|].
  rewrite build_view_to_deps_snoc, build_view_cls_to_view_snoc, IH.
  by rewrite fmap_insert.
Qed.

Lemma representative_elem_of views v : representative views v → v ∈ views.
Proof. intros (l1 & l2 & -> & _). set_solver. Qed.

Lemma representative_snoc views v w :
  representative (views ++ [v]) w ↔
    w = v ∨ (representative views w ∧ __class__ w ≠ __class__ v).
Proof.
  split.
  - intros (l1 & l2 & Heq & Hnot).
    destruct l2 as [|x l2 _] using rev_ind.
    + apply app_inj_tail in Heq as [_ ->]. by left.
    + rewrite app_comm_cons, app_assoc in Heq.
      apply app_inj_tail in Heq as [-> ->]. right.
      rewrite fmap_app in Hnot. split; [|set_solver].
      exists l1, l2. split; [done|]. set_solver.
  - intros [->|[(l1 & l2 & -> & Hnot) Hne]].
    + exists views, []. split; [done|]. set_solver.
    + exists l1, (l2 ++ [v]). split; [by rewrite <- app_assoc|].
      rewrite fmap_app. set_solver.
Qed.

Lemma lookup_build_view_cls_to_view views c v :
  build_view_cls_to_view views !! c = Some v ↔
    representative views v ∧ __class__ v = c.
Proof.
  revert c v. induction views as [|x views IH] using rev_ind; intros c v.
  - split; [done|]. intros [(l1 & l2 & Heq & _) _]. by destruct l1.
  - rewrite build_view_cls_to_view_snoc, representative_snoc.
    destruct (decide (__class__ x = c)) as [<-|Hne].
    + rewrite lookup_insert_eq. split.
      * intros [= ->]. tauto.
      * intros [[->|[_ Hne]] Hc]; [done|congruence].
    + rewrite lookup_insert_ne, IH by done. split.
      * intros [Hr <-]. split; [|done]. right. split; [done|congruence].
      * intros [[->|[Hr _]] Hc]; [done|]. by split.
Qed.

Lemma lookup_build_view_to_deps views c D :
  build_view_to_deps views !! c = Some D ↔
    ∃ v, representative views v ∧ __class__ v = c ∧ D = deps_set v.
Proof.
  rewrite build_view_to_deps_fmap, lookup_fmap, fmap_Some.
  setoid_rewrite lookup_build_view_cls_to_view. naive_solver.
Qed.

Lemma dom_build_view_cls_to_view views :
  dom (build_view_cls_to_view views) = list_to_set (__class__ <$> views).
Proof.
  induction views as [|x views IH] using rev_ind; [apply dom_empty_L|].
  rewrite build_view_cls_to_view_snoc, dom_insert_L, IH, fmap_app.
  set_solver.
Qed.

Lemma dom_build_view_to_deps views :
  dom (build_view_to_deps views) = list_to_set (__class__ <$> views).
Proof.
  rewrite build_view_to_deps_fmap, dom_fmap_L.
  apply dom_build_view_cls_to_view.
Qed.

Lemma size_build_view_to_deps views :
  size (build_view_to_deps views) ≤ length views.
Proof.
  induction views as [|x views IH] using rev_ind; [cbn; rewrite map_size_empty; lia|].
  rewrite build_view_to_deps_snoc, length_app. simpl.
  destruct (build_view_to_deps views !! __class__ x) eqn:Hx.
  - rewrite map_size_insert_Some by eauto. lia.
  - rewrite map_size_insert_None by done. lia.
Qed.

Lemma dep_edge_build views c d :
  dep_edge (build_view_to_deps views) c d ↔ depends_on views c d.
Proof.
  unfold dep_edge, depends_on. setoid_rewrite lookup_build_view_to_deps.
  unfold deps_set. split.
  - intros (D & (v & Hr & Hc & ->) & Hd). exists v.
    by rewrite elem_of_list_to_set in Hd.
  - intros (v & Hr & Hc & Hd). exists (deps_set v). split; [eauto|].
    by apply elem_of_list_to_set.
Qed.

Lemma elem_of_representatives views v :
  v ∈ representatives views ↔ representative views v.
Proof.
  induction views as [|x views IH]; simpl.
  - split; [by intros ?%elem_of_nil|]. intros (l1 & l2 & Heq & _).
    by destruct l1.
  - assert (representative (x :: views) v ↔
            (v = x ∧ __class__ x ∉ __class__ <$> views) ∨
            representative views v) as ->.
    { split.
      - intros (l1 & l2 & Heq & Hnot). destruct l1 as [|y l1]; simpl in Heq.
        + injection Heq as -> ->. by left.
        + injection Heq as -> ->. right. by exists l1, l2.
      - intros [[-> Hnot]|(l1 & l2 & -> & Hnot)].
        + by exists [], views.
        + by exists (x :: l1), l2. }
    case_decide as Hx.
    + rewrite IH. naive_solver.
    + rewrite elem_of_cons, IH. naive_solver.
Qed.

Lemma representatives_NoDup_cls views :
  NoDup (__class__ <$> representatives views).
Proof.
  induction views as [|x views IH]; simpl; [constructor|].
  case_decide as Hx; [done|]. rewrite fmap_cons. constructor; [|done].
  intros Hin. apply Hx. apply list_elem_of_fmap in Hin as (w & -> & Hw).
  apply elem_of_representatives, representative_elem_of in Hw.
  by apply list_elem_of_fmap_2.
Qed.

Lemma representatives_id views :
  NoDup (__class__ <$> views) → representatives views = views.
Proof.
  induction views as [|x views IH]; simpl; [done|].
  intros [Hx Hnd]%NoDup_cons.
  case_decide; [done|]. by rewrite IH.
Qed.
End dictionaries.

(** ** Batches and the loop *)

Lemma build_view_cls_to_view_wf views :
  cls_to_view_wf (build_view_cls_to_view views).
Proof. intros c v Hv. by apply lookup_build_view_cls_to_view in Hv as [_ ?]. Qed.

Section lookup_views.
Implicit Types (vmap : gmap class_id view) (keys : list class_id).

Lemma lookup_views_total vmap keys :
  (∀ k, k ∈ keys → k ∈ dom vmap) →
  ∃ vs, lookup_views vmap keys = inr vs.
Proof.
  induction keys as [|k keys IH]; intros Hdom; simpl; [by eexists|].
  destruct (proj1 (elem_of_dom vmap k)) as [v ->]; [apply Hdom; left|].
  destruct IH as [vs ->]; [intros; apply Hdom; by right|]. by eexists.
Qed.

Lemma lookup_views_inr vmap keys vs :
  lookup_views vmap keys = inr vs →
  ∀ v, v ∈ vs ↔ ∃ k, k ∈ keys ∧ vmap !! k = Some v.
Proof.
  revert vs. induction keys as [|k keys IH]; intros vs; simpl.
  - intros [= <-] v. split; [by intros ?%elem_of_nil|].
    by intros (k & ?%elem_of_nil & _).
  - destruct (vmap !! k) as [x|] eqn:Hk; [|done].
    destruct (lookup_views vmap keys) as [|xs]; [done|].
    intros [= <-] v. rewrite elem_of_cons, (IH xs eq_refl). split.
    + intros [->|(k' & ? & ?)]; [exists k | exists k']; set_solver.
    + intros (k' & [->|?]%elem_of_cons & Hv); [left; congruence|].
      right. eauto.
Qed.

Lemma lookup_views_inr_dom vmap keys vs k :
  lookup_views vmap keys = inr vs → k ∈ keys → is_Some (vmap !! k).
Proof.
  revert vs. induction keys as [|k' keys IH]; intros vs; simpl.
  - by intros _ ?%elem_of_nil.
  - destruct (vmap !! k') as [x|] eqn:Hk; [|done].
    destruct (lookup_views vmap keys) as [|xs]; [done|].
    intros _ [->|Hin]%elem_of_cons; [by rewrite Hk | by eapply IH].
Qed.
End lookup_views.

Section batches.
Context `{PySet}.
Implicit Types (vmap : gmap class_id view) (O : gset class_id).

Lemma elem_of_batch vmap O vs v :
  cls_to_view_wf vmap →
  lookup_views vmap (elements O) = inr vs →
  v ∈ set_iter vs ↔ __class__ v ∈ O ∧ vmap !! __class__ v = Some v.
Proof.
  intros Hwf Hvs. rewrite set_iter_elem_of, (lookup_views_inr _ _ _ Hvs).
  setoid_rewrite elem_of_elements. split.
  - intros (k & Hk & Hv). by rewrite (Hwf _ _ Hv).
  - intros [? ?]. eauto.
Qed.

Lemma classes_of_batch vmap O vs :
  cls_to_view_wf vmap →
  lookup_views vmap (elements O) = inr vs →
  classes_of (set_iter vs) = O.
Proof.
  intros Hwf Hvs. apply set_eq. intros c. unfold classes_of.
  rewrite elem_of_list_to_set, list_elem_of_fmap.
  setoid_rewrite (elem_of_batch _ _ _ _ Hwf Hvs). split.
  - by intros (v & -> & ? & _).
  - intros Hc.
    destruct (lookup_views_inr_dom _ _ _ c Hvs) as [v Hv];
      [by apply elem_of_elements|].
    exists v. by rewrite (Hwf _ _ Hv).
Qed.

Lemma NoDup_batch_classes vmap O vs :
  cls_to_view_wf vmap →
  lookup_views vmap (elements O) = inr vs →
  NoDup (__class__ <$> set_iter vs).
Proof.
  intros Hwf Hvs. apply NoDup_fmap_2_strong; [|apply set_iter_NoDup].
  intros v w Hv Hw Heq.
  apply (elem_of_batch _ _ _ _ Hwf Hvs) in Hv as [_ Hv], Hw as [_ Hw].
  rewrite Heq in Hv. congruence.
Qed.

Lemma batch_nonempty vmap O vs :
  cls_to_view_wf vmap →
  lookup_views vmap (elements O) = inr vs →
  O ≠ ∅ → set_iter vs ≠ [].
Proof.
  intros Hwf Hvs HO Hnil. apply HO.
  rewrite <- (classes_of_batch _ _ _ Hwf Hvs). by rewrite Hnil.
Qed.
End batches.

Section loop.
Context `{PySet}.
Implicit Types (vmap : gmap class_id view).
Implicit Types (m : gmap class_id (gset class_id)) (g : generated).

Lemma deps_loop_runs fuel vmap m :
  dom m ⊆ dom vmap → size m ≤ fuel →
  loop_runs vmap m (deps_loop fuel vmap m).
Proof.
  revert m. induction fuel as [|fuel IH]; intros m Hdom Hsize.
  - assert (m = ∅) as -> by (apply map_size_empty_iff; lia).
    simpl. rewrite decide_True by apply ordered_of_empty.
    rewrite decide_True by done. constructor.
  - simpl. case_decide as Hord.
    + case_decide as Hm; [subst; constructor | by constructor].
    + destruct (lookup_views_total vmap (elements (ordered_of m)))
        as [vs Hvs].
      { intros k Hk%elem_of_elements.
        apply Hdom. by apply ordered_of_subseteq. }
      rewrite Hvs. apply (loop_yield _ _ _ (deps_loop _ _ _)); [done..|].
      apply IH.
      * rewrite dom_drop_ordered. set_solver.
      * pose proof (size_drop_ordered m Hord). lia.
Qed.

Lemma loop_runs_elem_of vmap m g v :
  cls_to_view_wf vmap → loop_runs vmap m g →
  v ∈ concat (yielded g) →
  vmap !! __class__ v = Some v ∧ __class__ v ∈ dom m.
Proof.
  intros Hwf Hrun. induction Hrun as [|m ? ?|m vs g Hord Hvs Hrun IH]; simpl.
  - by intros ?%elem_of_nil.
  - by intros ?%elem_of_nil.
  - rewrite elem_of_app. intros [Hv|Hv].
    + apply (elem_of_batch _ _ _ _ Hwf Hvs) in Hv as [Hc Hv].
      split; [done|]. by apply ordered_of_subseteq.
    + destruct (IH Hv) as [? Hd]. split; [done|].
      rewrite dom_drop_ordered in Hd. set_solver.
Qed.

Lemma loop_runs_later vmap m g v :
  cls_to_view_wf vmap →
  loop_runs vmap (drop_ordered (ordered_of m) m) g →
  v ∈ concat (yielded g) → __class__ v ∉ ordered_of m.
Proof.
  intros Hwf Hrun Hv.
  destruct (loop_runs_elem_of _ _ _ _ Hwf Hrun Hv) as [_ Hd].
  rewrite dom_drop_ordered in Hd. set_solver.
Qed.

Lemma loop_runs_NoDup vmap m g :
  cls_to_view_wf vmap → loop_runs vmap m g →
  NoDup (__class__ <$> concat (yielded g)).
Proof.
  intros Hwf Hrun. induction Hrun as [|m ? ?|m vs g Hord Hvs Hrun IH]; simpl;
    [constructor..|].
  rewrite fmap_app. apply NoDup_app. split_and!; [|
   |done].
  - by eapply NoDup_batch_classes.
  - intros c (v & -> & Hv)%list_elem_of_fmap (w & Hc & Hw)%list_elem_of_fmap.
    apply (elem_of_batch _ _ _ _ Hwf Hvs) in Hv as [Hv _].
    eapply loop_runs_later; [done..|]. by rewrite <- Hc.
Qed.

Lemma classes_of_app (l1 l2 : list view) :
  classes_of (l1 ++ l2) = classes_of l1 ∪ classes_of l2.
Proof. unfold classes_of. rewrite fmap_app. set_solver. Qed.

(** What is left of the map when the loop stops, and how it stops. *)
Lemma loop_runs_residual vmap m g :
  cls_to_view_wf vmap → loop_runs vmap m g →
  let r := drop_ordered (classes_of (concat (yielded g))) m in
  ordered_of r = ∅ ∧
  raised g = if decide (r = ∅) then None
             else Some (CyclicDependencyError r).
Proof.
  intros Hwf Hrun.
  assert (∀ m' : gmap class_id (gset class_id), drop_ordered ∅ m' = m')
    as Hid.
  { intros m'. apply map_eq. intros c. rewrite lookup_drop_ordered.
    rewrite decide_False by set_solver.
    destruct (m' !! c); simpl; [f_equal; set_solver | done]. }
  induction Hrun as [|m Hord Hm|m vs g Hord Hvs Hrun IH]; simpl.
  - unfold classes_of. simpl. rewrite Hid. split; [apply ordered_of_empty|].
    by rewrite decide_True.
  - unfold classes_of. simpl. rewrite Hid. split; [done|].
    by rewrite decide_False.
  - rewrite classes_of_app, (classes_of_batch _ _ _ Hwf Hvs).
    rewrite <- drop_ordered_drop_ordered. apply IH.
Qed.

Lemma resolvable_drop_ordered m c :
  resolvable (drop_ordered (ordered_of m) m) c → resolvable m c.
Proof.
  induction 1 as [c D' Hc _ IH].
  apply lookup_drop_ordered_Some in Hc as (Hnot & D & Hc & ->).
  apply (resolvable_intro _ _ D); [done|]. intros d Hd.
  destruct (decide (d ∈ ordered_of m)) as [Hin|Hnin].
  - apply elem_of_ordered_of in Hin.
    apply (resolvable_intro _ _ ∅); [done|]. set_solver.
  - apply IH. set_solver.
Qed.

Lemma loop_runs_resolvable vmap m g c :
  cls_to_view_wf vmap → loop_runs vmap m g →
  c ∈ classes_of (concat (yielded g)) → resolvable m c.
Proof.
  intros Hwf Hrun. induction Hrun as [|m ? ?|m vs g Hord Hvs Hrun IH]; simpl.
  - set_solver.
  - set_solver.
  - rewrite classes_of_app, (classes_of_batch _ _ _ Hwf Hvs), elem_of_union.
    intros [Hc|Hc].
    + apply elem_of_ordered_of in Hc.
      apply (resolvable_intro _ _ ∅); [done|]. set_solver.
    + by apply resolvable_drop_ordered, IH.
Qed.

Lemma resolvable_dom m c : resolvable m c → c ∈ dom m.
Proof. intros [? D Hc _]. apply elem_of_dom. eauto. Qed.

(** Nothing that is left when no dependency set is empty can be
    resolved. *)
Lemma stuck_not_resolvable m E c :
  ordered_of (drop_ordered E m) = ∅ →
  resolvable m c → c ∈ dom (drop_ordered E m) → False.
Proof.
  intros Hstuck. induction 1 as [c D Hc Hres IH]. intros Hin.
  apply elem_of_dom in Hin as [D' HD'].
  pose proof HD' as HD''.
  apply lookup_drop_ordered_Some in HD' as (HcE & D0 & Hc0 & ->).
  assert (D0 = D) as -> by congruence.
  destruct (decide (D ∖ E = ∅)) as [Hemp|Hne].
  - rewrite Hemp in HD''. apply elem_of_ordered_of in HD''. set_solver.
  - apply set_choose_L in Hne as [d Hd].
    apply (IH d); [set_solver|].
    rewrite dom_drop_ordered. apply elem_of_difference. split; [|set_solver].
    apply resolvable_dom, Hres. set_solver.
Qed.

(** The identities emitted are exactly those that can be resolved. *)
Lemma loop_runs_emitted vmap m g c :
  cls_to_view_wf vmap → loop_runs vmap m g →
  c ∈ classes_of (concat (yielded g)) ↔ resolvable m c.
Proof.
  intros Hwf Hrun. split; [by eapply loop_runs_resolvable|].
  intros Hres.
  destruct (decide (c ∈ classes_of (concat (yielded g)))) as [|Hnot]; [done|].
  exfalso.
  destruct (loop_runs_residual _ _ _ Hwf Hrun) as [Hstuck _].
  eapply stuck_not_resolvable; [done..|].
  rewrite dom_drop_ordered. apply elem_of_difference.
  split; [by apply resolvable_dom | done].
Qed.
End loop.

(** ** Order of the batches, cycles *)

Section order.
Context `{PySet}.
Implicit Types (vmap : gmap class_id view).
Implicit Types (m : gmap class_id (gset class_id)) (g : generated).

Lemma strictly_before_app_l {A} (x y : A) l0 l :
  strictly_before x y l → strictly_before x y (l0 ++ l).
Proof.
  intros (l1 & l2 & l3 & ->). exists (l0 ++ l1), l2, l3.
  by rewrite <- app_assoc.
Qed.

Lemma strictly_before_split {A} (x y : A) l l' :
  x ∈ l → y ∈ l' → strictly_before x y (l ++ l').
Proof.
  intros (a1 & a2 & ->)%list_elem_of_split (b1 & b2 & ->)%list_elem_of_split.
  exists a1, (a2 ++ b1), b2. by rewrite <- !app_assoc.
Qed.

(** A descriptor is yielded only after each of its dependencies. *)
Lemma loop_runs_order vmap m g D d vD :
  cls_to_view_wf vmap → loop_runs vmap m g →
  m !! __class__ vD = Some D → d ∈ D → vD ∈ concat (yielded g) →
  ∃ vE, __class__ vE = d ∧ strictly_before vE vD (concat (yielded g)).
Proof.
  intros Hwf Hrun. revert D.
  induction Hrun as [|m ? ?|m vs g Hord Hvs Hrun IH]; intros D HD Hd; simpl.
  - by intros ?%elem_of_nil.
  - by intros ?%elem_of_nil.
  - rewrite elem_of_app. intros [Hin|Hin].
    + apply (elem_of_batch _ _ _ _ Hwf Hvs) in Hin as [Hc _].
      apply elem_of_ordered_of in Hc. set_solver.
    + pose proof (loop_runs_later _ _ _ _ Hwf Hrun Hin) as Hnot.
      destruct (decide (d ∈ ordered_of m)) as [Hdo|Hdo].
      * rewrite <- (classes_of_batch _ _ _ Hwf Hvs) in Hdo.
        apply elem_of_list_to_set, list_elem_of_fmap in Hdo
          as (vE & -> & HvE).
        exists vE. split; [done|]. by apply strictly_before_split.
      * destruct (IH (D ∖ ordered_of m)) as (vE & HE & Hbefore);
          [|set_solver|done|].
        { apply lookup_drop_ordered_Some. eauto. }
        exists vE. split; [done|]. by apply strictly_before_app_l.
Qed.

Lemma loop_runs_length vmap m g :
  cls_to_view_wf vmap → loop_runs vmap m g →
  length (yielded g) ≤ size m ∧ Forall (λ batch, batch ≠ []) (yielded g).
Proof.
  intros Hwf Hrun. induction Hrun as [|m ? ?|m vs g Hord Hvs Hrun IH]; simpl.
  - split; [lia|constructor].
  - split; [lia|constructor].
  - destruct IH as [Hlen Hall]. pose proof (size_drop_ordered m Hord).
    split; [lia|]. constructor; [|done]. by eapply batch_nonempty.
Qed.
End order.

Section cycles.
Implicit Types (m : gmap class_id (gset class_id)) (c d : class_id).

Lemma tc_weaken (R R' : relation class_id) x y :
  (∀ a b, R' a b → tc R a b) → tc R' x y → tc R x y.
Proof.
  intros Hsub. induction 1 as [x y Hxy|x y z Hxy _ IH]; [by apply Hsub|].
  eapply tc_transitive; [by apply Hsub | done].
Qed.

(** In a finite non-empty set where every element has a successor inside
    the set, some element reaches itself. *)
Lemma no_sink_cycle (S : gset class_id) :
  ∀ R : relation class_id,
  S ≠ ∅ → (∀ x, x ∈ S → ∃ y, y ∈ S ∧ R x y) →
  ∃ x, x ∈ S ∧ tc R x x.
Proof.
  induction S as [|a X Ha IH] using set_ind_L; intros R Hne Hsucc; [done|].
  destruct (Hsucc a) as (y & Hy & Hay); [set_solver|].
  destruct (decide (y = a)) as [->|Hya].
  { exists a. split; [set_solver|]. by apply tc_once. }
  assert (y ∈ X) as HyX by set_solver.
  set (R' := λ x z, R x z ∨ (R x a ∧ R a z)).
  destruct (IH R') as (x & Hx & Hcyc); [set_solver| |].
  - intros x Hx. destruct (Hsucc x) as (z & Hz & Hxz); [set_solver|].
    destruct (decide (z = a)) as [->|Hza].
    + exists y. split; [done|]. right. by split.
    + exists z. split; [set_solver|]. by left.
  - exists x. split; [set_solver|]. eapply tc_weaken; [|done].
    intros u w [Huw|[Hua Haw]]; [by apply tc_once|].
    eapply tc_l; [done|]. by apply tc_once.
Qed.

Lemma resolvable_not_on_cycle m c :
  resolvable m c → ¬ tc (dep_edge m) c c.
Proof.
  induction 1 as [c D Hc _ IH]. intros Hcyc.
  inversion Hcyc as [? ? (D' & HD' & Hin)|? y ? (D' & HD' & Hin) Hyc]; subst.
  - assert (D' = D) as -> by congruence. by apply (IH c).
  - assert (D' = D) as -> by congruence. apply (IH y Hin).
    eapply tc_r; [done|]. exists D. by split.
Qed.

(** When dependencies stay inside the map and nothing is on a cycle,
    every identity of the map can be resolved. *)
Lemma acyclic_closed_stuck_empty m E :
  (∀ c d, dep_edge m c d → d ∈ dom m) →
  (∀ c, ¬ tc (dep_edge m) c c) →
  (∀ c, c ∈ E → c ∈ dom m) →
  ordered_of (drop_ordered E m) = ∅ →
  drop_ordered E m = ∅.
Proof.
  intros Hclosed Hacyc HE Hstuck.
  destruct (decide (drop_ordered E m = ∅)) as [|Hne]; [done|]. exfalso.
  destruct (no_sink_cycle (dom (drop_ordered E m)) (dep_edge m))
    as (x & _ & Hx); [by rewrite dom_empty_iff_L| |by eapply Hacyc].
  intros x [D' HD']%elem_of_dom. pose proof HD' as HD''.
  apply lookup_drop_ordered_Some in HD' as (HxE & D & HD & ->).
  destruct (decide (D ∖ E = ∅)) as [Hemp|Hnemp].
  { rewrite Hemp in HD''. apply elem_of_ordered_of in HD''. set_solver. }
  apply set_choose_L in Hnemp as [d Hd]. exists d.
  assert (dep_edge m x d) as Hedge by (exists D; set_solver).
  split; [|done]. rewrite dom_drop_ordered. apply elem_of_difference.
  split; [by eapply Hclosed | set_solver].
Qed.
End cycles.


Section graph.
Implicit Types (views : list view) (v : view) (c d : class_id).

Lemma representative_inj views v w :
  representative views v → representative views w →
  __class__ v = __class__ w → v = w.
Proof.
  intros Hv Hw Heq.
  assert (build_view_cls_to_view views !! __class__ v = Some v) as H1
    by by apply lookup_build_view_cls_to_view.
  assert (build_view_cls_to_view views !! __class__ v = Some w) as H2
    by by apply lookup_build_view_cls_to_view.
  congruence.
Qed.

Lemma resolvable_build views c :
  resolvable (build_view_to_deps views) c ↔ resolves views c.
Proof.
  split.
  - induction 1 as [c D Hc _ IH].
    apply lookup_build_view_to_deps in Hc as (v & Hr & <- & ->).
    constructor; [done|]. intros d Hd. apply IH.
    by apply elem_of_list_to_set.
  - induction 1 as [v Hr _ IH].
    apply (resolvable_intro _ _ (deps_set v)).
    + apply lookup_build_view_to_deps. eauto.
    + intros d Hd. apply IH. by apply elem_of_list_to_set in Hd.
Qed.

Lemma tc_dep_edge_build views c d :
  tc (dep_edge (build_view_to_deps views)) c d ↔ tc (depends_on views) c d.
Proof.
  split; apply tc_weaken; intros a b Hab; apply tc_once;
    by apply dep_edge_build.
Qed.
End graph.

(** ** The resolver on a list of descriptors *)

Section resolver_facts.
Context `{PySet}.
Implicit Types (views out : list view) (v : view) (c d : class_id).

Lemma iterator_runs views :
  loop_runs (build_view_cls_to_view views) (build_view_to_deps views)
            (_sets_of_views_deps_iterator views).
Proof.
  apply deps_loop_runs.
  - by rewrite dom_build_view_to_deps, dom_build_view_cls_to_view.
  - apply size_build_view_to_deps.
Qed.


Lemma topological_sort_cases views :
  _topological_sort_views views =
    if decide (residue views = ∅)
    then inr (concat (yielded (_sets_of_views_deps_iterator views)))
    else inl (CyclicDependencyError (residue views)).
Proof.
  unfold _topological_sort_views.
  destruct (loop_runs_residual _ _ _ (build_view_cls_to_view_wf views)
              (iterator_runs views)) as [_ ->].
  fold (emitted views). fold (residue views). by case_decide.
Qed.

Lemma elem_of_emitted views c : c ∈ emitted views ↔ resolves views c.
Proof.
  unfold emitted.
  rewrite (loop_runs_emitted _ _ _ _ (build_view_cls_to_view_wf views)
             (iterator_runs views)).
  apply resolvable_build.
Qed.

Lemma lookup_residue views v :
  representative views v → ¬ resolves views (__class__ v) →
  residue views !! __class__ v = Some (deps_set v ∖ emitted views).
Proof.
  intros Hr Hnot. unfold residue. rewrite lookup_drop_ordered.
  assert (build_view_to_deps views !! __class__ v = Some (deps_set v)) as ->.
  { apply lookup_build_view_to_deps. eauto. }
  case_decide as Hin; [|done]. by apply elem_of_emitted in Hin.
Qed.

Lemma elem_of_dom_residue views c :
  c ∈ dom (residue views) ↔ c ∈ __class__ <$> views ∧ ¬ resolves views c.
Proof.
  unfold residue. rewrite dom_drop_ordered, elem_of_difference.
  rewrite dom_build_view_to_deps, elem_of_list_to_set.
  by rewrite elem_of_emitted.
Qed.

Lemma topological_sort_inr views out :
  _topological_sort_views views = inr out →
  loop_runs (build_view_cls_to_view views) (build_view_to_deps views)
            (Generated
               (yielded (_sets_of_views_deps_iterator views)) None) ∧
  out = concat (yielded (_sets_of_views_deps_iterator views)) ∧
  residue views = ∅.
Proof.
  intros Hout. pose proof (iterator_runs views) as Hrun.
  rewrite topological_sort_cases in Hout. case_decide as Hres; [|done].
  injection Hout as <-. split_and!; [|done..].
  unfold _topological_sort_views in *.
  destruct (loop_runs_residual _ _ _ (build_view_cls_to_view_wf views)
              Hrun) as [_ Hraised].
  fold (emitted views) in Hraised. fold (residue views) in Hraised.
  rewrite decide_True in Hraised by done.
  destruct (_sets_of_views_deps_iterator views) as [ys rs].
  simpl in *. by subst.
Qed.

Lemma topological_sort_elem_of views out v :
  _topological_sort_views views = inr out →
  v ∈ out ↔ representative views v.
Proof.
  intros Hout. pose proof (iterator_runs views) as Hrun.
  pose proof (build_view_cls_to_view_wf views) as Hwf.
  apply topological_sort_inr in Hout as (_ & -> & Hres). split.
  - intros Hv. destruct (loop_runs_elem_of _ _ _ _ Hwf Hrun Hv) as [Hl _].
    by apply lookup_build_view_cls_to_view in Hl as [? _].
  - intros Hr.
    assert (__class__ v ∈ emitted views) as Hem.
    { destruct (decide (__class__ v ∈ emitted views)) as [|Hn]; [done|].
      exfalso. assert (__class__ v ∈ dom (residue views)) as Hd.
      { unfold residue. rewrite dom_drop_ordered, dom_build_view_to_deps.
        apply elem_of_difference. split; [|done].
        apply elem_of_list_to_set, list_elem_of_fmap_2.
        by apply representative_elem_of. }
      rewrite Hres in Hd. set_solver. }
    apply elem_of_list_to_set, list_elem_of_fmap in Hem as (w & Hc & Hw).
    destruct (loop_runs_elem_of _ _ _ _ Hwf Hrun Hw) as [Hl _].
    apply lookup_build_view_cls_to_view in Hl as [Hrw _].
    by rewrite (representative_inj views v w).
Qed.

Lemma topological_sort_NoDup views out :
  _topological_sort_views views = inr out → NoDup (__class__ <$> out).
Proof.
  intros (_ & -> & _)%topological_sort_inr.
  eapply loop_runs_NoDup;
    [apply build_view_cls_to_view_wf | apply iterator_runs].
Qed.

Lemma topological_sort_Permutation views out :
  _topological_sort_views views = inr out → out ≡ₚ representatives views.
Proof.
  intros Hout. apply NoDup_Permutation.
  - eapply NoDup_fmap_1, topological_sort_NoDup, Hout.
  - eapply NoDup_fmap_1, representatives_NoDup_cls.
  - intros v. rewrite elem_of_representatives.
    by apply topological_sort_elem_of.
Qed.

Lemma topological_sort_order views out vD d :
  _topological_sort_views views = inr out →
  vD ∈ out → d ∈ view_dependencies vD →
  ∃ vE, __class__ vE = d ∧ strictly_before vE vD out.
Proof.
  intros Hout HvD Hd. pose proof (iterator_runs views) as Hrun.
  pose proof (build_view_cls_to_view_wf views) as Hwf.
  pose proof (proj1 (topological_sort_elem_of _ _ _ Hout) HvD) as Hr.
  apply topological_sort_inr in Hout as (_ & -> & _).
  eapply (loop_runs_order _ _ _ (deps_set vD)); [done..| | |done].
  - apply lookup_build_view_to_deps. eauto.
  - by apply elem_of_list_to_set.
Qed.

Lemma resolves_not_on_cycle views c :
  resolves views c → ¬ tc (depends_on views) c c.
Proof.
  rewrite <- resolvable_build, <- tc_dep_edge_build.
  apply resolvable_not_on_cycle.
Qed.

Lemma topological_sort_acyclic_ok views :
  dependencies_closed views → acyclic views →
  ∃ out, _topological_sort_views views = inr out.
Proof.
  intros Hclosed Hacyc. rewrite topological_sort_cases.
  rewrite decide_True; [by eexists|].
  destruct (loop_runs_residual _ _ _ (build_view_cls_to_view_wf views)
              (iterator_runs views)) as [Hstuck _].
  apply acyclic_closed_stuck_empty; [| | |done].
  - intros c d Hcd%dep_edge_build. rewrite dom_build_view_to_deps.
    apply elem_of_list_to_set. by eapply Hclosed.
  - intros c Hc%tc_dep_edge_build. by eapply Hacyc.
  - intros c Hc. fold (emitted views) in Hc. apply elem_of_emitted in Hc.
    apply resolvable_build, resolvable_dom in Hc. done.
Qed.
End resolver_facts.

(** ** Checks on concrete inputs *)

Section checks.
Implicit Types (views : list view) (v : view) (c d : class_id).

Lemma depends_on_elem_of views c d :
  depends_on views c d →
  ∃ v, v ∈ views ∧ __class__ v = c ∧ d ∈ view_dependencies v.
Proof.
  intros (v & Hr & ? & ?). exists v. by apply representative_elem_of in Hr.
Qed.

(** A numbering that decreases along every dependency rules cycles out. *)
Lemma acyclic_by_rank (rank : class_id → nat) views :
  Forall (λ v, Forall (λ d, rank d < rank (__class__ v))
                      (view_dependencies v)) views →
  acyclic views.
Proof.
  intros Hrank.
  assert (∀ c d, tc (depends_on views) c d → rank d < rank c) as Htc.
  { induction 1 as [c d Hcd|c d e Hcd _ IH].
    - apply depends_on_elem_of in Hcd as (v & Hv & <- & Hd).
      rewrite Forall_forall in Hrank. specialize (Hrank v Hv).
      rewrite Forall_forall in Hrank. by apply Hrank.
    - apply depends_on_elem_of in Hcd as (v & Hv & <- & Hd).
      rewrite Forall_forall in Hrank. specialize (Hrank v Hv).
      rewrite Forall_forall in Hrank. specialize (Hrank d Hd). lia. }
  intros c Hc. apply Htc in Hc. lia.
Qed.

Lemma dependencies_closed_check views :
  Forall (λ v, Forall (λ d, d ∈ __class__ <$> views) (view_dependencies v))
         views →
  dependencies_closed views.
Proof.
  intros Hall c d (v & Hv & <- & Hd)%depends_on_elem_of.
  rewrite Forall_forall in Hall. specialize (Hall v Hv).
  rewrite Forall_forall in Hall. by apply Hall.
Qed.

Lemma resolves_elem_of views c : resolves views c → c ∈ __class__ <$> views.
Proof.
  intros [v Hr _]. by apply list_elem_of_fmap_2, representative_elem_of.
Qed.

Lemma resolves_dependency views v d :
  representative views v → d ∈ view_dependencies v →
  resolves views (__class__ v) → resolves views d.
Proof.
  intros Hr Hd Hres. remember (__class__ v) as c eqn:Hc.
  destruct Hres as [w Hw Hdeps].
  rewrite (representative_inj views v w) in Hd by done. by apply Hdeps.
Qed.

Lemma working_map_dangling views v d n :
  representative views v → d ∈ view_dependencies v →
  d ∉ __class__ <$> views →
  ∃ D, working_map n (build_view_to_deps views) !! __class__ v = Some D ∧
       d ∈ D.
Proof.
  intros Hr Hd Hnot.
  assert (∃ D, working_map n (build_view_to_deps views) !! __class__ v
               = Some D ∧ d ∈ D ∧
               d ∉ dom (working_map n (build_view_to_deps views)))
    as (D & ? & ? & _); [|by eauto].
  induction n as [|n (D & HD & HdD & Hdom)]; simpl.
  - exists (list_to_set (view_dependencies v)). split_and!.
    + apply lookup_build_view_to_deps. eauto.
    + by apply elem_of_list_to_set.
    + by rewrite dom_build_view_to_deps, elem_of_list_to_set.
  - set (m := working_map n (build_view_to_deps views)) in *.
    pose proof (ordered_of_subseteq m) as Hsub.
    exists (D ∖ ordered_of m). split_and!.
    + apply lookup_drop_ordered_Some. split; [|by eauto].
      rewrite elem_of_ordered_of, HD. intros [= ->]. set_solver.
    + set_solver.
    + rewrite dom_drop_ordered. set_solver.
Qed.
End checks.

Section determinism.
Context `{PySet}.

Lemma loop_runs_det vmap m g1 g2 :
  loop_runs vmap m g1 → loop_runs vmap m g2 → g1 = g2.
Proof.
  intros Hrun. revert g2.
  induction Hrun as [|m Hord Hm|m vs g Hord Hvs Hrun IH]; intros g2 Hrun2.
  - inversion Hrun2 as [| |? ? ? Hord2]; subst; [done..|].
    by rewrite ordered_of_empty in Hord2.
  - inversion Hrun2; subst; done.
  - inversion Hrun2 as [| |? vs2 g' _ Hvs2 Hrun']; subst.
    + by rewrite ordered_of_empty in Hord.
    + done.
    + assert (vs2 = vs) as -> by congruence. by rewrite (IH g' Hrun').
Qed.
End determinism.

(** ** The resolver: the properties claimed *)

(** C1, as amended.  For a list of descriptors with distinct identities
    whose dependencies all belong to the list and form no cycle,
    [_topological_sort_views] returns a sequence that holds every input
    descriptor exactly once (a permutation of the input), and for every
    descriptor [D] and every dependency [e] of [D] the descriptor of
    identity [e] occurs strictly before [D] in it. *)
Theorem topological_sort_views_sorts `{PySet} (views : list view) :
  NoDup (__class__ <$> views) →
  dependencies_closed views →
  acyclic views →
  ∃ out, _topological_sort_views views = inr out ∧
         out ≡ₚ views ∧
         ∀ D e, D ∈ views → e ∈ view_dependencies D →
                ∃ E, E ∈ views ∧ __class__ E = e ∧ strictly_before E D out.
Proof.
  intros Hnd Hclosed Hacyc.
  destruct (topological_sort_acyclic_ok views Hclosed Hacyc) as [out Hout].
  exists out. split; [done|].
  pose proof (topological_sort_Permutation _ _ Hout) as Hperm.
  rewrite (representatives_id _ Hnd) in Hperm. split; [done|].
  intros D e HD He.
  destruct (topological_sort_order views out D e Hout) as (E & HE & Hbefore);
    [by rewrite Hperm|done|].
  exists E. split_and!; [|done..].
  rewrite <- Hperm. destruct Hbefore as (l1 & l2 & l3 & ->). set_solver.
Qed.

Lemma topological_sort_views_sorts_witness :
  NoDup (__class__ <$> Examples.chain) ∧
  dependencies_closed Examples.chain ∧
  acyclic Examples.chain ∧
  ∃ out, @_topological_sort_views insertion_order Examples.chain = inr out ∧
         out ≡ₚ Examples.chain ∧
         ∀ D e, D ∈ Examples.chain → e ∈ view_dependencies D →
                ∃ E, E ∈ Examples.chain ∧ __class__ E = e ∧
                     strictly_before E D out.
Proof.
  assert (NoDup (__class__ <$> Examples.chain)) as Hnd.
  { by_compute. }
  assert (dependencies_closed Examples.chain) as Hclosed.
  { apply dependencies_closed_check.
    by_compute. }
  assert (acyclic Examples.chain) as Hacyc.
  { apply (acyclic_by_rank (λ c, 4 - Pos.to_nat c)).
    by_compute. }
  split_and!; [done..|].
  apply (@topological_sort_views_sorts insertion_order Examples.chain);
    done.
Defined.

(** C1 as stated fails: a list of two descriptors with distinct
    identities and no cycle, one of which depends on an identity that no
    descriptor of the list has, is acyclic, and yet the call returns no
    sequence, under any iteration order of the sets; it raises
    [CyclicDependencyError]. *)
Lemma topological_sort_views_acyclic_may_raise :
  NoDup (__class__ <$> Examples.dangling) ∧
  acyclic Examples.dangling ∧
  (∀ order : PySet,
     ¬ ∃ out, @_topological_sort_views order Examples.dangling = inr out) ∧
  @_topological_sort_views insertion_order Examples.dangling
    = inl (CyclicDependencyError {[ Examples.A := {[ Examples.X ]} ]}).
Proof.
  split_and!.
  - by_compute.
  - apply (acyclic_by_rank (λ c, 10 - Pos.to_nat c)). by_compute.
  - intros order [out Hout].
    assert (Examples.view_dangling ∈ out) as Hin.
    { apply (topological_sort_elem_of _ _ _ Hout).
      apply elem_of_representatives. by_compute. }
    destruct (topological_sort_order Examples.dangling out
                Examples.view_dangling Examples.X Hout Hin)
      as (E & Hcls & l1 & l2 & l3 & ->); [by_compute|].
    assert (E ∈ Examples.dangling) as HE.
    { apply representative_elem_of.
      apply (topological_sort_elem_of _ _ _ Hout). set_solver. }
    apply elem_of_cons in HE as [->|HE]; [done|].
    by apply list_elem_of_singleton in HE as ->.
  - vm_compute. reflexivity.
Qed.

Example chain_order :
  @_topological_sort_views insertion_order Examples.chain =
    inr [Examples.view_c; Examples.view_b; Examples.view_a].
Proof. vm_compute. reflexivity. Qed.

Lemma tc_first_step {A} (R : relation A) x y : tc R x y → ∃ z, R x z.
Proof. destruct 1; eauto. Qed.

(** C2.  When some identity reaches itself along dependencies,
    [_topological_sort_views] raises [CyclicDependencyError].  The map it
    reports holds every identity that lies on a cycle; its keys are exactly
    the identities of the input that cannot be resolved; and each is mapped
    to those of its dependencies that cannot be resolved, that is, the ones
    still unsatisfied. *)
Theorem topological_sort_views_cycle `{PySet} (views : list view)
    (c : class_id) :
  tc (depends_on views) c c →
  ∃ residual,
    _topological_sort_views views = inl (CyclicDependencyError residual) ∧
    (∀ x, tc (depends_on views) x x → x ∈ dom residual) ∧
    (∀ x, x ∈ dom residual ↔ x ∈ __class__ <$> views ∧ ¬ resolves views x) ∧
    (∀ v, representative views v → __class__ v ∈ dom residual →
          ∃ deps, residual !! __class__ v = Some deps ∧
                  ∀ d, d ∈ deps ↔
                       d ∈ view_dependencies v ∧ ¬ resolves views d).
Proof.
  intros Hcyc.
  assert (∀ x, tc (depends_on views) x x → x ∈ dom (residue views)) as Hcore.
  { intros x Hx. apply elem_of_dom_residue. split.
    - apply tc_first_step in Hx as (y & v & Hr & <- & _).
      by apply list_elem_of_fmap_2, representative_elem_of.
    - intros Hres. by eapply resolves_not_on_cycle. }
  exists (residue views). split_and!.
  - rewrite topological_sort_cases. rewrite decide_False; [done|].
    intros Hemp. specialize (Hcore c Hcyc). rewrite Hemp in Hcore.
    set_solver.
  - done.
  - apply elem_of_dom_residue.
  - intros v Hr [_ Hnot]%elem_of_dom_residue.
    exists (deps_set v ∖ emitted views). split; [by apply lookup_residue|].
    intros d. rewrite elem_of_difference, elem_of_emitted.
    unfold deps_set. by rewrite elem_of_list_to_set.
Qed.

Lemma representative_check (views : list view) (v : view) :
  v ∈ representatives views → representative views v.
Proof. apply elem_of_representatives. Qed.

Lemma topological_sort_views_cycle_witness :
  tc (depends_on Examples.cycle) Examples.A Examples.A ∧
  ∃ residual,
    @_topological_sort_views insertion_order Examples.cycle
      = inl (CyclicDependencyError residual) ∧
    (∀ x, tc (depends_on Examples.cycle) x x → x ∈ dom residual) ∧
    (∀ x, x ∈ dom residual ↔
          x ∈ __class__ <$> Examples.cycle ∧ ¬ resolves Examples.cycle x) ∧
    (∀ v, representative Examples.cycle v → __class__ v ∈ dom residual →
          ∃ deps, residual !! __class__ v = Some deps ∧
                  ∀ d, d ∈ deps ↔
                       d ∈ view_dependencies v ∧
                       ¬ resolves Examples.cycle d).
Proof.
  assert (tc (depends_on Examples.cycle) Examples.A Examples.A) as Hcyc.
  { apply (tc_l _ _ Examples.B); [|apply tc_once].
    - exists Examples.view_a. split_and!; [|done|by_compute].
      apply representative_check. by_compute.
    - exists Examples.view_b_cyclic. split_and!; [|done|by_compute].
      apply representative_check. by_compute. }
  split; [done|].
  apply (@topological_sort_views_cycle insertion_order Examples.cycle
           Examples.A Hcyc).
Defined.

Example cycle_residual :
  @_topological_sort_views insertion_order Examples.cycle =
    inl (CyclicDependencyError
           {[ Examples.A := {[ Examples.B ]}; Examples.B := {[ Examples.A ]} ]}).
Proof. vm_compute. reflexivity. Qed.

(** C7.  When a descriptor depends on an identity that no descriptor of
    the input has, [_topological_sort_views] raises [CyclicDependencyError]:
    the descriptor is never yielded, it is in the working map at the head of
    every pass with that dependency still in its set, and it is in the map
    the error reports, again with that dependency. *)
Theorem topological_sort_views_dangling `{PySet} (views : list view)
    (v : view) (d : class_id) :
  representative views v →
  d ∈ view_dependencies v →
  d ∉ __class__ <$> views →
  ∃ residual deps,
    _topological_sort_views views = inl (CyclicDependencyError residual) ∧
    residual !! __class__ v = Some deps ∧ d ∈ deps ∧
    (v ∉ concat (yielded (_sets_of_views_deps_iterator views))) ∧
    ∀ n, ∃ deps_n,
      working_map n (build_view_to_deps views) !! __class__ v = Some deps_n ∧
      d ∈ deps_n.
Proof.
  intros Hr Hd Hnot.
  assert (¬ resolves views d) as Hnd by by intros ?%resolves_elem_of.
  assert (¬ resolves views (__class__ v)) as Hnv.
  { intros Hres. by apply Hnd, (resolves_dependency views v). }
  pose proof (lookup_residue views v Hr Hnv) as Hlook.
  exists (residue views), (deps_set v ∖ emitted views). split_and!.
  - rewrite topological_sort_cases. rewrite decide_False; [done|].
    intros Hemp. by rewrite Hemp in Hlook.
  - done.
  - apply elem_of_difference. rewrite elem_of_emitted. split; [|done].
    by apply elem_of_list_to_set.
  - intros Hin. apply Hnv, elem_of_emitted.
    by apply elem_of_list_to_set, list_elem_of_fmap_2.
  - intros n. by apply working_map_dangling.
Qed.

Lemma topological_sort_views_dangling_witness :
  representative Examples.dangling Examples.view_dangling ∧
  Examples.X ∈ view_dependencies Examples.view_dangling ∧
  (Examples.X ∉ __class__ <$> Examples.dangling) ∧
  acyclic Examples.dangling ∧
  ∃ residual deps,
    @_topological_sort_views insertion_order Examples.dangling
      = inl (CyclicDependencyError residual) ∧
    residual !! __class__ Examples.view_dangling = Some deps ∧
    Examples.X ∈ deps ∧
    (Examples.view_dangling ∉
       concat (yielded (@_sets_of_views_deps_iterator insertion_order
                          Examples.dangling))) ∧
    ∀ n, ∃ deps_n,
      working_map n (build_view_to_deps Examples.dangling)
        !! __class__ Examples.view_dangling = Some deps_n ∧
      Examples.X ∈ deps_n.
Proof.
  assert (representative Examples.dangling Examples.view_dangling) as Hr.
  { apply representative_check. by_compute. }
  assert (Examples.X ∈ view_dependencies Examples.view_dangling) as Hd
    by by_compute.
  assert (Examples.X ∉ __class__ <$> Examples.dangling) as Hnot by by_compute.
  split_and!; [done..| |].
  - apply (acyclic_by_rank (λ c, 10 - Pos.to_nat c)). by_compute.
  - apply (@topological_sort_views_dangling insertion_order Examples.dangling
             Examples.view_dangling Examples.X Hr Hd Hnot).
Defined.

Example dangling_residual :
  @_topological_sort_views insertion_order Examples.dangling =
    inl (CyclicDependencyError {[ Examples.A := {[ Examples.X ]} ]}).
Proof. vm_compute. reflexivity. Qed.

(** C9.  The batch loop of [_sets_of_views_deps_iterator] ends within
    [length views] passes that yield a batch: the bound of the model is
    never hit, at most [length views] batches are yielded, none is empty,
    and a larger bound changes nothing.  Every pass that yields removes at
    least one entry from the working map, and the loop stops, yielding
    nothing more, at the first pass where no dependency set is empty. *)
Theorem sets_of_views_deps_iterator_terminates `{PySet} (views : list view) :
  let g := _sets_of_views_deps_iterator views in
  raised g ≠ Some OutOfFuel ∧
  length (yielded g) ≤ length views ∧
  Forall (λ batch, batch ≠ []) (yielded g) ∧
  (∀ fuel, length views ≤ fuel →
     deps_loop fuel (build_view_cls_to_view views) (build_view_to_deps views)
       = g) ∧
  (∀ m, ordered_of m ≠ ∅ → size (drop_ordered (ordered_of m) m) < size m) ∧
  (∀ fuel vmap m, ordered_of m = ∅ →
     yielded (deps_loop fuel vmap m) = [] ∧
     raised (deps_loop fuel vmap m) ≠ Some OutOfFuel).
Proof.
  intros g. pose proof (iterator_runs views) as Hrun. fold g in Hrun.
  pose proof (build_view_cls_to_view_wf views) as Hwf.
  destruct (loop_runs_length _ _ _ Hwf Hrun) as [Hlen Hne].
  pose proof (size_build_view_to_deps views) as Hsize.
  split_and!.
  - destruct (loop_runs_residual _ _ _ Hwf Hrun) as [_ ->].
    by case_decide.
  - lia.
  - done.
  - intros fuel Hfuel. eapply loop_runs_det; [|exact Hrun].
    apply deps_loop_runs; [|lia].
    by rewrite dom_build_view_to_deps, dom_build_view_cls_to_view.
  - apply size_drop_ordered.
  - intros fuel vmap m Hord.
    destruct fuel; simpl; rewrite decide_True by done; by case_decide.
Qed.

(** C10.  The empty input resolves to the empty sequence.  Whenever
    [_topological_sort_views] returns, no identity occurs twice in the
    result, the descriptors in it are exactly the last instance of each
    class of the input, and so the result is a permutation of these
    representatives: instances sharing a class are collapsed to the last
    one. *)
Theorem topological_sort_views_identities_once `{PySet} (views : list view) :
  _topological_sort_views [] = inr [] ∧
  ∀ out, _topological_sort_views views = inr out →
         NoDup (__class__ <$> out) ∧
         (∀ v, v ∈ out ↔ representative views v) ∧
         out ≡ₚ representatives views.
Proof.
  split; [done|]. intros out Hout. split_and!.
  - by eapply topological_sort_NoDup.
  - intros v. by apply topological_sort_elem_of.
  - by apply topological_sort_Permutation.
Qed.

Lemma topological_sort_views_identities_once_witness :
  @_topological_sort_views insertion_order Examples.doubled
    = inr [Examples.view_c'; Examples.view_b] ∧
  NoDup (__class__ <$> [Examples.view_c'; Examples.view_b]) ∧
  (∀ v, v ∈ [Examples.view_c'; Examples.view_b] ↔
        representative Examples.doubled v) ∧
  [Examples.view_c'; Examples.view_b] ≡ₚ representatives Examples.doubled.
Proof.
  assert (@_topological_sort_views insertion_order Examples.doubled
          = inr [Examples.view_c'; Examples.view_b]) as Hout
    by (vm_compute; reflexivity).
  split; [done|].
  apply (proj2 (@topological_sort_views_identities_once insertion_order
                  Examples.doubled) _ Hout).
Defined.

(** ** Computations with events *)

Section action.
Context {A B : Type}.
Implicit Types (x : action A) (k : A → action B) (t : list event).

Lemma bind_ok x k t a :
  x = (t, inr a) → x ≫= k = (t ++ (k a).1, (k a).2).
Proof. intros ->. unfold mbind, action_bind. by destruct (k a). Qed.

Lemma bind_inr x k t b :
  x ≫= k = (t, inr b) →
  ∃ t1 a t2, x = (t1, inr a) ∧ k a = (t2, inr b) ∧ t = t1 ++ t2.
Proof.
  destruct x as [t1 [e|a]]; [done|]. rewrite (bind_ok _ _ t1 a) by done.
  destruct (k a) as [t2 r] eqn:Hk. simpl. intros [= <- ->]. eauto 6.
Qed.

Lemma bind_trace_Forall (P : event → Prop) x k :
  Forall P x.1 → (∀ a, Forall P (k a).1) → Forall P (x ≫= k).1.
Proof.
  intros Hx Hk. destruct x as [t1 [e|a]]; [done|].
  rewrite (bind_ok _ _ t1 a) by done. simpl. apply Forall_app. eauto.
Qed.
End action.

Section for_each.
Context {A : Type}.
Implicit Types (l : list A) (body : A → action unit).

Lemma for_each_inr l body t u :
  for_each l body = (t, inr u) →
  Forall (λ x, (body x).2 = inr tt) l ∧
  t = concat ((λ x, (body x).1) <$> l).
Proof.
  revert t. induction l as [|x l IH]; intros t; simpl.
  - intros [= <-]. by split.
  - intros (t1 & [] & t2 & Hx & Hl & ->)%bind_inr.
    destruct (IH _ Hl) as [Hall ->]. rewrite Hx. split; [|done].
    constructor; [by rewrite Hx | done].
Qed.

Lemma for_each_fail l1 x l2 body e :
  Forall (λ x, (body x).2 = inr tt) l1 →
  (body x).2 = inl e →
  for_each (l1 ++ x :: l2) body =
    (concat ((λ x, (body x).1) <$> l1) ++ (body x).1, inl e).
Proof.
  intros Hall Hx. induction Hall as [|y l1 Hy _ IH]; simpl.
  - destruct (body x) as [t r]. simpl in Hx. by subst r.
  - destruct (body y) as [t1 r] eqn:Hb. simpl in Hy. subst r.
    erewrite bind_ok by done. rewrite IH. simpl. by rewrite app_assoc.
Qed.

Lemma for_each_trace_Forall (P : event → Prop) l body :
  (∀ x, Forall P (body x).1) → Forall P (for_each l body).1.
Proof.
  intros Hbody. induction l as [|x l IH]; simpl; [constructor|].
  by apply bind_trace_Forall.
Qed.
End for_each.

Section statements.
Lemma statements_app t1 t2 :
  statements (t1 ++ t2) = statements t1 ++ statements t2.
Proof. apply omap_app. Qed.


Lemma concat_singletons {A B} (f : A → B) l :
  concat ((λ x, [f x]) <$> l) = f <$> l.
Proof. induction l; simpl; [done|]. by f_equal. Qed.

Lemma concat_guarded {A B} (p : A → bool) (f : A → B) l :
  concat ((λ x, if p x then [] else [f x]) <$> l) =
    f <$> filter (λ x, p x = false) l.
Proof.
  induction l as [|x l IH]; [done|].
  rewrite fmap_cons, filter_cons. cbn [concat]. rewrite IH.
  destruct (p x) eqn:Hp.
  - by rewrite decide_False by done.
  - by rewrite decide_True by done.
Qed.
End statements.

(** ** sync_views *)

Section sync_facts.
Context `{PySet} `{Surroundings}.
Implicit Types (grantee : option string) (db : database).
Implicit Types (views out : list view) (t : list event).


Lemma execute_trace db s p : (execute db s p).1 = [Execute db s p].
Proof. unfold execute. by destruct (execute_fails db s). Qed.

Lemma execute_inr db s p t u :
  execute db s p = (t, inr u) → t = [Execute db s p].
Proof. intros Hex. by rewrite <- (execute_trace db s p), Hex. Qed.

Lemma create_trace db v :
  (emit (Log "" "generating view %s" [ArgStr (name v)]);;
   execute db (sql (creation_sql v)) (Some (params (creation_sql v)))).1
  = [Log "" "generating view %s" [ArgStr (name v)];
     Execute db (sql (creation_sql v)) (Some (params (creation_sql v)))].
Proof.
  erewrite bind_ok by done. simpl. by rewrite execute_trace.
Qed.


Lemma rebuild_schema_no_transaction_event grantee db out :
  Forall (λ e, transaction_event e = false)
         (rebuild_schema grantee db out).1.
Proof.
  assert (∀ s p, Forall (λ e, transaction_event e = false)
                        (execute db s p).1) as Hex.
  { intros s p. rewrite execute_trace. by repeat constructor. }
  unfold rebuild_schema. apply bind_trace_Forall; [done|]. intros _.
  apply bind_trace_Forall.
  { apply for_each_trace_Forall. intros v. rewrite create_trace.
    by repeat constructor. }
  intros _. apply bind_trace_Forall.
  { case_decide; [done | constructor]. }
  intros _. apply for_each_trace_Forall. intros v.
  destruct (_ || _); [constructor | done].
Qed.

Lemma sync_database_unresolved grantee db views e :
  _topological_sort_views views = inl e →
  sync_database grantee (db, views) = ([], inl e).
Proof. intros Hres. unfold sync_database. by rewrite Hres. Qed.

Lemma sync_database_resolved grantee db views out :
  _topological_sort_views views = inr out →
  sync_database grantee (db, views) =
    match rebuild_schema grantee db out with
    | (t, inr _) =>
        (CursorEnter db :: AtomicEnter :: t ++
           [AtomicCommit; CursorExit db;
            Log "" "Successfully sync'd %s views for %s database"
                [ArgInt (length out); ArgStr db]],
         inr tt)
    | (t, inl e) =>
        (CursorEnter db :: AtomicEnter :: t ++
           [AtomicRollback; CursorExit db], inl e)
    end.
Proof.
  intros Hres. unfold sync_database. rewrite Hres.
  erewrite bind_ok by done. simpl.
  destruct (rebuild_schema grantee db out) as [t [e|[]]]; simpl.
  - by rewrite <- app_assoc.
  - by rewrite <- !app_assoc.
Qed.

Lemma sync_database_inr grantee db views t u :
  sync_database grantee (db, views) = (t, inr u) →
  ∃ out body,
    _topological_sort_views views = inr out ∧
    rebuild_schema grantee db out = (body, inr tt) ∧
    t = CursorEnter db :: AtomicEnter :: body ++
          [AtomicCommit; CursorExit db;
           Log "" "Successfully sync'd %s views for %s database"
               [ArgInt (length out); ArgStr db]].
Proof.
  destruct (_topological_sort_views views) as [e|out] eqn:Hres.
  - by rewrite (sync_database_unresolved _ _ _ e).
  - rewrite (sync_database_resolved _ _ _ out) by done.
    destruct (rebuild_schema grantee db out) as [body [e|[]]] eqn:Hbody;
      [done|].
    intros [= <-]. eauto.
Qed.

Lemma sync_views_unfold grantee (registry : list (database * list view)) :
  sync_views grantee registry =
    match for_each registry (sync_database grantee) with
    | (t, inr _) =>
        (Log "sync" "Syncing view registry for databases %s"
             [ArgStrs (registry.*1)] :: t ++
           [Log "" "Successfully sync'd %s views"
                [ArgInt (length registry)]],
         inr PyNone)
    | (t, inl e) =>
        (Log "sync" "Syncing view registry for databases %s"
             [ArgStrs (registry.*1)] :: t, inl e)
    end.
Proof.
  unfold sync_views. erewrite bind_ok by done. simpl.
  destruct (for_each registry (sync_database grantee)) as [t [e|[]]];
    simpl; done.
Qed.
End sync_facts.

(** ** sync_views: the properties claimed *)

Lemma elem_of_concat {A} (x : A) (ls : list (list A)) :
  x ∈ concat ls ↔ ∃ l, l ∈ ls ∧ x ∈ l.
Proof.
  induction ls as [|l ls IH]; simpl.
  - split; [by intros ?%elem_of_nil|]. by intros (? & ?%elem_of_nil & _).
  - rewrite elem_of_app, IH. setoid_rewrite elem_of_cons. naive_solver.
Qed.


(** C3, as amended.  [sync_views] has no return statement: when it ends
    normally its value is [None].  The count of views is reported in the log
    instead: for every database of the registry the message "Successfully
    sync'd %s views for %s database" is logged with the length of the
    resolved sequence, which is the number of distinct classes among the
    descriptors of that database, and the number of descriptors when no two
    share a class. *)
Theorem sync_views_reports_count `{PySet} `{Surroundings}
    (grantee : option string) (registry : list (database * list view))
    (t : list event) (result : py_value) :
  sync_views grantee registry = (t, inr result) →
  result = PyNone ∧
  ∀ db views, (db, views) ∈ registry →
    ∃ out, _topological_sort_views views = inr out ∧
           length out = length (representatives views) ∧
           (NoDup (__class__ <$> views) → length out = length views) ∧
           Log "" "Successfully sync'd %s views for %s database"
               [ArgInt (length out); ArgStr db] ∈ t.
Proof.
  rewrite sync_views_unfold.
  destruct (for_each registry (sync_database grantee)) as [t' [e|[]]] eqn:Hloop;
    [done|].
  intros [= <- <-]. split; [done|]. intros db views Hin.
  apply for_each_inr in Hloop as [Hall ->].
  rewrite Forall_forall in Hall. specialize (Hall _ Hin).
  destruct (sync_database grantee (db, views)) as [td r] eqn:Hdb.
  simpl in Hall. subst r.
  pose proof Hdb as Hdb'.
  apply sync_database_inr in Hdb' as (out & body & Hout & _ & Htd).
  exists out. pose proof (topological_sort_Permutation _ _ Hout) as Hperm.
  split_and!; [done|by rewrite Hperm| |].
  - intros Hnd. by rewrite Hperm, representatives_id.
  - apply elem_of_cons. right. apply elem_of_app. left.
    apply elem_of_concat. exists td. split.
    + apply list_elem_of_fmap. exists (db, views). by rewrite Hdb.
    + rewrite Htd. set_solver.
Qed.

Lemma sync_views_reports_count_witness :
  ∃ t,
    @sync_views insertion_order SyncExamples.accepting (Some "reader")
                SyncExamples.registry_one = (t, inr PyNone) ∧
    PyNone = PyNone ∧
    ∀ db views, (db, views) ∈ SyncExamples.registry_one →
      ∃ out, @_topological_sort_views insertion_order views = inr out ∧
             length out = length (representatives views) ∧
             (NoDup (__class__ <$> views) → length out = length views) ∧
             Log "" "Successfully sync'd %s views for %s database"
                 [ArgInt (length out); ArgStr db] ∈ t.
Proof.
  eexists. split; [vm_compute; reflexivity|].
  apply (@sync_views_reports_count insertion_order SyncExamples.accepting
           (Some "reader") SyncExamples.registry_one).
  vm_compute. reflexivity.
Defined.

(** C3 as stated fails: on a registry with one database and three
    descriptors, which resolve, the call evaluates to [None] and not to the
    count 3. *)
Lemma sync_views_returns_no_count :
  let run := @sync_views insertion_order SyncExamples.accepting
                         (Some "reader") SyncExamples.registry_one in
  @_topological_sort_views insertion_order Examples.chain
    = inr [Examples.view_c; Examples.view_b; Examples.view_a] ∧
  run.2 = inr PyNone ∧
  run.2 ≠ inr (PyInt 3).
Proof. vm_compute. split_and!; [reflexivity..|discriminate]. Qed.

(** C4, as amended.  The databases of the registry are processed in
    order, each with its own cursor and its own [transaction.atomic] block.
    When one of them fails, in resolution or in the execution of a
    statement, the exception leaves [sync_views]: the databases before it
    have run and committed their transaction and logged their count, the
    failing one either emitted nothing (resolution failed) or rolled its own
    transaction back, and nothing is done for the databases after it. *)
Theorem sync_views_stops_at_first_failure `{PySet} `{Surroundings}
    (grantee : option string) (done : list (database * list view))
    (item : database * list view) (rest : list (database * list view))
    (e : exn) :
  Forall (λ it, (sync_database grantee it).2 = inr tt) done →
  (sync_database grantee item).2 = inl e →
  sync_views grantee (done ++ item :: rest) =
    (Log "sync" "Syncing view registry for databases %s"
         [ArgStrs ((done ++ item :: rest).*1)] ::
       concat ((λ it, (sync_database grantee it).1) <$> done) ++
       (sync_database grantee item).1,
     inl e) ∧
  Forall (λ it, ∃ t n,
            (sync_database grantee it).1 =
              t ++ [Log "" "Successfully sync'd %s views for %s database"
                        [ArgInt n; ArgStr it.1]] ∧
            own_transaction it.1 AtomicCommit t) done ∧
  ((sync_database grantee item).1 = [] ∨
   own_transaction item.1 AtomicRollback (sync_database grantee item).1).
Proof.
  intros Hdone Hitem. split_and!.
  - rewrite sync_views_unfold.
    by rewrite (for_each_fail done item rest _ e).
  - eapply Forall_impl; [exact Hdone|]. intros [db views] Hok.
    destruct (sync_database grantee (db, views)) as [t r] eqn:Hdb.
    simpl in Hok. subst r.
    apply sync_database_inr in Hdb as (out & body & Hout & Hbody & ->).
    exists (CursorEnter db :: AtomicEnter :: body ++
              [AtomicCommit; CursorExit db]), (length out).
    split; [simpl; by rewrite <- app_assoc|].
    exists body. split; [done|].
    pose proof (rebuild_schema_no_transaction_event grantee db out) as Hno.
    by rewrite Hbody in Hno.
  - destruct item as [db views].
    destruct (_topological_sort_views views) as [e'|out] eqn:Hres.
    + left. by rewrite (sync_database_unresolved _ _ _ e').
    + right. rewrite (sync_database_resolved _ _ _ out) in * by done.
      pose proof (rebuild_schema_no_transaction_event grantee db out) as Hno.
      destruct (rebuild_schema grantee db out) as [body [e'|[]]]; [|done].
      by exists body.
Qed.

Lemma sync_views_stops_at_first_failure_witness :
  Forall (λ it, (@sync_database insertion_order SyncExamples.refusing
                   None it).2 = inr tt)
         [("first", [Examples.view_c])] ∧
  (@sync_database insertion_order SyncExamples.refusing None
     ("second", Examples.chain)).2
    = inl (ExecutionError "second" (sql (creation_sql Examples.view_b))) ∧
  @sync_views insertion_order SyncExamples.refusing None
     ([("first", [Examples.view_c])] ++
      ("second", Examples.chain) :: [("third", [Examples.view_c])]) =
    (Log "sync" "Syncing view registry for databases %s"
         [ArgStrs ["first"; "second"; "third"]] ::
       concat ((λ it, (@sync_database insertion_order SyncExamples.refusing
                         None it).1) <$> [("first", [Examples.view_c])]) ++
       (@sync_database insertion_order SyncExamples.refusing None
          ("second", Examples.chain)).1,
     inl (ExecutionError "second" (sql (creation_sql Examples.view_b)))) ∧
  Forall (λ it, ∃ t n,
            (@sync_database insertion_order SyncExamples.refusing None it).1 =
              t ++ [Log "" "Successfully sync'd %s views for %s database"
                        [ArgInt n; ArgStr it.1]] ∧
            own_transaction it.1 AtomicCommit t)
         [("first", [Examples.view_c])] ∧
  ((@sync_database insertion_order SyncExamples.refusing None
      ("second", Examples.chain)).1 = [] ∨
   own_transaction "second" AtomicRollback
     (@sync_database insertion_order SyncExamples.refusing None
        ("second", Examples.chain)).1).
Proof.
  assert (Forall (λ it, (@sync_database insertion_order SyncExamples.refusing
                           None it).2 = inr tt)
                 [("first", [Examples.view_c])]) as Hdone.
  { repeat constructor. }
  assert ((@sync_database insertion_order SyncExamples.refusing None
             ("second", Examples.chain)).2
          = inl (ExecutionError "second"
                   (sql (creation_sql Examples.view_b)))) as Hfail.
  { vm_compute. reflexivity. }
  split; [done|]. split; [done|].
  apply (@sync_views_stops_at_first_failure insertion_order
           SyncExamples.refusing None [("first", [Examples.view_c])]
           ("second", Examples.chain) [("third", [Examples.view_c])]
           _ Hdone Hfail).
Defined.

(** C4 as stated fails: with a cyclic graph on the first database and a
    graph that resolves on the second, the run ends with the cycle error
    after its first log line; no cursor is opened on the second database and
    no result is logged for it. *)
Lemma sync_views_failure_blocks_others :
  let run := @sync_views insertion_order SyncExamples.accepting None
                         SyncExamples.registry_two in
  (∃ residual, run.2 = inl (CyclicDependencyError residual)) ∧
  (∃ out, @_topological_sort_views insertion_order Examples.chain = inr out) ∧
  run.1 = [Log "sync" "Syncing view registry for databases %s"
               [ArgStrs ["first"; "second"]]] ∧
  (CursorEnter "second" ∉ run.1) ∧
  ¬ ∃ n, Log "" "Successfully sync'd %s views for %s database"
             [ArgInt n; ArgStr "second"] ∈ run.1.
Proof.
  intros run.
  assert (run.1 = [Log "sync" "Syncing view registry for databases %s"
                       [ArgStrs ["first"; "second"]]]) as Hrun
    by (vm_compute; reflexivity).
  split_and!.
  - eexists. vm_compute. reflexivity.
  - eexists. vm_compute. reflexivity.
  - done.
  - rewrite Hrun. by intros [=]%list_elem_of_singleton.
  - rewrite Hrun. by intros [n [=]%list_elem_of_singleton].
Qed.

(** C5.  When resolution of a database's descriptors raises
    [CyclicDependencyError], the pass of [sync_views] for that database
    emits nothing at all before the exception goes on: no cursor, no
    transaction, no statement.  With that database first in the registry
    the whole call emits only its opening log line, and no event of it
    reaches a database. *)
Theorem sync_views_cycle_no_side_effects `{PySet} `{Surroundings}
    (grantee : option string) (db : database) (views : list view)
    (residual : gmap class_id (gset class_id)) :
  _topological_sort_views views = inl (CyclicDependencyError residual) →
  sync_database grantee (db, views)
    = ([], inl (CyclicDependencyError residual)) ∧
  ∀ rest,
    sync_views grantee ((db, views) :: rest) =
      ([Log "sync" "Syncing view registry for databases %s"
            [ArgStrs (db :: rest.*1)]],
       inl (CyclicDependencyError residual)) ∧
    filter (λ e, database_event e = true)
           (sync_views grantee ((db, views) :: rest)).1 = [].
Proof.
  intros Hres.
  pose proof (sync_database_unresolved grantee db views _ Hres) as Hdb.
  split; [done|]. intros rest.
  assert (sync_views grantee ((db, views) :: rest) =
          ([Log "sync" "Syncing view registry for databases %s"
                [ArgStrs (db :: rest.*1)]],
           inl (CyclicDependencyError residual))) as ->.
  { rewrite sync_views_unfold.
    rewrite (for_each_fail [] (db, views) rest _
               (CyclicDependencyError residual)); [|done|by rewrite Hdb].
    by rewrite Hdb. }
  done.
Qed.

Lemma sync_views_cycle_no_side_effects_witness :
  @_topological_sort_views insertion_order Examples.cycle
    = inl (CyclicDependencyError
             {[ Examples.A := {[ Examples.B ]};
                Examples.B := {[ Examples.A ]} ]}) ∧
  @sync_database insertion_order SyncExamples.accepting (Some "reader")
                 ("default", Examples.cycle)
    = ([], inl (CyclicDependencyError
                  {[ Examples.A := {[ Examples.B ]};
                     Examples.B := {[ Examples.A ]} ]})) ∧
  ∀ rest,
    @sync_views insertion_order SyncExamples.accepting (Some "reader")
                (("default", Examples.cycle) :: rest) =
      ([Log "sync" "Syncing view registry for databases %s"
            [ArgStrs ("default" :: rest.*1)]],
       inl (CyclicDependencyError
              {[ Examples.A := {[ Examples.B ]};
                 Examples.B := {[ Examples.A ]} ]})) ∧
    filter (λ e, database_event e = true)
           (@sync_views insertion_order SyncExamples.accepting (Some "reader")
                        (("default", Examples.cycle) :: rest)).1 = [].
Proof.
  assert (@_topological_sort_views insertion_order Examples.cycle
          = inl (CyclicDependencyError
                   {[ Examples.A := {[ Examples.B ]};
                      Examples.B := {[ Examples.A ]} ]})) as Hres
    by (vm_compute; reflexivity).
  split; [done|].
  apply (@sync_views_cycle_no_side_effects insertion_order
           SyncExamples.accepting (Some "reader") "default" Examples.cycle
           _ Hres).
Defined.



Example chain_grants :
  statements (@sync_database insertion_order SyncExamples.accepting
                             (Some "reader") ("default", Examples.chain)).1 =
    ["DROP SCHEMA IF EXISTS views CASCADE; CREATE SCHEMA views;";
     "CREATE VIEW v AS SELECT 1";
     "CREATE VIEW v AS SELECT * FROM c";
     "CREATE VIEW v AS SELECT * FROM b";
     "GRANT USAGE ON SCHEMA views TO reader;";
     "GRANT SELECT ON views.b TO reader;";
     "GRANT SELECT ON views.a TO reader;"].
Proof. vm_compute. reflexivity. Qed.

(** ** The resolver on a store of objects *)

Section preserves.
Implicit Types (h : heap) (l : loc).

Lemma preserves_refl h : preserves h h.
Proof. by intros l o. Qed.

Lemma preserves_trans h1 h2 h3 :
  preserves h1 h2 → preserves h2 h3 → preserves h1 h3.
Proof. intros H12 H23 l o Hl. by apply H23, H12. Qed.

Lemma preserves_insert_fresh h o : preserves h (<[fresh (dom h) := o]> h).
Proof.
  intros l o' Hl. rewrite lookup_insert_ne; [done|].
  intros <-. apply (is_fresh (dom h)). apply elem_of_dom. eauto.
Qed.

Lemma preserves_dom h h' : preserves h h' → dom h ⊆ dom h'.
Proof.
  intros Hp l [o Hl]%elem_of_dom. apply elem_of_dom. exists o. by apply Hp.
Qed.

Lemma preserves_read_list h h' l items :
  preserves h h' → read_list h l = Some items → read_list h' l = Some items.
Proof.
  unfold read_list. intros Hp.
  destruct (h !! l) as [o|] eqn:Hl; [|done]. by rewrite (Hp _ _ Hl).
Qed.

Lemma preserves_read_class_seq h h' l cs :
  preserves h h' →
  read_class_seq h l = Some cs → read_class_seq h' l = Some cs.
Proof.
  unfold read_class_seq. intros Hp.
  destruct (h !! l) as [o|] eqn:Hl; [|done]. by rewrite (Hp _ _ Hl).
Qed.

Lemma preserves_read_class_set h h' l s :
  preserves h h' →
  read_class_set h l = Some s → read_class_set h' l = Some s.
Proof.
  unfold read_class_set. intros Hp.
  destruct (h !! l) as [o|] eqn:Hl; [|done]. by rewrite (Hp _ _ Hl).
Qed.

Lemma preserves_read_view_set h h' l items :
  preserves h h' →
  read_view_set h l = Some items → read_view_set h' l = Some items.
Proof.
  unfold read_view_set. intros Hp.
  destruct (h !! l) as [o|] eqn:Hl; [|done]. by rewrite (Hp _ _ Hl).
Qed.

Lemma preserves_read_view_dict h h' l d :
  preserves h h' →
  read_view_dict h l = Some d → read_view_dict h' l = Some d.
Proof.
  unfold read_view_dict. intros Hp.
  destruct (h !! l) as [o|] eqn:Hl; [|done]. by rewrite (Hp _ _ Hl).
Qed.

Lemma preserves_read_view h h' l v :
  preserves h h' → read_view h l = Some v → read_view h' l = Some v.
Proof.
  unfold read_view. intros Hp.
  destruct (h !! l) as [o|] eqn:Hl; [|done]. rewrite (Hp _ _ Hl).
  destruct o; try done.
  destruct (read_class_seq h dependencies) as [cs|] eqn:Hcs; [|done].
  by rewrite (preserves_read_class_seq _ _ _ _ Hp Hcs).
Qed.
End preserves.

Section extending.
Context {A B : Type}.

Lemma extending_ret (a : A) : extending (mret a : heap_action A).
Proof. intros h. apply preserves_refl. Qed.

Lemma extending_raise (e : exn) : extending (heap_raise e : heap_action A).
Proof. intros h. apply preserves_refl. Qed.

Lemma extending_load (read : heap → loc → option A) l :
  extending (load read l).
Proof. intros h. apply preserves_refl. Qed.

Lemma extending_load_all (read : heap → loc → option A) ls :
  extending (load_all read ls).
Proof. intros h. apply preserves_refl. Qed.

Lemma extending_bind (x : heap_action A) (k : A → heap_action B) :
  extending x → (∀ a, extending (k a)) → extending (x ≫= k).
Proof.
  intros Hx Hk h. unfold mbind, heap_action_bind.
  specialize (Hx h). destruct (x h) as [h' [e|a]]; [done|].
  eapply preserves_trans; [done|]. apply Hk.
Qed.
End extending.

Lemma extending_alloc o : extending (alloc o).
Proof. intros h. apply preserves_insert_fresh. Qed.

Lemma extending_alloc_sets entries d : extending (alloc_sets entries d).
Proof.
  revert d. induction entries as [|[k s] entries IH]; intros d; simpl.
  - apply extending_ret.
  - apply extending_bind; [apply extending_alloc|]. intros l. apply IH.
Qed.

Lemma extending_alloc_deps_dict entries :
  extending (alloc_deps_dict entries).
Proof.
  apply extending_bind; [apply extending_alloc_sets|].
  intros d. apply extending_alloc.
Qed.

Create HintDb extending.
#[export] Hint Resolve extending_ret extending_raise extending_load
  extending_load_all extending_alloc extending_alloc_sets
  extending_alloc_deps_dict : extending.

Ltac extending_step :=
  first [ apply extending_bind; [|intros ?]
        | progress eauto with extending
        | case_decide
        | case_match ].

Section heap_resolver_extends.
Context `{PySet}.

Lemma extending_heap_deps_loop fuel view_cls_to_view view_to_deps :
  extending (heap_deps_loop fuel view_cls_to_view view_to_deps).
Proof.
  revert view_to_deps. induction fuel as [|fuel IH]; intros view_to_deps;
    simpl; repeat extending_step.
Qed.

Lemma extending_heap_iterator_setup views :
  extending (heap_iterator_setup views).
Proof. unfold heap_iterator_setup. repeat extending_step. Qed.

Lemma extending_heap_sets_of_views_deps_iterator views :
  extending (heap_sets_of_views_deps_iterator views).
Proof.
  unfold heap_sets_of_views_deps_iterator.
  apply extending_bind; [apply extending_heap_iterator_setup|].
  intros [[views' vd] dd]. apply extending_bind; [eauto with extending|].
  intros items. apply extending_heap_deps_loop.
Qed.

Lemma extending_heap_topological_sort_views list_of_views :
  extending (heap_topological_sort_views list_of_views).
Proof.
  unfold heap_topological_sort_views.
  apply extending_bind;
    [apply extending_heap_sets_of_views_deps_iterator|].
  intros g. repeat extending_step.
Qed.
End heap_resolver_extends.

Section relations.
Implicit Types (h : heap) (l : loc).

Lemma view_at_preserves h h' l v :
  preserves h h' → view_at h l v → view_at h' l v.
Proof. apply preserves_read_view. Qed.

Lemma views_at_preserves h h' d m :
  preserves h h' → views_at h d m → views_at h' d m.
Proof.
  intros Hp Hd c. destruct (Hd c); constructor.
  by eapply view_at_preserves.
Qed.

Lemma sets_at_preserves h h' d m :
  preserves h h' → sets_at h d m → sets_at h' d m.
Proof.
  intros Hp Hd c. destruct (Hd c); constructor.
  by eapply preserves_read_class_set.
Qed.

Lemma deps_dict_at_preserves h h' l m :
  preserves h h' → deps_dict_at h l m → deps_dict_at h' l m.
Proof.
  intros Hp (d & Hl & Hd). exists d. split; [by apply Hp|].
  by eapply sets_at_preserves.
Qed.

Lemma batch_at_preserves h h' l vs :
  preserves h h' → batch_at h l vs → batch_at h' l vs.
Proof.
  intros Hp (refs & Hl & Hrefs). exists refs.
  split; [by eapply preserves_read_view_set|].
  eapply Forall2_impl; [done|]. intros ? ?. by apply view_at_preserves.
Qed.

Lemma read_deps_dict_at h l m :
  deps_dict_at h l m → read_deps_dict h l = Some m.
Proof.
  intros (d & Hl & Hd). unfold read_deps_dict. rewrite Hl. f_equal.
  apply map_eq. intros c. rewrite lookup_omap.
  destruct (Hd c) as [l' s Hs|]; simpl; done.
Qed.

Lemma read_all_Forall2 {A} (read : heap → loc → option A) h ls xs :
  Forall2 (λ l x, read h l = Some x) ls xs → read_all read h ls = inr xs.
Proof. induction 1 as [|l x ls xs Hl _ IH]; simpl; [done|]. by rewrite Hl, IH. Qed.

Lemma Forall2_omap_lookup {A B} (f : A → option B) (P : B → A → Prop) xs :
  (∀ x, x ∈ xs → ∃ y, f x = Some y ∧ P y x) → Forall2 P (omap f xs) xs.
Proof.
  induction xs as [|x xs IH]; intros Hall; simpl; [constructor|].
  destruct (Hall x) as (y & -> & Hy); [left|].
  constructor; [done|]. apply IH. intros x' Hx'. apply Hall. by right.
Qed.

Lemma Forall2_concat {A B} (P : A → B → Prop) xss yss :
  Forall2 (Forall2 P) xss yss → Forall2 P (concat xss) (concat yss).
Proof.
  induction 1 as [|xs ys xss yss Hxy _ IH]; simpl; [constructor|].
  by apply Forall2_app.
Qed.

Lemma foldl_insert_list_to_map {V} (entries : list (class_id * V))
    (acc : gmap class_id V) :
  NoDup entries.*1 →
  foldl (λ m kv, <[kv.1 := kv.2]> m) acc entries = list_to_map entries ∪ acc.
Proof.
  revert acc. induction entries as [|[k v] entries IH]; intros acc; simpl.
  - intros _. by rewrite (left_id_L ∅ (∪)).
  - intros [Hk Hnd]%NoDup_cons. rewrite IH by done.
    rewrite <- insert_union_l. symmetry. apply insert_union_r.
    by apply not_elem_of_list_to_map_1.
Qed.

Lemma foldl_insert_map_to_list {V} (m : gmap class_id V) :
  foldl (λ m kv, <[kv.1 := kv.2]> m) ∅ (map_to_list m) = m.
Proof.
  rewrite foldl_insert_list_to_map by apply NoDup_fst_map_to_list.
  by rewrite list_to_map_to_list, (right_id_L ∅ (∪)).
Qed.
End relations.

Section allocation.
Implicit Types (h : heap) (l : loc).

Lemma heap_bind_ok {A B} (x : heap_action A) (k : A → heap_action B)
    h h' a :
  x h = (h', inr a) → (x ≫= k) h = k a h'.
Proof. intros Hx. unfold mbind, heap_action_bind. by rewrite Hx. Qed.

Lemma load_ok {A} (read : heap → loc → option A) l h a :
  read h l = Some a → load read l h = (h, inr a).
Proof. intros Hl. unfold load. by rewrite Hl. Qed.

Lemma fresh_not_in_dom h : fresh (dom h) ∉ dom h.
Proof. apply is_fresh. Qed.

Lemma alloc_sets_spec entries d m h :
  sets_at h d m →
  ∃ h' d',
    alloc_sets entries d h = (h', inr d') ∧
    preserves h h' ∧
    sets_at h' d' (foldl (λ m kv, <[kv.1 := kv.2]> m) m entries) ∧
    ∀ c l, d' !! c = Some l → d !! c = Some l ∨ l ∉ dom h.
Proof.
  revert d m h. induction entries as [|[k s] entries IH]; intros d m h Hd.
  - exists h, d. split_and!; [done|apply preserves_refl|done|by left].
  - simpl. set (l := fresh (dom h)). set (h1 := <[l := PyClassSet s]> h).
    assert (preserves h h1) as Hp by apply preserves_insert_fresh.
    destruct (IH (<[k := l]> d) (<[k := s]> m) h1)
      as (h' & d' & Hrun & Hp' & Hsets & Hfresh).
    { intros c. destruct (decide (k = c)) as [<-|Hne].
      - rewrite !lookup_insert_eq. constructor.
        unfold read_class_set, h1. by rewrite lookup_insert_eq.
      - rewrite !lookup_insert_ne by done.
        by apply (sets_at_preserves h h1). }
    exists h', d'. split_and!; [|by eapply preserves_trans|done|].
    + by erewrite heap_bind_ok.
    + intros c l' Hl'. destruct (Hfresh c l' Hl') as [Hin|Hout].
      * destruct (decide (k = c)) as [<-|Hne].
        -- rewrite lookup_insert_eq in Hin. injection Hin as <-.
           right. apply fresh_not_in_dom.
        -- rewrite lookup_insert_ne in Hin by done. by left.
      * right. intros Hin. apply Hout.
        by apply (preserves_dom h h1).
Qed.

Lemma alloc_deps_dict_spec entries h :
  ∃ h' l d,
    alloc_deps_dict entries h = (h', inr l) ∧
    preserves h h' ∧
    (l ∉ dom h) ∧
    h' !! l = Some (PyDepsDict d) ∧
    sets_at h' d (foldl (λ m kv, <[kv.1 := kv.2]> m) ∅ entries) ∧
    ∀ c s, d !! c = Some s → s ∉ dom h.
Proof.
  destruct (alloc_sets_spec entries ∅ ∅ h)
    as (h1 & d & Hrun & Hp & Hsets & Hfresh).
  { intros c. rewrite !lookup_empty. constructor. }
  exists (<[fresh (dom h1) := PyDepsDict d]> h1), (fresh (dom h1)), d.
  assert (preserves h1 (<[fresh (dom h1) := PyDepsDict d]> h1)) as Hp1
    by apply preserves_insert_fresh.
  split_and!.
  - unfold alloc_deps_dict. by erewrite heap_bind_ok.
  - by eapply preserves_trans.
  - intros Hin. apply (fresh_not_in_dom h1). by apply (preserves_dom h h1).
  - by rewrite lookup_insert_eq.
  - by eapply sets_at_preserves.
  - intros c s Hs. destruct (Hfresh c s Hs) as [Hin|Hout]; [|done].
    by rewrite lookup_empty in Hin.
Qed.
End allocation.

Section agreement.
Context `{PySet}.
Implicit Types (h : heap) (l : loc).

Lemma lookup_refs_views h d vmap keys :
  views_at h d vmap →
  match lookup_refs d keys, lookup_views vmap keys with
  | inl e, inl e' => e = e'
  | inr refs, inr vs => Forall2 (view_at h) refs vs
  | _, _ => False
  end.
Proof.
  intros Hd. induction keys as [|k keys IH]; simpl; [constructor|].
  destruct (Hd k) as [l v Hlv|]; [|done].
  destruct (lookup_refs d keys), (lookup_views vmap keys); try done.
  by constructor.
Qed.

Lemma heap_deps_loop_unfold fuel view_cls_to_view view_to_deps :
  heap_deps_loop fuel view_cls_to_view view_to_deps =
    (deps ← load read_deps_dict view_to_deps;
     ordered_ref ← alloc (PyClassSet (ordered_of deps));
     ordered ← load read_class_set ordered_ref;
     if decide (ordered = ∅) then
       deps ← load read_deps_dict view_to_deps;
       if decide (deps = ∅) then mret (GeneratedRefs [] None)
       else mret (GeneratedRefs [] (Some (CyclicDependencyError deps)))
     else
       match fuel with
       | 0 => mret (GeneratedRefs [] (Some OutOfFuel))
       | S fuel' =>
           cls_to_ref ← load read_view_dict view_cls_to_view;
           match lookup_refs cls_to_ref (elements ordered) with
           | inl e => mret (GeneratedRefs [] (Some e))
           | inr refs =>
               vs ← load_all read_view refs;
               batch ← alloc (PyViewSet
                                (omap (λ v, cls_to_ref !! __class__ v)
                                      (set_iter vs)));
               deps ← load read_deps_dict view_to_deps;
               view_to_deps' ←
                 alloc_deps_dict (map_to_list (drop_ordered ordered deps));
               rest ← heap_deps_loop fuel' view_cls_to_view view_to_deps';
               mret (GeneratedRefs (batch :: yielded_refs rest)
                                   (raised_ref rest))
           end
       end).
Proof. by destruct fuel. Qed.

Lemma deps_loop_unfold fuel vmap m :
  deps_loop fuel vmap m =
    if decide (ordered_of m = ∅) then
      if decide (m = ∅) then Generated [] None
      else Generated [] (Some (CyclicDependencyError m))
    else
      match fuel with
      | 0 => Generated [] (Some OutOfFuel)
      | S fuel' =>
          match lookup_views vmap (elements (ordered_of m)) with
          | inl e => Generated [] (Some e)
          | inr vs =>
              let rest := deps_loop fuel' vmap (drop_ordered (ordered_of m) m) in
              Generated (set_iter vs :: yielded rest) (raised rest)
          end
      end.
Proof. by destruct fuel. Qed.

Lemma heap_deps_loop_agrees fuel lvd ldd h d vmap m :
  cls_to_view_wf vmap →
  read_view_dict h lvd = Some d →
  views_at h d vmap →
  deps_dict_at h ldd m →
  ∃ h' g,
    heap_deps_loop fuel lvd ldd h = (h', inr g) ∧
    preserves h h' ∧
    raised_ref g = raised (deps_loop fuel vmap m) ∧
    Forall2 (batch_at h') (yielded_refs g) (yielded (deps_loop fuel vmap m)).
Proof.
  intros Hwf. revert h ldd m.
  induction fuel as [|fuel IH]; intros h ldd m Hlvd Hd Hm;
    rewrite heap_deps_loop_unfold, deps_loop_unfold;
    (erewrite heap_bind_ok by (by apply load_ok, read_deps_dict_at));
    set (lo := fresh (dom h));
    set (h1 := <[lo := PyClassSet (ordered_of m)]> h);
    assert (preserves h h1) as Hp1 by apply preserves_insert_fresh;
    rewrite (heap_bind_ok (alloc (PyClassSet (ordered_of m))) _ h h1 lo
               eq_refl);
    (erewrite (heap_bind_ok (load read_class_set lo) _ h1 h1 (ordered_of m));
       [|apply load_ok; unfold read_class_set, h1;
         by rewrite lookup_insert_eq]);
    pose proof (deps_dict_at_preserves _ _ _ _ Hp1 Hm) as Hm1;
    (destruct (decide (ordered_of m = ∅)) as [Hord|Hord];
       [erewrite heap_bind_ok by (by apply load_ok, read_deps_dict_at);
        exists h1; destruct (decide (m = ∅)); eexists;
        (split_and!; [reflexivity|done|done|constructor])|]).
  - exists h1. eexists. split_and!; [reflexivity|done|done|constructor].
  - erewrite heap_bind_ok
      by (apply load_ok; by eapply preserves_read_view_dict).
    pose proof (views_at_preserves _ _ _ _ Hp1 Hd) as Hd1.
    pose proof (lookup_refs_views h1 d vmap (elements (ordered_of m)) Hd1)
      as Hlook.
    destruct (lookup_refs d (elements (ordered_of m))) as [e|refs],
      (lookup_views vmap (elements (ordered_of m))) as [e'|vs] eqn:Hvs;
      try done.
    { subst e'. exists h1. eexists.
      split_and!; [reflexivity|done|done|constructor]. }
    erewrite (heap_bind_ok (load_all read_view refs) _ h1 h1 vs)
      by (unfold load_all; by erewrite read_all_Forall2).
    set (items := omap (λ v, d !! __class__ v) (set_iter vs)).
    set (lb := fresh (dom h1)). set (h2 := <[lb := PyViewSet items]> h1).
    assert (preserves h1 h2) as Hp2 by apply preserves_insert_fresh.
    rewrite (heap_bind_ok (alloc (PyViewSet items)) _ h1 h2 lb eq_refl).
    erewrite heap_bind_ok
      by (apply load_ok, read_deps_dict_at;
          by eapply deps_dict_at_preserves).
    destruct (alloc_deps_dict_spec
                (map_to_list (drop_ordered (ordered_of m) m)) h2)
      as (h3 & ldd' & dd' & Halloc & Hp3 & _ & Hldd' & Hsets & _).
    rewrite foldl_insert_map_to_list in Hsets.
    erewrite heap_bind_ok by exact Halloc.
    assert (preserves h h3) as Hp
      by (eapply preserves_trans; [|exact Hp3];
          eapply preserves_trans; [exact Hp1|exact Hp2]).
    destruct (IH h3 ldd' (drop_ordered (ordered_of m) m))
      as (h' & g & Hrun & Hp' & Hraised & Hyielded).
    { by eapply preserves_read_view_dict. }
    { by eapply views_at_preserves. }
    { by exists dd'. }
    erewrite heap_bind_ok by exact Hrun.
    exists h'. eexists. split_and!; [reflexivity| |exact Hraised|].
    { by eapply preserves_trans. }
    simpl. constructor; [|exact Hyielded].
    apply (batch_at_preserves h2);
      [eapply preserves_trans; [exact Hp3|exact Hp']|].
    exists items. split.
    { unfold read_view_set, h2. by rewrite lookup_insert_eq. }
    apply Forall2_omap_lookup. intros v Hv.
    rewrite set_iter_elem_of in Hv.
    apply (lookup_views_inr _ _ _ Hvs) in Hv as (k & _ & Hk).
    rewrite (Hwf _ _ Hk).
    pose proof (Hd k) as Hdk. rewrite Hk in Hdk.
    inversion Hdk as [l v' Hlv Heq1 Heq2|]; subst.
    exists l. split; [done|].
    apply (view_at_preserves h h2); [|done].
    eapply preserves_trans; [exact Hp1|exact Hp2].
Qed.
End agreement.

Section inversion.
Implicit Types (h : heap) (l : loc).

Lemma heap_bind_inr {A B} (x : heap_action A) (k : A → heap_action B)
    h h' b :
  (x ≫= k) h = (h', inr b) →
  ∃ h1 a, x h = (h1, inr a) ∧ k a h1 = (h', inr b).
Proof.
  unfold mbind, heap_action_bind. destruct (x h) as [h1 [e|a]]; [done|].
  eauto.
Qed.

Lemma load_inr {A} (read : heap → loc → option A) l h h' a :
  load read l h = (h', inr a) → h' = h ∧ read h l = Some a.
Proof.
  unfold load. destruct (read h l); intros [= <- <-]; by split.
Qed.

Lemma load_all_inr {A} (read : heap → loc → option A) ls h h' xs :
  load_all read ls h = (h', inr xs) → h' = h ∧ read_all read h ls = inr xs.
Proof. unfold load_all. by intros [= <- ->]. Qed.

Lemma alloc_inr o h h' l :
  alloc o h = (h', inr l) → l = fresh (dom h) ∧ h' = <[l := o]> h.
Proof. unfold alloc. by intros [= <- <-]. Qed.
End inversion.

Section setup.
Context `{PySet}.
Implicit Types (h : heap) (l : loc).

(** The list the generator iterates over, the two dictionaries and the
    sets of [view_to_deps] are objects that the call creates. *)
Lemma heap_iterator_setup_copies list_of_views h h1 views lvd ldd :
  heap_iterator_setup list_of_views h = (h1, inr (views, lvd, ldd)) →
  (views ∉ dom h) ∧
  read_list h1 views = read_list h list_of_views ∧
  (lvd ∉ dom h) ∧
  (ldd ∉ dom h) ∧
  ∃ dd, h1 !! ldd = Some (PyDepsDict dd) ∧
        ∀ c s, dd !! c = Some s → s ∉ dom h.
Proof.
  unfold heap_iterator_setup.
  intros (? & items & [-> Hitems]%load_inr & Hrun)%heap_bind_inr.
  apply heap_bind_inr in Hrun as (ha & lcopy & [-> ->]%alloc_inr & Hrun).
  set (lcopy := fresh (dom h)) in *.
  set (ha := <[lcopy := PyList items]> h) in *.
  assert (preserves h ha) as Hpa by apply preserves_insert_fresh.
  apply heap_bind_inr in Hrun as (? & items' & [-> _]%load_inr & Hrun).
  apply heap_bind_inr in Hrun as (? & vs & [-> _]%load_all_inr & Hrun).
  apply heap_bind_inr in Hrun as (hb & lvd' & [-> ->]%alloc_inr & Hrun).
  set (lvd' := fresh (dom ha)) in *.
  match type of Hrun with context [<[lvd' := ?o]> ha] =>
    set (hb := <[lvd' := o]> ha) in * end.
  assert (preserves ha hb) as Hpb by apply preserves_insert_fresh.
  apply heap_bind_inr in Hrun as (? & items'' & [-> _]%load_inr & Hrun).
  apply heap_bind_inr in Hrun as (? & vs' & [-> _]%load_all_inr & Hrun).
  apply heap_bind_inr in Hrun as (hc & ldd' & Halloc & Hret).
  injection Hret as <- <- <- <-.
  destruct (alloc_deps_dict_spec
              ((λ v, (__class__ v, list_to_set (view_dependencies v)))
                 <$> vs') hb)
    as (hc' & l' & dd & Halloc' & Hpc & Hfresh & Hl' & _ & Hsets).
  rewrite Halloc in Halloc'. injection Halloc' as <- <-.
  assert (dom h ⊆ dom ha) as Hda by by apply preserves_dom.
  assert (dom ha ⊆ dom hb) as Hdb by by apply preserves_dom.
  split_and!.
  - apply fresh_not_in_dom.
  - rewrite Hitems. apply (preserves_read_list ha); [|].
    + by eapply preserves_trans.
    + unfold read_list, ha. by rewrite lookup_insert_eq.
  - intros Hin. apply (fresh_not_in_dom ha). by apply Hda.
  - intros Hin. apply Hfresh. by apply Hdb, Hda.
  - exists dd. split; [done|]. intros c s Hs Hin.
    apply (Hsets c s Hs). by apply Hdb, Hda.
Qed.

Lemma views_at_foldl h refs views d vmap :
  Forall2 (view_at h) refs views →
  views_at h d vmap →
  views_at h (foldl (λ d lv, <[__class__ lv.2 := lv.1]> d) d (zip refs views))
             (foldl (λ d view, <[__class__ view := view]> d) vmap views).
Proof.
  intros Hall. revert d vmap.
  induction Hall as [|l v refs views Hlv _ IH]; intros d vmap Hd; [done|].
  simpl. apply IH. intros c. destruct (decide (__class__ v = c)) as [<-|Hne].
  - rewrite !lookup_insert_eq. by constructor.
  - rewrite !lookup_insert_ne by done. apply Hd.
Qed.

Lemma heap_iterator_setup_agrees list_of_views h refs views :
  read_list h list_of_views = Some refs →
  Forall2 (view_at h) refs views →
  ∃ h1 lcopy lvd ldd d,
    heap_iterator_setup list_of_views h = (h1, inr (lcopy, lvd, ldd)) ∧
    preserves h h1 ∧
    read_list h1 lcopy = Some refs ∧
    read_view_dict h1 lvd = Some d ∧
    views_at h1 d (build_view_cls_to_view views) ∧
    deps_dict_at h1 ldd (build_view_to_deps views).
Proof.
  intros Hrefs Hviews. unfold heap_iterator_setup.
  erewrite heap_bind_ok by (by apply load_ok).
  set (lcopy := fresh (dom h)). set (ha := <[lcopy := PyList refs]> h).
  assert (preserves h ha) as Hpa by apply preserves_insert_fresh.
  rewrite (heap_bind_ok (alloc (PyList refs)) _ h ha lcopy eq_refl).
  assert (read_list ha lcopy = Some refs) as Hcopy.
  { unfold read_list, ha. by rewrite lookup_insert_eq. }
  assert (Forall2 (view_at ha) refs views) as Hviews_a.
  { eapply Forall2_impl; [done|]. intros ? ?. by apply view_at_preserves. }
  erewrite heap_bind_ok by (by apply load_ok).
  erewrite (heap_bind_ok (load_all read_view refs) _ ha ha views)
    by (unfold load_all; by erewrite read_all_Forall2).
  set (d := foldl (λ d lv, <[__class__ lv.2 := lv.1]> d) ∅ (zip refs views)).
  set (lvd := fresh (dom ha)). set (hb := <[lvd := PyViewDict d]> ha).
  assert (preserves ha hb) as Hpb by apply preserves_insert_fresh.
  rewrite (heap_bind_ok (alloc (PyViewDict d)) _ ha hb lvd eq_refl).
  assert (Forall2 (view_at hb) refs views) as Hviews_b.
  { eapply Forall2_impl; [done|]. intros ? ?. by apply view_at_preserves. }
  erewrite heap_bind_ok
    by (apply load_ok; by eapply preserves_read_list).
  erewrite (heap_bind_ok (load_all read_view refs) _ hb hb views)
    by (unfold load_all; by erewrite read_all_Forall2).
  destruct (alloc_deps_dict_spec
              ((λ v, (__class__ v, list_to_set (view_dependencies v)))
                 <$> views) hb)
    as (hc & ldd & dd & Halloc & Hpc & _ & Hldd & Hsets & _).
  erewrite heap_bind_ok by exact Halloc.
  exists hc, lcopy, lvd, ldd, d. split_and!.
  - reflexivity.
  - eapply preserves_trans; [exact Hpa|].
    eapply preserves_trans; [exact Hpb|exact Hpc].
  - apply (preserves_read_list ha); [|done].
    eapply preserves_trans; [exact Hpb|exact Hpc].
  - apply (preserves_read_view_dict hb); [done|].
    unfold read_view_dict, hb. by rewrite lookup_insert_eq.
  - apply (views_at_preserves hb); [done|].
    apply views_at_foldl; [done|]. intros c. rewrite !lookup_empty.
    constructor.
  - exists dd. split; [done|]. rewrite foldl_fmap in Hsets. exact Hsets.
Qed.
End setup.

Section heap_resolver_agrees.
Context `{PySet}.
Implicit Types (h : heap) (l : loc).

Lemma batch_at_Forall2 h ls vss :
  Forall2 (batch_at h) ls vss →
  ∃ rss, Forall2 (λ l rs, read_view_set h l = Some rs) ls rss ∧
         Forall2 (Forall2 (view_at h)) rss vss.
Proof.
  induction 1 as [|l vs ls vss (rs & Hl & Hrs) _ (rss & Hls & Hrss)].
  - exists []. by split.
  - exists (rs :: rss). split; by constructor.
Qed.

Lemma heap_sets_of_views_deps_iterator_agrees list_of_views h refs views :
  read_list h list_of_views = Some refs →
  Forall2 (view_at h) refs views →
  ∃ h' g,
    heap_sets_of_views_deps_iterator list_of_views h = (h', inr g) ∧
    preserves h h' ∧
    raised_ref g = raised (_sets_of_views_deps_iterator views) ∧
    Forall2 (batch_at h') (yielded_refs g)
            (yielded (_sets_of_views_deps_iterator views)).
Proof.
  intros Hrefs Hviews.
  destruct (heap_iterator_setup_agrees _ _ _ _ Hrefs Hviews)
    as (h1 & lcopy & lvd & ldd & d & Hsetup & Hp1 & Hcopy & Hlvd & Hd & Hm).
  unfold heap_sets_of_views_deps_iterator.
  rewrite (heap_bind_ok (heap_iterator_setup list_of_views) _ h h1
             (lcopy, lvd, ldd) Hsetup).
  erewrite heap_bind_ok by (by apply load_ok).
  destruct (heap_deps_loop_agrees (length refs) lvd ldd h1 d
              (build_view_cls_to_view views) (build_view_to_deps views))
    as (h' & g & Hrun & Hp' & Hraised & Hyielded);
    [apply build_view_cls_to_view_wf|done..|].
  exists h', g. unfold _sets_of_views_deps_iterator.
  rewrite <- (Forall2_length _ _ _ Hviews).
  split_and!; [done| |done..]. by eapply preserves_trans.
Qed.

(** On a store that holds the descriptors, the function on the store
    computes what [_topological_sort_views] computes: the same exception,
    or a new list of the instances that hold the resolved sequence. *)
Lemma heap_topological_sort_views_agrees list_of_views h refs views :
  read_list h list_of_views = Some refs →
  Forall2 (view_at h) refs views →
  ∃ h', preserves h h' ∧
    match _topological_sort_views views with
    | inl e => heap_topological_sort_views list_of_views h = (h', inl e)
    | inr out =>
        ∃ result refs_out,
          heap_topological_sort_views list_of_views h = (h', inr result) ∧
          (result ∉ dom h) ∧
          read_list h' result = Some refs_out ∧
          Forall2 (view_at h') refs_out out
    end.
Proof.
  intros Hrefs Hviews.
  destruct (heap_sets_of_views_deps_iterator_agrees _ _ _ _ Hrefs Hviews)
    as (h1 & g & Hrun & Hp1 & Hraised & Hyielded).
  unfold heap_topological_sort_views, _topological_sort_views.
  erewrite heap_bind_ok by exact Hrun. rewrite Hraised.
  destruct (raised (_sets_of_views_deps_iterator views)) as [e|].
  { exists h1. by split. }
  apply batch_at_Forall2 in Hyielded as (rss & Hread & Hrss).
  erewrite (heap_bind_ok (load_all read_view_set (yielded_refs g)) _ h1 h1 rss)
    by (unfold load_all; by erewrite read_all_Forall2).
  set (result := fresh (dom h1)).
  set (h' := <[result := PyList (concat rss)]> h1).
  assert (preserves h1 h') as Hp' by apply preserves_insert_fresh.
  exists h'. split; [by eapply preserves_trans|].
  exists result, (concat rss). split_and!.
  - reflexivity.
  - intros Hin. apply (fresh_not_in_dom h1).
    by apply (preserves_dom h h1).
  - unfold read_list, h'. by rewrite lookup_insert_eq.
  - apply Forall2_concat. eapply Forall2_impl; [done|].
    intros rs vs Hrs. eapply Forall2_impl; [done|].
    intros ? ?. by apply view_at_preserves.
Qed.
End heap_resolver_agrees.

(** C8.  Whatever the store holds and whatever [list_of_views] refers to,
    a call of [_topological_sort_views] leaves every object of the store as
    it was: in particular the list it is given, every view instance and
    every sequence of dependencies read the same after the call as before.
    The list the generator iterates over is a new object with the items of
    the caller's list, and the dictionaries and every set of dependencies
    of the working map are new objects too, so what the loop works on is
    not shared with the caller. *)
Theorem topological_sort_views_leaves_arguments `{PySet} (h : heap)
    (list_of_views : loc) :
  let h' := (heap_topological_sort_views list_of_views h).1 in
  preserves h h' ∧
  (∀ items, read_list h list_of_views = Some items →
            read_list h' list_of_views = Some items) ∧
  (∀ l v, read_view h l = Some v → read_view h' l = Some v) ∧
  (∀ l classes, read_class_seq h l = Some classes →
                read_class_seq h' l = Some classes) ∧
  (∀ h1 views view_cls_to_view view_to_deps,
     heap_iterator_setup list_of_views h
       = (h1, inr (views, view_cls_to_view, view_to_deps)) →
     (views ∉ dom h) ∧
     read_list h1 views = read_list h list_of_views ∧
     (view_cls_to_view ∉ dom h) ∧
     (view_to_deps ∉ dom h) ∧
     ∃ entries, h1 !! view_to_deps = Some (PyDepsDict entries) ∧
                ∀ c s, entries !! c = Some s → s ∉ dom h).
Proof.
  intros h'.
  assert (preserves h h') as Hp
    by apply extending_heap_topological_sort_views.
  split_and!.
  - done.
  - intros items. by apply preserves_read_list.
  - intros l v. by apply preserves_read_view.
  - intros l classes. by apply preserves_read_class_seq.
  - intros h1 views lvd ldd. apply heap_iterator_setup_copies.
Qed.

Example chain_store_run :
  let run := @heap_topological_sort_views insertion_order 1%positive
                                          chain_store in
  run.2 = inr 27%positive ∧
  read_list run.1 27%positive = Some [4%positive; 3%positive; 2%positive] ∧
  read_list run.1 1%positive = Some [2%positive; 3%positive; 4%positive] ∧
  read_view run.1 2%positive = Some Examples.view_a ∧
  read_view run.1 3%positive = Some Examples.view_b ∧
  read_view run.1 4%positive = Some Examples.view_c.
Proof. vm_compute. repeat split. Qed.

(** ** The resolver: further properties *)

Section resolver_more.
Context `{PySet}.
Implicit Types (views out : list view) (v : view) (c d : class_id).

Lemma resolves_all_of_inr views out c :
  _topological_sort_views views = inr out →
  c ∈ __class__ <$> views → resolves views c.
Proof.
  intros (_ & _ & Hres)%topological_sort_inr Hc.
  apply elem_of_emitted.
  destruct (decide (c ∈ emitted views)) as [|Hnot]; [done|]. exfalso.
  assert (c ∈ dom (residue views)) as Hin.
  { unfold residue. rewrite dom_drop_ordered, dom_build_view_to_deps.
    apply elem_of_difference. split; [|done]. by apply elem_of_list_to_set. }
  rewrite Hres in Hin. set_solver.
Qed.

(** X1.  [_topological_sort_views] returns a sequence exactly when every
    dependency is the class of a view of the list and no class reaches
    itself along dependencies; otherwise it raises. *)
Theorem topological_sort_views_returns_iff views :
  (∃ out, _topological_sort_views views = inr out) ↔
  dependencies_closed views ∧ acyclic views.
Proof.
  split.
  - intros [out Hout]. split.
    + intros c d (v & Hr & <- & Hd).
      apply resolves_elem_of, (resolves_dependency views v); [done..|].
      eapply resolves_all_of_inr; [done|].
      by apply list_elem_of_fmap_2, representative_elem_of.
    + intros c Hcyc. eapply resolves_not_on_cycle; [|exact Hcyc].
      eapply resolves_all_of_inr; [done|].
      apply tc_first_step in Hcyc as (y & v & Hr & <- & _).
      by apply list_elem_of_fmap_2, representative_elem_of.
  - intros [Hclosed Hacyc]. by apply topological_sort_acyclic_ok.
Qed.

Lemma topological_sort_inl views e :
  _topological_sort_views views = inl e →
  e = CyclicDependencyError (residue views) ∧
  residue views ≠ ∅ ∧
  ordered_of (residue views) = ∅.
Proof.
  rewrite topological_sort_cases. case_decide as Hres; [done|].
  intros [= <-]. split_and!; [done..|].
  destruct (loop_runs_residual _ _ _ (build_view_cls_to_view_wf views)
              (iterator_runs views)) as [Hstuck _].
  done.
Qed.

(** X6.  The only exception [_topological_sort_views] raises is
    [CyclicDependencyError]: the lookup [view_cls_to_view[view]] never
    misses its key.  The map in the error is not empty and has no entry
    with an empty set of dependencies. *)
Theorem topological_sort_views_raises_only_cyclic views e :
  _topological_sort_views views = inl e →
  ∃ residual,
    e = CyclicDependencyError residual ∧
    residual ≠ ∅ ∧
    ∀ c deps, residual !! c = Some deps → deps ≠ ∅.
Proof.
  intros (-> & Hne & Hstuck)%topological_sort_inl.
  exists (residue views). split_and!; [done..|].
  intros c deps Hc ->.
  apply elem_of_ordered_of in Hc. rewrite Hstuck in Hc. set_solver.
Qed.
End resolver_more.

(** X2.  The iteration order of the sets does not decide how
    [_topological_sort_views] ends: under any two orders it raises the same
    error, or returns two sequences with the same views. *)
Theorem topological_sort_views_any_order (order1 order2 : PySet)
    (views : list view) :
  match @_topological_sort_views order1 views,
        @_topological_sort_views order2 views with
  | inr out1, inr out2 => out1 ≡ₚ out2
  | inl e1, inl e2 => e1 = e2
  | _, _ => False
  end.
Proof.
  assert (@emitted order1 views = @emitted order2 views) as Hem.
  { apply set_eq. intros c. by rewrite !elem_of_emitted. }
  assert (@residue order1 views = @residue order2 views) as Hres.
  { unfold residue. by rewrite Hem. }
  destruct (@_topological_sort_views order1 views) as [e1|out1] eqn:H1,
    (@_topological_sort_views order2 views) as [e2|out2] eqn:H2.
  - rewrite topological_sort_cases in H1. rewrite topological_sort_cases in H2.
    rewrite Hres in H1.
    case_decide; [done|]. congruence.
  - rewrite topological_sort_cases in H1. rewrite topological_sort_cases in H2.
    rewrite Hres in H1.
    by case_decide.
  - rewrite topological_sort_cases in H1. rewrite topological_sort_cases in H2.
    rewrite Hres in H1.
    by case_decide.
  - apply topological_sort_Permutation in H1, H2. by rewrite H1, H2.
Qed.

Lemma topological_sort_views_raises_only_cyclic_witness :
  @_topological_sort_views insertion_order Examples.dangling
    = inl (CyclicDependencyError {[ Examples.A := {[ Examples.X ]} ]}) ∧
  ∃ residual,
    CyclicDependencyError {[ Examples.A := {[ Examples.X ]} ]}
      = CyclicDependencyError residual ∧
    residual ≠ ∅ ∧
    ∀ c deps, residual !! c = Some deps → deps ≠ ∅.
Proof.
  assert (@_topological_sort_views insertion_order Examples.dangling
          = inl (CyclicDependencyError {[ Examples.A := {[ Examples.X ]} ]}))
    as Hrun by (vm_compute; reflexivity).
  split; [done|].
  apply (@topological_sort_views_raises_only_cyclic insertion_order
           Examples.dangling _ Hrun).
Defined.

Section duplicates.
Context `{PySet}.
Implicit Types (views : list view) (v : view).

Lemma representative_distinct views v :
  NoDup (__class__ <$> views) → v ∈ views → representative views v.
Proof.
  intros Hnd Hv. apply list_elem_of_split in Hv as (l1 & l2 & ->).
  exists l1, l2. split; [done|].
  rewrite fmap_app, fmap_cons in Hnd.
  apply NoDup_app in Hnd as (_ & _ & Hnd). by apply NoDup_cons in Hnd as [? _].
Qed.

Lemma representative_representatives views v :
  representative (representatives views) v ↔ representative views v.
Proof.
  rewrite <- (elem_of_representatives views). split.
  - apply representative_elem_of.
  - apply representative_distinct, representatives_NoDup_cls.
Qed.

Lemma build_view_cls_to_view_representatives views :
  build_view_cls_to_view (representatives views) =
    build_view_cls_to_view views.
Proof.
  apply map_eq. intros c. apply option_eq. intros v.
  rewrite !lookup_build_view_cls_to_view.
  by rewrite representative_representatives.
Qed.

(** X3.  Only the last instance of each class counts: the call on a list
    gives what the call on the list of these last instances gives, so an
    earlier instance of a class, with whatever dependencies, changes
    nothing. *)
Theorem topological_sort_views_last_instances views :
  _topological_sort_views views =
    _topological_sort_views (representatives views).
Proof.
  assert (_sets_of_views_deps_iterator views =
          _sets_of_views_deps_iterator (representatives views)) as Hsame.
  { eapply loop_runs_det; [apply iterator_runs|].
    pose proof (iterator_runs (representatives views)) as Hrun.
    by rewrite build_view_to_deps_fmap,
      build_view_cls_to_view_representatives, <- build_view_to_deps_fmap
      in Hrun. }
  unfold _topological_sort_views. by rewrite Hsame.
Qed.
End duplicates.

Section batches_more.
Context `{PySet}.
Implicit Types (views : list view) (v w : view) (c d : class_id).
Implicit Types (m : gmap class_id (gset class_id)).

Lemma drop_ordered_dom m : drop_ordered (dom m) m = ∅.
Proof.
  apply map_eq. intros c. rewrite lookup_drop_ordered, lookup_empty.
  case_decide as Hc; [done|].
  apply not_elem_of_dom in Hc. by rewrite Hc.
Qed.

(** X4.  When no view of a non-empty list has a dependency, the generator
    yields one batch and stops: a single pass resolves the list, and the
    batch holds the last instance of each class. *)
Theorem sets_of_views_deps_iterator_single_batch views :
  views ≠ [] →
  (∀ v, v ∈ views → view_dependencies v = []) →
  ∃ batch,
    _sets_of_views_deps_iterator views = Generated [batch] None ∧
    batch ≡ₚ representatives views ∧
    _topological_sort_views views = inr batch.
Proof.
  intros Hne Hnodeps.
  set (m := build_view_to_deps views).
  set (vmap := build_view_cls_to_view views).
  assert (ordered_of m = dom m) as Hord.
  { apply set_eq. intros c. rewrite elem_of_ordered_of, elem_of_dom. split.
    - intros Hc. by rewrite Hc.
    - intros [D HD]. rewrite HD. f_equal.
      apply lookup_build_view_to_deps in HD as (v & Hr & _ & ->).
      unfold deps_set. by rewrite (Hnodeps v (representative_elem_of _ _ Hr)). }
  assert (dom m ≠ ∅) as Hdom.
  { unfold m. rewrite dom_build_view_to_deps.
    destruct views as [|v views']; [done|]. set_solver. }
  destruct (lookup_views_total vmap (elements (ordered_of m))) as [vs Hvs].
  { intros k Hk%elem_of_elements. rewrite Hord in Hk. unfold vmap.
    by rewrite dom_build_view_cls_to_view, <- dom_build_view_to_deps. }
  assert (_sets_of_views_deps_iterator views = Generated [set_iter vs] None)
    as Hgen.
  { eapply loop_runs_det; [apply iterator_runs|].
    apply (loop_yield vmap m vs (Generated [] None)); [by rewrite Hord|done|].
    rewrite Hord, drop_ordered_dom. constructor. }
  assert (_topological_sort_views views = inr (set_iter vs)) as Hout.
  { unfold _topological_sort_views. rewrite Hgen. simpl.
    by rewrite app_nil_r. }
  exists (set_iter vs). split_and!; [done| |done].
  by apply topological_sort_Permutation.
Qed.

Lemma loop_runs_layers vmap m g i batch batch' v :
  cls_to_view_wf vmap →
  (∀ c D u, m !! c = Some D → vmap !! c = Some u → D ⊆ deps_set u) →
  loop_runs vmap m g →
  yielded g !! i = Some batch →
  yielded g !! S i = Some batch' →
  v ∈ batch' →
  ∃ w, w ∈ batch ∧ __class__ w ∈ view_dependencies v.
Proof.
  intros Hwf Hsub Hrun. revert i Hsub.
  induction Hrun as [|m ? ?|m vs g Hord Hvs Hrun IH]; intros i Hsub; simpl;
    [done..|].
  assert (∀ c D u, drop_ordered (ordered_of m) m !! c = Some D →
                   vmap !! c = Some u → D ⊆ deps_set u) as Hsub'.
  { intros c D u (_ & D0 & HD0 & ->)%lookup_drop_ordered_Some Hu.
    pose proof (Hsub c D0 u HD0 Hu). set_solver. }
  destruct i as [|i]; simpl; [|by apply IH].
  intros [= <-] Hnext Hv.
  inversion Hrun as [| |? vs' g' Hord' Hvs' Hrun' Heq1 Heq2]; subst;
    simpl in Hnext; [done..|].
  injection Hnext as <-.
  apply (elem_of_batch _ _ _ _ Hwf Hvs') in Hv as [Hc Hv].
  apply elem_of_ordered_of, lookup_drop_ordered_Some in Hc
    as (Hnot & D & HD & Hemp).
  destruct (decide (D = ∅)) as [->|Hne].
  { exfalso. by apply Hnot, elem_of_ordered_of. }
  apply set_choose_L in Hne as [d Hd].
  assert (d ∈ ordered_of m) as Hdo by set_solver.
  rewrite <- (classes_of_batch _ _ _ Hwf Hvs) in Hdo.
  apply elem_of_list_to_set, list_elem_of_fmap in Hdo as (w & -> & Hw).
  exists w. split; [done|].
  pose proof (Hsub _ _ _ HD Hv) as HDsub.
  apply HDsub in Hd. unfold deps_set in Hd.
  by apply elem_of_list_to_set in Hd.
Qed.

(** X5.  The batches are layers: every view of a batch after the first
    has a dependency whose view is in the batch yielded just before, so a
    view is yielded in the first pass in which it can be. *)
Theorem sets_of_views_deps_iterator_layers views i batch batch' v :
  yielded (_sets_of_views_deps_iterator views) !! i = Some batch →
  yielded (_sets_of_views_deps_iterator views) !! S i = Some batch' →
  v ∈ batch' →
  ∃ w, w ∈ batch ∧ __class__ w ∈ view_dependencies v.
Proof.
  apply (loop_runs_layers (build_view_cls_to_view views)
           (build_view_to_deps views)).
  - apply build_view_cls_to_view_wf.
  - intros c D u (u' & Hr & Hc & ->)%lookup_build_view_to_deps
      [Hr' Hc']%lookup_build_view_cls_to_view.
    by rewrite (representative_inj views u u') by congruence.
  - apply iterator_runs.
Qed.

End batches_more.

Lemma sets_of_views_deps_iterator_single_batch_witness :
  [Examples.view_c; Examples.view_c'] ≠ [] ∧
  (∀ v, v ∈ [Examples.view_c; Examples.view_c'] → view_dependencies v = []) ∧
  ∃ batch,
    @_sets_of_views_deps_iterator insertion_order
       [Examples.view_c; Examples.view_c'] = Generated [batch] None ∧
    batch ≡ₚ representatives [Examples.view_c; Examples.view_c'] ∧
    @_topological_sort_views insertion_order
       [Examples.view_c; Examples.view_c'] = inr batch.
Proof.
  assert (∀ v, v ∈ [Examples.view_c; Examples.view_c'] →
               view_dependencies v = []) as Hnodeps.
  { intros v Hv. apply elem_of_cons in Hv as [->|Hv]; [done|].
    by apply list_elem_of_singleton in Hv as ->. }
  split; [done|]. split; [done|].
  apply (@sets_of_views_deps_iterator_single_batch insertion_order
           [Examples.view_c; Examples.view_c']); done.
Defined.

Lemma sets_of_views_deps_iterator_layers_witness :
  yielded (@_sets_of_views_deps_iterator insertion_order Examples.chain)
    !! 1 = Some [Examples.view_b] ∧
  yielded (@_sets_of_views_deps_iterator insertion_order Examples.chain)
    !! 2 = Some [Examples.view_a] ∧
  Examples.view_a ∈ [Examples.view_a] ∧
  ∃ w, w ∈ [Examples.view_b] ∧
       __class__ w ∈ view_dependencies Examples.view_a.
Proof.
  assert (yielded (@_sets_of_views_deps_iterator insertion_order
                     Examples.chain) !! 1 = Some [Examples.view_b]) as H1
    by (vm_compute; reflexivity).
  assert (yielded (@_sets_of_views_deps_iterator insertion_order
                     Examples.chain) !! 2 = Some [Examples.view_a]) as H2
    by (vm_compute; reflexivity).
  assert (Examples.view_a ∈ [Examples.view_a]) as Hin by set_solver.
  split_and!; [done..|].
  apply (@sets_of_views_deps_iterator_layers insertion_order Examples.chain
           1 [Examples.view_b] [Examples.view_a] Examples.view_a H1 H2 Hin).
Defined.

Section chains.
Context `{PySet}.
Implicit Types (views pre suf : list view) (v w : view) (c d : class_id).

Lemma drop_ordered_empty (m : gmap class_id (gset class_id)) :
  drop_ordered ∅ m = m.
Proof.
  apply map_eq. intros c. rewrite lookup_drop_ordered.
  rewrite decide_False by set_solver.
  destruct (m !! c); simpl; [f_equal; set_solver | done].
Qed.

Lemma set_iter_singleton v : set_iter [v] = [v].
Proof.
  pose proof (set_iter_NoDup [v]) as Hnd.
  pose proof (set_iter_elem_of [v]) as Hin.
  destruct (set_iter [v]) as [|x [|y l]].
  - specialize (Hin v). set_solver.
  - f_equal. specialize (Hin x). set_solver.
  - exfalso. apply NoDup_cons in Hnd as [Hx _].
    pose proof (proj1 (Hin x) ltac:(left)) as Hx'%list_elem_of_singleton.
    pose proof (proj1 (Hin y) ltac:(right; left))
      as Hy'%list_elem_of_singleton.
    subst. apply Hx. left.
Qed.

Lemma chain_ordered pre v suf :
  NoDup (__class__ <$> (pre ++ v :: suf)) →
  is_chain (pre ++ v :: suf) →
  ordered_of (drop_ordered (classes_of suf)
                           (build_view_to_deps (pre ++ v :: suf)))
    = {[ __class__ v ]}.
Proof.
  intros Hnd Hchain. set (views := pre ++ v :: suf) in *.
  pose proof Hnd as Hnd'. unfold views in Hnd'.
  rewrite fmap_app, fmap_cons in Hnd'.
  apply NoDup_app in Hnd' as (_ & Hpre & [Hv _]%NoDup_cons).
  assert (∀ w, w ∈ pre ++ [v] → __class__ w ∉ classes_of suf) as Hout.
  { intros w [Hw|Hw%list_elem_of_singleton]%elem_of_app;
      unfold classes_of; rewrite elem_of_list_to_set; [|by subst].
    intros Hin. apply (Hpre (__class__ w)); [by apply list_elem_of_fmap_2|].
    by right. }
  assert (∀ u, u ∈ views →
            build_view_to_deps views !! __class__ u = Some (deps_set u))
    as Hlook.
  { intros u Hu. apply lookup_build_view_to_deps. exists u.
    split_and!; [|done..]. by apply representative_distinct. }
  apply set_eq. intros c.
  rewrite elem_of_ordered_of, lookup_drop_ordered_Some, elem_of_singleton.
  split.
  - intros (Hc & D & HD & Hemp).
    apply lookup_build_view_to_deps in HD as (u & Hr & <- & ->).
    apply representative_elem_of in Hr.
    unfold views in Hr. apply elem_of_app in Hr as [Hu|Hu].
    + exfalso. apply list_elem_of_lookup in Hu as [i Hi].
      pose proof (lookup_lt_Some _ _ _ Hi) as Hlt.
      assert (views !! i = Some u) as Hvi
        by (unfold views; by rewrite lookup_app_l).
      assert (∃ w, views !! S i = Some w ∧ w ∈ pre ++ [v]) as (w & Hw & Hwin).
      { destruct (decide (S i < length pre)) as [Hlt'|Hge].
        - destruct (lookup_lt_is_Some_2 pre (S i) Hlt') as [w Hw].
          exists w. split; [unfold views; by rewrite lookup_app_l|].
          apply elem_of_app. left. by eapply list_elem_of_lookup_2.
        - exists v. split; [|set_solver].
          assert (S i = length pre) as -> by lia.
          unfold views. by rewrite list_lookup_middle. }
      pose proof (Hchain i u Hvi) as Hdeps. rewrite Hw in Hdeps.
      assert (__class__ w ∈ deps_set u ∖ classes_of suf) as Hcontra.
      { apply elem_of_difference. split; [|by apply Hout].
        unfold deps_set. rewrite Hdeps. set_solver. }
      rewrite <- Hemp in Hcontra. set_solver.
    + apply elem_of_cons in Hu as [->|Hu]; [done|]. exfalso.
      apply Hc. unfold classes_of.
      by apply elem_of_list_to_set, list_elem_of_fmap_2.
  - intros ->. split; [apply Hout; set_solver|].
    exists (deps_set v). split; [apply Hlook; unfold views; set_solver|].
    symmetry. apply set_eq. intros d. split; [|set_solver].
    intros [Hd Hnot]%elem_of_difference. exfalso. apply Hnot.
    assert (views !! length pre = Some v) as Hvi
      by (unfold views; by rewrite list_lookup_middle).
    pose proof (Hchain _ _ Hvi) as Hdeps.
    assert (views !! S (length pre) = suf !! 0) as Hnext.
    { unfold views. rewrite lookup_app_r by lia.
      by replace (S (length pre) - length pre) with 1 by lia. }
    rewrite Hnext in Hdeps. unfold deps_set in Hd. rewrite Hdeps in Hd.
    destruct (suf !! 0) as [w|] eqn:Hw; [|set_solver].
    apply elem_of_list_to_set, list_elem_of_singleton in Hd as ->.
    unfold classes_of. apply elem_of_list_to_set, list_elem_of_fmap_2.
    by eapply list_elem_of_lookup_2.
Qed.

Lemma chain_loop_runs views pre suf :
  views = pre ++ suf →
  NoDup (__class__ <$> views) →
  is_chain views →
  loop_runs (build_view_cls_to_view views)
            (drop_ordered (classes_of suf) (build_view_to_deps views))
            (Generated ((λ v, [v]) <$> reverse pre) None).
Proof.
  intros Hviews Hnd Hchain. revert suf Hviews.
  induction pre as [|v pre IH] using rev_ind; intros suf Hviews.
  - simpl in Hviews. subst suf. unfold classes_of.
    rewrite <- dom_build_view_to_deps, drop_ordered_dom. constructor.
  - rewrite <- app_assoc in Hviews. simpl in Hviews.
    rewrite reverse_snoc, fmap_cons.
    pose proof (chain_ordered pre v suf) as Hord.
    rewrite <- Hviews in Hord. specialize (Hord Hnd Hchain).
    assert (build_view_cls_to_view views !! __class__ v = Some v) as Hv.
    { apply lookup_build_view_cls_to_view. split; [|done].
      apply representative_distinct; [done|]. rewrite Hviews. set_solver. }
    rewrite <- (set_iter_singleton v).
    apply (loop_yield _ _ [v] (Generated _ None)).
    + rewrite Hord. set_solver.
    + rewrite Hord, elements_singleton. simpl. by rewrite Hv.
    + rewrite Hord, drop_ordered_drop_ordered.
      replace (classes_of suf ∪ {[__class__ v]}) with (classes_of (v :: suf))
        by (unfold classes_of; set_solver).
      by apply IH.
Qed.

(** X7.  A chain, where each view depends on the next one of the list and
    the last on nothing, resolves to the list reversed, one view in each
    batch, whatever the iteration order of the sets. *)
Theorem topological_sort_views_chain views :
  NoDup (__class__ <$> views) →
  is_chain views →
  _sets_of_views_deps_iterator views
    = Generated ((λ v, [v]) <$> reverse views) None ∧
  _topological_sort_views views = inr (reverse views).
Proof.
  intros Hnd Hchain.
  assert (_sets_of_views_deps_iterator views
          = Generated ((λ v, [v]) <$> reverse views) None) as Hgen.
  { eapply loop_runs_det; [apply iterator_runs|].
    pose proof (chain_loop_runs views views [] (eq_sym (app_nil_r _))
                  Hnd Hchain) as Hrun.
    unfold classes_of in Hrun. simpl in Hrun.
    by rewrite drop_ordered_empty in Hrun. }
  split; [done|]. unfold _topological_sort_views. rewrite Hgen. simpl.
  by rewrite (concat_singletons id), list_fmap_id.
Qed.
End chains.

Lemma topological_sort_views_chain_witness :
  NoDup (__class__ <$> Examples.chain) ∧
  is_chain Examples.chain ∧
  @_sets_of_views_deps_iterator insertion_order Examples.chain
    = Generated ((λ v, [v]) <$> reverse Examples.chain) None ∧
  @_topological_sort_views insertion_order Examples.chain
    = inr (reverse Examples.chain).
Proof.
  assert (NoDup (__class__ <$> Examples.chain)) as Hnd by by_compute.
  assert (is_chain Examples.chain) as Hchain.
  { intros [|[|[|i]]] v Hv; simpl in Hv; [by injection Hv as <-..|done]. }
  split; [done|]. split; [done|].
  apply (@topological_sort_views_chain insertion_order Examples.chain
           Hnd Hchain).
Defined.

(** ** sync_views: further properties *)

Section scripts.
Context `{Surroundings}.
Implicit Types (db : database) (script : list string).

Lemma first_refused_cons db s script :
  first_refused db (s :: script) =
    if execute_fails db s then Some s else first_refused db script.
Proof.
  unfold first_refused. rewrite filter_cons.
  destruct (execute_fails db s); by case_decide.
Qed.

Lemma first_refused_app db script1 script2 :
  first_refused db (script1 ++ script2) =
    match first_refused db script1 with
    | Some s => Some s
    | None => first_refused db script2
    end.
Proof.
  induction script1 as [|s script1 IH]; [done|].
  rewrite <- app_comm_cons, !first_refused_cons.
  by destruct (execute_fails db s).
Qed.

Lemma sent_app db script1 script2 :
  sent db (script1 ++ script2) =
    sent db script1 ++
    match first_refused db script1 with
    | Some _ => []
    | None => sent db script2
    end.
Proof.
  induction script1 as [|s script1 IH]; [done|].
  rewrite <- app_comm_cons, first_refused_cons. simpl.
  destruct (execute_fails db s); [done|]. by rewrite IH.
Qed.

Lemma first_refused_Some db script s :
  first_refused db script = Some s →
  s ∈ script ∧ execute_fails db s = true.
Proof.
  induction script as [|s' script IH]; [done|].
  rewrite first_refused_cons.
  destruct (execute_fails db s') eqn:Hs'.
  - intros [= <-]. split; [left|done].
  - intros [? ?]%IH. split; [by right|done].
Qed.

Lemma sent_prefix db script : sent db script `prefix_of` script.
Proof.
  induction script as [|s script IH]; simpl; [done|].
  destruct (execute_fails db s).
  - by exists script.
  - by apply prefix_cons.
Qed.

Lemma sent_last_refused db script s :
  first_refused db script = Some s → last (sent db script) = Some s.
Proof.
  induction script as [|s' script IH]; [done|].
  rewrite first_refused_cons. simpl.
  destruct (execute_fails db s') eqn:Hs'.
  - by intros [= <-].
  - intros Hs. specialize (IH Hs).
    destruct (sent db script) eqn:Hsent; [done|]. by rewrite last_cons, IH.
Qed.

Lemma sent_all db script :
  first_refused db script = None → sent db script = script.
Proof.
  induction script as [|s script IH]; [done|].
  rewrite first_refused_cons. simpl.
  destruct (execute_fails db s); [done|]. intros Hs. by rewrite IH.
Qed.

Lemma runs_script_ret db : runs_script db (mret tt) [].
Proof. by split. Qed.

Lemma runs_script_log db logger msg args :
  runs_script db (emit (Log logger msg args)) [].
Proof. by split. Qed.

Lemma runs_script_execute db s p : runs_script db (execute db s p) [s].
Proof.
  unfold runs_script, execute. rewrite first_refused_cons. simpl.
  by destruct (execute_fails db s).
Qed.

Lemma runs_script_bind db (x : action unit) (k : unit → action unit)
    script1 script2 :
  runs_script db x script1 →
  runs_script db (k tt) script2 →
  runs_script db (x ≫= k) (script1 ++ script2).
Proof.
  intros [Hx1 Hx2] [Hk1 Hk2]. unfold runs_script.
  rewrite sent_app, first_refused_app.
  destruct x as [t1 [e|[]]]; simpl in Hx1, Hx2.
  - destruct (first_refused db script1); [|done].
    simpl. by rewrite app_nil_r.
  - destruct (first_refused db script1); [done|].
    erewrite bind_ok by done. simpl.
    by rewrite statements_app, Hx1, Hk1.
Qed.

Lemma runs_script_for_each {A} db (l : list A) (body : A → action unit)
    (f : A → list string) :
  (∀ a, runs_script db (body a) (f a)) →
  runs_script db (for_each l body) (concat (f <$> l)).
Proof.
  intros Hbody. induction l as [|a l IH]; [apply runs_script_ret|].
  rewrite fmap_cons. simpl. by apply runs_script_bind.
Qed.
End scripts.

Section sync_more.
Context `{PySet} `{Surroundings}.
Implicit Types (grantee : option string) (db : database).
Implicit Types (views out : list view) (t : list event).

Lemma rebuild_schema_runs_script grantee db out :
  runs_script db (rebuild_schema grantee db out) (rebuild_script grantee out).
Proof.
  unfold rebuild_schema, rebuild_script.
  apply (runs_script_bind db _ _ [_]); [apply runs_script_execute|].
  apply runs_script_bind.
  { rewrite <- (concat_singletons (λ v, sql (creation_sql v))).
    apply runs_script_for_each. intros v.
    apply (runs_script_bind db _ _ [] [_]);
      [apply runs_script_log | apply runs_script_execute]. }
  destruct grantee as [user|]; cbn [grants].
  - rewrite decide_True by done.
    apply (runs_script_bind db _ _ [_]); [apply runs_script_execute|].
    rewrite <- (concat_guarded hidden
                  (λ v, grant_select_sql (name v) (Some user))).
    apply runs_script_for_each. intros v. cbv beta.
    rewrite bool_decide_eq_false_2 by done. rewrite orb_false_r.
    destruct (hidden v); [apply runs_script_ret | apply runs_script_execute].
  - rewrite decide_False by (intros ?; done).
    apply (runs_script_bind db _ _ [] []); [apply runs_script_ret|].
    assert ([] = concat ((λ _ : view, @nil string) <$> out)) as ->
      by (by induction out).
    apply runs_script_for_each. intros v. cbv beta. rewrite orb_true_r.
    apply runs_script_ret.
Qed.
End sync_more.

Section sync_failures.
Context `{PySet} `{Surroundings}.
Implicit Types (grantee : option string) (db : database).
Implicit Types (views out : list view) (t : list event).

(** X8.  Within the pass for a database whose views resolve, statements
    are sent in the order of the script (schema reset, creations, grants)
    up to the first one that the database refuses and no further; the
    pass then raises [ExecutionError] for that database and statement, and
    its trace is one transaction, rolled back, with nothing after the
    cursor is closed. *)
Theorem sync_database_fail_fast grantee db views out :
  _topological_sort_views views = inr out →
  let run := sync_database grantee (db, views) in
  statements run.1 = sent db (rebuild_script grantee out) ∧
  run.2 = match first_refused db (rebuild_script grantee out) with
          | Some s => inl (ExecutionError db s)
          | None => inr tt
          end ∧
  ∀ s, first_refused db (rebuild_script grantee out) = Some s →
       execute_fails db s = true ∧
       last (statements run.1) = Some s ∧
       own_transaction db AtomicRollback run.1.
Proof.
  intros Hout run. unfold run.
  rewrite (sync_database_resolved _ _ _ out) by done.
  destruct (rebuild_schema_runs_script grantee db out) as [Hsent Hres].
  pose proof (rebuild_schema_no_transaction_event grantee db out) as Hno.
  destruct (rebuild_schema grantee db out) as [body r].
  cbn [fst snd] in *.
  assert (∀ tail, statements tail = [] →
            statements (CursorEnter db :: AtomicEnter :: body ++ tail)
            = sent db (rebuild_script grantee out)) as Hst.
  { intros tail Htail.
    change (statements (CursorEnter db :: AtomicEnter :: ?x))
      with (statements x).
    by rewrite statements_app, Htail, app_nil_r. }
  destruct (first_refused db (rebuild_script grantee out)) as [s|] eqn:Hfirst;
    subst r; cbn [fst snd].
  - split_and!; [by apply Hst|done|]. intros ? [= <-].
    split_and!.
    + by apply first_refused_Some in Hfirst as [_ ?].
    + rewrite Hst by done. by apply sent_last_refused.
    + by exists body.
  - split_and!; [by apply Hst|done..].
Qed.

Lemma last_statements_app t1 t2 s :
  last (statements t2) = Some s → last (statements (t1 ++ t2)) = Some s.
Proof. intros Hs. rewrite statements_app, last_app. by rewrite Hs. Qed.

Lemma for_each_inl {A} (l : list A) (body : A → action unit) t e :
  for_each l body = (t, inl e) →
  ∃ x t0, x ∈ l ∧ (body x).2 = inl e ∧ t = t0 ++ (body x).1.
Proof.
  revert t. induction l as [|x l IH]; intros t; simpl; [done|].
  destruct (body x) as [t1 [e'|[]]] eqn:Hx.
  - intros [= <- <-]. exists x, []. rewrite Hx. split_and!; [left|done..].
  - erewrite bind_ok by done.
    destruct (for_each l body) as [t2 [e'|[]]] eqn:Hl; simpl; [|done].
    intros [= <- <-]. destruct (IH _ eq_refl) as (y & t0 & Hy & Hby & ->).
    exists y, (t1 ++ t0). split_and!; [by right|done|by rewrite app_assoc].
Qed.

(** X9.  When [sync_views] raises [CyclicDependencyError], the views of a
    database of the registry do not resolve, and the error is the one that
    the resolver raised for them.  When it raises the error of a refused
    statement, the error names a database of the registry and a statement
    that this database refused; that statement is the last one sent, and
    the trace ends with the rollback of the transaction and the closing of
    the cursor. *)
Theorem sync_views_raises grantee (registry : list (database * list view))
    t e :
  sync_views grantee registry = (t, inl e) →
  (∀ residual, e = CyclicDependencyError residual →
     residual ≠ ∅ ∧
     ∃ db views, (db, views) ∈ registry ∧
                 _topological_sort_views views = inl e) ∧
  (∀ db s, e = ExecutionError db s →
     db ∈ registry.*1 ∧ execute_fails db s = true ∧
     last (statements t) = Some s ∧
     ∃ t0, t = t0 ++ [AtomicRollback; CursorExit db]).
Proof.
  rewrite sync_views_unfold.
  destruct (for_each registry (sync_database grantee)) as [t' [e'|[]]]
    eqn:Hloop; [|done].
  intros [= <- <-].
  apply for_each_inl in Hloop as ([db views] & t0 & Hin & Hdb & ->).
  destruct (_topological_sort_views views) as [e|out] eqn:Hres.
  - rewrite (sync_database_unresolved _ _ _ e) in Hdb by done.
    injection Hdb as ->.
    apply topological_sort_inl in Hres as Hinl.
    destruct Hinl as (He & Hne & _). split.
    + intros residual Heq. rewrite He in Heq. injection Heq as <-.
      split; [done|]. by exists db, views.
    + intros db' s Heq. by rewrite He in Heq.
  - rewrite (sync_database_resolved _ _ _ out) in Hdb |- * by done.
    destruct (rebuild_schema_runs_script grantee db out) as [Hsent Hr].
    destruct (rebuild_schema grantee db out) as [body r].
    cbn [fst snd] in *. subst r.
    destruct (first_refused db (rebuild_script grantee out)) as [s|]
      eqn:Hfirst; [|done].
    cbn [fst snd] in *. injection Hdb as <-. split; [done|].
    intros db' s' [= <- <-]. split_and!.
    + apply list_elem_of_fmap. by exists (db, views).
    + by apply first_refused_Some in Hfirst as [_ ?].
    + rewrite app_comm_cons. apply last_statements_app.
      change (statements (CursorEnter db :: AtomicEnter :: ?x))
        with (statements x).
      rewrite statements_app, Hsent.
      change (statements [AtomicRollback; CursorExit db]) with (@nil string).
      rewrite app_nil_r. by apply sent_last_refused.
    + eexists (_ :: t0 ++ CursorEnter db :: AtomicEnter :: body).
      simpl. f_equal. by rewrite <- !app_assoc.
Qed.

Lemma filter_no_transaction_event (P : event → Prop)
    `{∀ e, Decision (P e)} t :
  (∀ e, P e → transaction_event e = true) →
  Forall (λ e, transaction_event e = false) t → filter P t = [].
Proof.
  intros HP Hall. induction Hall as [|e t He _ IH]; [done|].
  rewrite filter_cons, IH. case_decide as HPe; [|done].
  apply HP in HPe. congruence.
Qed.

(** X10.  When [sync_views] ends normally, its trace has one commit for
    each database of the registry and no rollback, and its last event is
    the message "Successfully sync'd %s views" with the number of
    databases of the registry. *)
Theorem sync_views_success_trace grantee
    (registry : list (database * list view)) t result :
  sync_views grantee registry = (t, inr result) →
  length (filter (λ e, e = AtomicCommit) t) = length registry ∧
  filter (λ e, e = AtomicRollback) t = [] ∧
  last t = Some (Log "" "Successfully sync'd %s views"
                     [ArgInt (length registry)]).
Proof.
  rewrite sync_views_unfold.
  destruct (for_each registry (sync_database grantee)) as [t' [e|[]]]
    eqn:Hloop; [done|].
  intros [= <- <-].
  apply for_each_inr in Hloop as [Hall ->].
  assert (∀ item, (sync_database grantee item).2 = inr tt →
            filter (λ e, e = AtomicCommit) (sync_database grantee item).1
              = [AtomicCommit] ∧
            filter (λ e, e = AtomicRollback) (sync_database grantee item).1
              = []) as Hitem.
  { intros [db views] Hok.
    destruct (sync_database grantee (db, views)) as [td r] eqn:Hdb.
    simpl in Hok. subst r.
    apply sync_database_inr in Hdb as (out & body & _ & Hbody & ->).
    pose proof (rebuild_schema_no_transaction_event grantee db out) as Hno.
    rewrite Hbody in Hno. cbn [fst snd] in *.
    rewrite !filter_cons, !filter_app.
    rewrite !(filter_no_transaction_event _ body) by (done || by intros ? ->).
    by rewrite !decide_False by done. }
  split_and!.
  - rewrite filter_cons, decide_False, filter_app by done.
    rewrite length_app. simpl. rewrite Nat.add_0_r.
    induction Hall as [|item registry Hok _ IH]; [done|].
    rewrite fmap_cons. simpl. rewrite filter_app, length_app.
    destruct (Hitem item Hok) as [-> _]. simpl. by rewrite IH.
  - rewrite filter_cons, decide_False, filter_app by done.
    simpl. rewrite app_nil_r.
    induction Hall as [|item registry Hok _ IH]; [done|].
    rewrite fmap_cons. simpl. rewrite filter_app.
    destruct (Hitem item Hok) as [_ ->]. by rewrite IH.
  - rewrite last_cons, last_snoc. done.
Qed.
End sync_failures.

Lemma sync_database_fail_fast_witness :
  @_topological_sort_views insertion_order Examples.chain
    = inr [Examples.view_c; Examples.view_b; Examples.view_a] ∧
  let out := [Examples.view_c; Examples.view_b; Examples.view_a] in
  let run := @sync_database insertion_order SyncExamples.refusing
                            (Some "reader") ("default", Examples.chain) in
  statements run.1
    = @sent SyncExamples.refusing "default"
            (@rebuild_script SyncExamples.refusing (Some "reader") out) ∧
  run.2 = match @first_refused SyncExamples.refusing "default"
                  (@rebuild_script SyncExamples.refusing (Some "reader") out)
          with
          | Some s => inl (ExecutionError "default" s)
          | None => inr tt
          end ∧
  ∀ s, @first_refused SyncExamples.refusing "default"
         (@rebuild_script SyncExamples.refusing (Some "reader") out)
       = Some s →
       @execute_fails SyncExamples.refusing "default" s = true ∧
       last (statements run.1) = Some s ∧
       own_transaction "default" AtomicRollback run.1.
Proof.
  assert (@_topological_sort_views insertion_order Examples.chain
          = inr [Examples.view_c; Examples.view_b; Examples.view_a]) as Hout
    by (vm_compute; reflexivity).
  split; [done|].
  apply (@sync_database_fail_fast insertion_order SyncExamples.refusing
           (Some "reader") "default" Examples.chain _ Hout).
Defined.

Example refused_creation_statements :
  statements (@sync_database insertion_order SyncExamples.refusing
                (Some "reader") ("default", Examples.chain)).1 =
    ["DROP SCHEMA IF EXISTS views CASCADE; CREATE SCHEMA views;";
     "CREATE VIEW v AS SELECT 1";
     "CREATE VIEW v AS SELECT * FROM c"].
Proof. vm_compute. reflexivity. Qed.

Lemma sync_views_raises_witness :
  ∃ t e,
    @sync_views insertion_order SyncExamples.refusing None
                [("first", [Examples.view_c]); ("second", Examples.chain)]
      = (t, inl e) ∧
    (∀ residual, e = CyclicDependencyError residual →
       residual ≠ ∅ ∧
       ∃ db views,
         (db, views) ∈ [("first", [Examples.view_c]);
                        ("second", Examples.chain)] ∧
         @_topological_sort_views insertion_order views = inl e) ∧
    (∀ db s, e = ExecutionError db s →
       db ∈ [("first", [Examples.view_c]);
             ("second", Examples.chain)].*1 ∧
       @execute_fails SyncExamples.refusing db s = true ∧
       last (statements t) = Some s ∧
       ∃ t0, t = t0 ++ [AtomicRollback; CursorExit db]).
Proof.
  eexists _, _. split; [vm_compute; reflexivity|].
  eapply (@sync_views_raises insertion_order SyncExamples.refusing None
            [("first", [Examples.view_c]); ("second", Examples.chain)]).
  vm_compute. reflexivity.
Defined.

(** The run above: the first database is rebuilt, the second refuses the
    creation of its second view and is rolled back; the function raises
    with nothing logged after that. *)
Example refused_second_database :
  @sync_views insertion_order SyncExamples.refusing None
              [("first", [Examples.view_c]); ("second", Examples.chain)] =
    ([Log "sync" "Syncing view registry for databases %s"
          [ArgStrs ["first"; "second"]];
      CursorEnter "first"; AtomicEnter;
      Execute "first"
        "DROP SCHEMA IF EXISTS views CASCADE; CREATE SCHEMA views;" None;
      Log "" "generating view %s" [ArgStr "c"];
      Execute "first" "CREATE VIEW v AS SELECT 1" (Some []);
      AtomicCommit; CursorExit "first";
      Log "" "Successfully sync'd %s views for %s database"
          [ArgInt 1; ArgStr "first"];
      CursorEnter "second"; AtomicEnter;
      Execute "second"
        "DROP SCHEMA IF EXISTS views CASCADE; CREATE SCHEMA views;" None;
      Log "" "generating view %s" [ArgStr "c"];
      Execute "second" "CREATE VIEW v AS SELECT 1" (Some []);
      Log "" "generating view %s" [ArgStr "b"];
      Execute "second" "CREATE VIEW v AS SELECT * FROM c" (Some []);
      AtomicRollback; CursorExit "second"],
     inl (ExecutionError "second" "CREATE VIEW v AS SELECT * FROM c")).
Proof. vm_compute. reflexivity. Qed.

Lemma sync_views_success_trace_witness :
  ∃ t,
    @sync_views insertion_order SyncExamples.accepting (Some "reader")
                [("first", [Examples.view_c]); ("second", Examples.chain)]
      = (t, inr PyNone) ∧
    length (filter (λ e, e = AtomicCommit) t) = 2 ∧
    filter (λ e, e = AtomicRollback) t = [] ∧
    last t = Some (Log "" "Successfully sync'd %s views" [ArgInt 2]).
Proof.
  eexists. split; [vm_compute; reflexivity|].
  eapply (@sync_views_success_trace insertion_order SyncExamples.accepting
            (Some "reader")
            [("first", [Examples.view_c]); ("second", Examples.chain)]).
  vm_compute. reflexivity.
Defined.

(** ** generate_view_docs *)

Section docs_facts.
Context `{PySet} `{Surroundings} `{Documentation}.
Implicit Types (db : database) (views out : list view) (v : view).
Implicit Types (docs : list TableDoc) (t : list event).

(** What one pass of the inner loop does. *)
Lemma document_view_run db v docs :
  document_view db v docs =
    if run_documentation_check v then
      (bracketed_query db (schema_qry v),
       if execute_fails db (sql (schema_qry v))
       then inl (ExecutionError db (sql (schema_qry v)))
       else inr (docs ++ [table_doc v (fetchall db (schema_qry v))]))
    else ([], inr docs).
Proof.
  unfold document_view, with_cursor, execute, bracketed_query.
  destruct (run_documentation_check v); [|done]. simpl.
  by destruct (execute_fails db (sql (schema_qry v))).
Qed.

Lemma documented_cons v out :
  documented (v :: out) =
    if run_documentation_check v then v :: documented out
    else documented out.
Proof.
  unfold documented. rewrite filter_cons.
  destruct (run_documentation_check v); by case_decide.
Qed.

Lemma document_views_inr db out docs t docs' :
  for_fold out docs (document_view db) = (t, inr docs') →
  docs' = docs ++ ((λ v, table_doc v (fetchall db (schema_qry v)))
                     <$> documented out) ∧
  t = concat ((λ v, bracketed_query db (schema_qry v)) <$> documented out).
Proof.
  revert docs t. induction out as [|v out IH]; intros docs t; simpl.
  - intros [= <- <-]. by rewrite app_nil_r.
  - rewrite document_view_run, documented_cons.
    destruct (run_documentation_check v).
    + destruct (execute_fails db (sql (schema_qry v))); [done|].
      erewrite bind_ok by done.
      destruct (for_fold out _ (document_view db)) as [t' [e|d]] eqn:Hrest;
        [done|].
      intros [= <- <-]. destruct (IH _ _ Hrest) as [-> ->].
      rewrite fmap_cons. simpl. by rewrite <- app_assoc.
    + erewrite bind_ok by done.
      destruct (for_fold out _ (document_view db)) as [t' [e|d]] eqn:Hrest;
        [done|].
      intros [= <- <-]. by destruct (IH _ _ Hrest) as [-> ->].
Qed.
End docs_facts.

Section generate_view_docs_facts.
Context `{PySet} `{Surroundings} `{Documentation}.
Implicit Types (db : database) (views out : list view) (v : view).
Implicit Types (docs : list TableDoc) (t : list event).
Implicit Types (registry : list (database * list view)).

Lemma generate_view_docs_unfold registry :
  generate_view_docs registry = for_fold registry [] document_database.
Proof. done. Qed.

Lemma document_database_run db views docs :
  document_database (db, views) docs =
    match _topological_sort_views views with
    | inl e => ([], inl e)
    | inr out => for_fold out docs (document_view db)
    end.
Proof.
  unfold document_database.
  destruct (_topological_sort_views views) as [e|out]; [done|].
  erewrite bind_ok by done. simpl.
  by destruct (for_fold out docs (document_view db)).
Qed.

Lemma document_databases_inr registry docs t docs' :
  for_fold registry docs document_database = (t, inr docs') →
  Forall (λ item, ∃ out, _topological_sort_views item.2 = inr out) registry ∧
  docs' = docs ++ concat (database_docs <$> registry) ∧
  t = concat (database_queries <$> registry).
Proof.
  revert docs t. induction registry as [|[db views] registry IH];
    intros docs t; cbn [for_fold].
  - intros [= <- <-]. by rewrite app_nil_r.
  - rewrite document_database_run.
    destruct (_topological_sort_views views) as [e|out] eqn:Hout; [done|].
    destruct (for_fold out docs (document_view db)) as [t1 [e|docs1]]
      eqn:Hdb; [done|].
    erewrite bind_ok by done.
    destruct (for_fold registry docs1 document_database) as [t2 [e|docs2]]
      eqn:Hrest; [done|].
    intros [= <- <-].
    destruct (IH _ _ Hrest) as (Hall & -> & ->).
    destruct (document_views_inr _ _ _ _ _ Hdb) as [-> ->].
    unfold database_docs, database_queries, resolved. simpl.
    rewrite Hout. split_and!; [|by rewrite <- app_assoc|done].
    constructor; [by exists out|done].
Qed.
End generate_view_docs_facts.

Section generate_view_docs_properties.
Context `{PySet} `{Surroundings} `{Documentation}.
Implicit Types (db : database) (views out : list view) (v : view).
Implicit Types (docs : list TableDoc) (t : list event).
Implicit Types (registry : list (database * list view)).

Lemma generate_view_docs_inr registry t docs :
  generate_view_docs registry = (t, inr docs) →
  (∀ db views, (db, views) ∈ registry →
     ∃ out, _topological_sort_views views = inr out) ∧
  docs = concat (database_docs <$> registry) ∧
  t = concat (database_queries <$> registry).
Proof.
  rewrite generate_view_docs_unfold.
  intros (Hall & -> & ->)%document_databases_inr. split_and!; [|done..].
  intros db views Hin. rewrite Forall_forall in Hall.
  apply (Hall _ Hin).
Qed.

(** X11.  When [generate_view_docs] returns, the views of every database
    resolve, and the list returned holds, database after database in the
    order of the registry, one record for each resolved view with
    [run_documentation_check], in the resolved order, with a field for
    each row fetched, whose description is what
    [getattr(view.Docs.Fields, name, None)] gives for the name in the row;
    the events are the schema queries of these views, each with its own
    cursor, and nothing else. *)
Theorem generate_view_docs_returns registry t docs :
  generate_view_docs registry = (t, inr docs) →
  (∀ db views, (db, views) ∈ registry →
     ∃ out, _topological_sort_views views = inr out) ∧
  docs = concat (database_docs <$> registry) ∧
  t = concat (database_queries <$> registry).
Proof. apply generate_view_docs_inr. Qed.

Lemma strictly_before_fmap {A B} (f : A → B) x y l :
  strictly_before x y l → strictly_before (f x) (f y) (f <$> l).
Proof.
  intros (l1 & l2 & l3 & ->). exists (f <$> l1), (f <$> l2), (f <$> l3).
  by rewrite fmap_app, fmap_cons, fmap_app, fmap_cons.
Qed.

Lemma strictly_before_filter {A} (P : A → Prop) `{∀ x, Decision (P x)}
    x y l :
  P x → P y → strictly_before x y l → strictly_before x y (filter P l).
Proof.
  intros Hx Hy (l1 & l2 & l3 & ->).
  exists (filter P l1), (filter P l2), (filter P l3).
  rewrite filter_app, filter_cons, decide_True by done.
  by rewrite filter_app, filter_cons, decide_True by done.
Qed.

Lemma strictly_before_concat {A} (x y : A) l ls :
  l ∈ ls → strictly_before x y l → strictly_before x y (concat ls).
Proof.
  intros (ls1 & ls2 & ->)%list_elem_of_split (l1 & l2 & l3 & ->).
  exists (concat ls1 ++ l1), l2, (l3 ++ concat ls2).
  rewrite concat_app. cbn [concat].
  rewrite <- !app_assoc. do 2 f_equal.
  by rewrite <- !app_comm_cons, <- !app_assoc.
Qed.

(** X12.  The records follow the dependencies: when [generate_view_docs]
    returns and a documented view of a database depends on the class of
    another documented view of that database, the record of the
    dependency comes before the record of the dependent. *)
Theorem generate_view_docs_dependency_order registry t docs db views
    (D E : view) :
  generate_view_docs registry = (t, inr docs) →
  (db, views) ∈ registry →
  representative views D →
  representative views E →
  __class__ E ∈ view_dependencies D →
  run_documentation_check D = true →
  run_documentation_check E = true →
  strictly_before (table_doc E (fetchall db (schema_qry E)))
                  (table_doc D (fetchall db (schema_qry D))) docs.
Proof.
  intros (Hres & -> & _)%generate_view_docs_inr Hin HD HE Hdep HdD HdE.
  destruct (Hres db views Hin) as [out Hout].
  apply (strictly_before_concat _ _ (database_docs (db, views)));
    [by apply list_elem_of_fmap_2|].
  unfold database_docs, resolved. simpl. rewrite Hout.
  apply (strictly_before_fmap
           (λ v, table_doc v (fetchall db (schema_qry v)))).
  apply strictly_before_filter; [done..|].
  destruct (topological_sort_order views out D (__class__ E) Hout)
    as (E' & Hcls & Hbefore);
    [by apply (topological_sort_elem_of _ _ _ Hout)|done|].
  assert (E' = E) as ->; [|done].
  apply (representative_inj views); [|done..].
  apply (topological_sort_elem_of _ _ _ Hout).
  destruct Hbefore as (l1 & l2 & l3 & ->). set_solver.
Qed.

Lemma fails_fast_bind {A B} (x : action A) (k : A → action B) :
  fails_fast x → (∀ a, fails_fast (k a)) → fails_fast (x ≫= k).
Proof.
  intros Hx Hk. destruct x as [t1 [e|a]].
  { intros db s [= ->]. exact (Hx db s eq_refl). }
  erewrite bind_ok by done. intros db s He. simpl in He.
  destruct (Hk a db s He) as (Hfail & Hs & Hlast).
  split_and!; [done|by apply last_statements_app|].
  cbn [fst]. by rewrite last_app, Hlast.
Qed.

Lemma fails_fast_for_fold {A S} (l : list A) (s : S)
    (body : A → S → action S) :
  (∀ x s, fails_fast (body x s)) → fails_fast (for_fold l s body).
Proof.
  intros Hbody. revert s. induction l as [|x l IH]; intros s; simpl;
    [done|].
  by apply fails_fast_bind.
Qed.

Lemma fails_fast_document_database item docs :
  fails_fast (document_database item docs).
Proof.
  destruct item as [db views]. rewrite document_database_run.
  destruct (_topological_sort_views views) as [e|out] eqn:Hout.
  - intros db' s [= ->].
    by apply topological_sort_inl in Hout as (? & _).
  - apply fails_fast_for_fold. intros v d. rewrite document_view_run.
    destruct (run_documentation_check v); [|done].
    destruct (execute_fails db (sql (schema_qry v))) eqn:Hfail; [|done].
    by intros db' s [= <- <-].
Qed.

(** The inner loop raises nothing of the resolver's. *)
Lemma document_views_inl db out docs t e :
  for_fold out docs (document_view db) = (t, inl e) →
  ∃ s, e = ExecutionError db s.
Proof.
  revert docs t. induction out as [|v out IH]; intros docs t; simpl; [done|].
  rewrite document_view_run.
  destruct (run_documentation_check v).
  - destruct (execute_fails db (sql (schema_qry v))).
    + intros [= <- <-]. eauto.
    + erewrite bind_ok by done.
      destruct (for_fold out _ (document_view db)) as [t' [e'|d]] eqn:Hrest;
        [|done].
      intros [= <- <-]. by eapply IH.
  - erewrite bind_ok by done.
    destruct (for_fold out _ (document_view db)) as [t' [e'|d]] eqn:Hrest;
      [|done].
    intros [= <- <-]. by eapply IH.
Qed.

Lemma document_databases_cyclic registry docs t residual :
  for_fold registry docs document_database
    = (t, inl (CyclicDependencyError residual)) →
  ∃ db views, (db, views) ∈ registry ∧
    _topological_sort_views views = inl (CyclicDependencyError residual).
Proof.
  revert docs t. induction registry as [|[db views] registry IH];
    intros docs t; cbn [for_fold]; [done|].
  rewrite document_database_run.
  destruct (_topological_sort_views views) as [e|out] eqn:Hout.
  { intros [= <- ->]. exists db, views. split; [left|done]. }
  destruct (for_fold out docs (document_view db)) as [t1 [e|docs1]] eqn:Hdb.
  { intros [= <- ->]. by apply document_views_inl in Hdb as [s ?]. }
  erewrite bind_ok by done.
  destruct (for_fold registry docs1 document_database) as [t2 [e|docs2]]
    eqn:Hrest; [|done].
  intros [= <- ->]. destruct (IH _ _ Hrest) as (db' & views' & ? & ?).
  exists db', views'. split; [by right|done].
Qed.

(** X13.  When [generate_view_docs] raises [CyclicDependencyError], the
    views of a database of the registry do not resolve, and the error is
    the one that the resolver raised for them.  When it raises the error
    of a refused statement, the database named refused the statement; that
    query is the last statement sent and the closing of its cursor is the
    last event, so nothing is asked of any database after the failure. *)
Theorem generate_view_docs_raises registry t e :
  generate_view_docs registry = (t, inl e) →
  (∀ residual, e = CyclicDependencyError residual →
     residual ≠ ∅ ∧
     ∃ db views, (db, views) ∈ registry ∧
                 _topological_sort_views views = inl e) ∧
  (∀ db s, e = ExecutionError db s →
     execute_fails db s = true ∧
     last (statements t) = Some s ∧
     last t = Some (CursorExit db)).
Proof.
  rewrite generate_view_docs_unfold. intros Hrun. split.
  - intros residual ->.
    destruct (document_databases_cyclic _ _ _ _ Hrun)
      as (db & views & Hin & Hres).
    split; [|by exists db, views].
    apply topological_sort_inl in Hres as Hinl.
    destruct Hinl as ([= ->] & Hne & _). done.
  - intros db s ->.
    pose proof (fails_fast_for_fold registry [] document_database
                  fails_fast_document_database db s) as Hfast.
    rewrite Hrun in Hfast. by apply Hfast.
Qed.

Lemma schema_queries_only_nil registry : schema_queries_only registry [].
Proof. exists []. split; [done|]. by intros db v ?%elem_of_nil. Qed.

Lemma schema_queries_only_app registry t1 t2 :
  schema_queries_only registry t1 → schema_queries_only registry t2 →
  schema_queries_only registry (t1 ++ t2).
Proof.
  intros (q1 & -> & Hq1) (q2 & -> & Hq2). exists (q1 ++ q2).
  split; [by rewrite fmap_app, concat_app|].
  intros db v [?|?]%elem_of_app; eauto.
Qed.

Lemma schema_queries_only_bind {A B} registry (x : action A)
    (k : A → action B) :
  schema_queries_only registry x.1 →
  (∀ a, schema_queries_only registry (k a).1) →
  schema_queries_only registry (x ≫= k).1.
Proof.
  intros Hx Hk. destruct x as [t1 [e|a]]; [exact Hx|].
  erewrite bind_ok by done. simpl. by apply schema_queries_only_app.
Qed.

Lemma schema_queries_only_for_fold {A S} registry (l : list A) (s : S)
    (body : A → S → action S) :
  (∀ x s, x ∈ l → schema_queries_only registry (body x s).1) →
  schema_queries_only registry (for_fold l s body).1.
Proof.
  revert s. induction l as [|x l IH]; intros s Hbody; simpl.
  - apply schema_queries_only_nil.
  - apply schema_queries_only_bind; [apply Hbody; left|].
    intros s'. apply IH. intros y s'' Hy. apply Hbody. by right.
Qed.

(** X14.  Whether it returns or raises, [generate_view_docs] only reads:
    its events are a sequence of schema queries of views of the registry
    that have [run_documentation_check], each query between the opening
    and the closing of its own cursor, also when the query is refused; it
    opens no transaction, logs nothing and sends no statement that
    creates or grants. *)
Theorem generate_view_docs_only_queries registry :
  schema_queries_only registry (generate_view_docs registry).1 ∧
  Forall (λ e, transaction_event e = false) (generate_view_docs registry).1.
Proof.
  assert (schema_queries_only registry (generate_view_docs registry).1)
    as Hqueries.
  { rewrite generate_view_docs_unfold.
    apply schema_queries_only_for_fold. intros [db views] docs Hin.
    rewrite document_database_run.
    destruct (_topological_sort_views views) as [e|out] eqn:Hout;
      [apply schema_queries_only_nil|].
    apply schema_queries_only_for_fold. intros v d Hv.
    rewrite document_view_run.
    destruct (run_documentation_check v) eqn:Hcheck;
      [|apply schema_queries_only_nil].
    exists [(db, v)]. split; [done|].
    intros db' v' [= -> ->]%list_elem_of_singleton. split; [done|].
    exists views. split; [done|].
    by apply representative_elem_of, (topological_sort_elem_of _ _ _ Hout). }
  split; [done|]. destruct Hqueries as (queries & -> & _).
  induction queries as [|q queries IH]; [constructor|].
  rewrite fmap_cons. simpl. by repeat constructor.
Qed.
End generate_view_docs_properties.

Lemma generate_view_docs_returns_witness :
  ∃ t docs,
    @generate_view_docs insertion_order SyncExamples.accepting
       DocsExamples.documenting SyncExamples.registry_one = (t, inr docs) ∧
    (∀ db views, (db, views) ∈ SyncExamples.registry_one →
       ∃ out, @_topological_sort_views insertion_order views = inr out) ∧
    docs = concat (@database_docs insertion_order DocsExamples.documenting
                     <$> SyncExamples.registry_one) ∧
    t = concat (@database_queries insertion_order DocsExamples.documenting
                  <$> SyncExamples.registry_one).
Proof.
  eexists _, _. split; [vm_compute; reflexivity|].
  apply (@generate_view_docs_returns insertion_order SyncExamples.accepting
           DocsExamples.documenting SyncExamples.registry_one).
  vm_compute. reflexivity.
Defined.

Example chain_docs :
  table_name <$>
    match (@generate_view_docs insertion_order SyncExamples.accepting
             DocsExamples.documenting SyncExamples.registry_one).2 with
    | inr docs => docs
    | inl _ => []
    end = ["b"; "a"].
Proof. vm_compute. reflexivity. Qed.

(** The fields of the first record: a declared description, and [None]
    for a column that [Docs.Fields] does not name. *)
Example chain_field_docs :
  field_docs <$>
    head match (@generate_view_docs insertion_order SyncExamples.accepting
                  DocsExamples.documenting SyncExamples.registry_one).2 with
         | inr docs => docs
         | inl _ => []
         end
  = Some [MkFieldDoc "id" "integer" (AttrStr "The identifier");
          MkFieldDoc "amount" "numeric" AttrNone].
Proof. vm_compute. reflexivity. Qed.

(** A column that bears the name of an attribute that every class has is
    described by that attribute, whatever it is. *)
Example inherited_attribute_docs :
  @field_doc DocsExamples.documenting Examples.view_a
     ("__module__", "text")
    = MkFieldDoc "__module__" "text" (AttrStr "reports.views") ∧
  @field_doc DocsExamples.documenting Examples.view_a
     ("__dict__", "text")
    = MkFieldDoc "__dict__" "text" (AttrObject "mappingproxy").
Proof. split; vm_compute; reflexivity. Qed.

Lemma generate_view_docs_dependency_order_witness :
  ∃ t docs,
    @generate_view_docs insertion_order SyncExamples.accepting
       DocsExamples.documenting SyncExamples.registry_one = (t, inr docs) ∧
    ("default", Examples.chain) ∈ SyncExamples.registry_one ∧
    representative Examples.chain Examples.view_a ∧
    representative Examples.chain Examples.view_b ∧
    __class__ Examples.view_b ∈ view_dependencies Examples.view_a ∧
    @run_documentation_check DocsExamples.documenting Examples.view_a
      = true ∧
    @run_documentation_check DocsExamples.documenting Examples.view_b
      = true ∧
    strictly_before
      (@table_doc DocsExamples.documenting Examples.view_b
         (@fetchall DocsExamples.documenting "default"
            (@schema_qry DocsExamples.documenting Examples.view_b)))
      (@table_doc DocsExamples.documenting Examples.view_a
         (@fetchall DocsExamples.documenting "default"
            (@schema_qry DocsExamples.documenting Examples.view_a)))
      docs.
Proof.
  eexists _, _.
  assert (("default", Examples.chain) ∈ SyncExamples.registry_one) as Hin
    by (by apply list_elem_of_singleton).
  assert (representative Examples.chain Examples.view_a) as Ha
    by (apply representative_check; by_compute).
  assert (representative Examples.chain Examples.view_b) as Hb
    by (apply representative_check; by_compute).
  assert (__class__ Examples.view_b ∈ view_dependencies Examples.view_a)
    as Hdep by by_compute.
  split; [vm_compute; reflexivity|].
  split_and!; [done..|].
  eapply (@generate_view_docs_dependency_order insertion_order
            SyncExamples.accepting DocsExamples.documenting
            SyncExamples.registry_one _ _ "default" Examples.chain
            Examples.view_a Examples.view_b); [|done..].
  vm_compute. reflexivity.
Defined.

Lemma generate_view_docs_raises_witness :
  ∃ t e,
    @generate_view_docs insertion_order DocsExamples.no_introspection
       DocsExamples.documenting SyncExamples.registry_one = (t, inl e) ∧
    (∀ residual, e = CyclicDependencyError residual →
       residual ≠ ∅ ∧
       ∃ db views, (db, views) ∈ SyncExamples.registry_one ∧
                   @_topological_sort_views insertion_order views = inl e) ∧
    (∀ db s, e = ExecutionError db s →
       @execute_fails DocsExamples.no_introspection db s = true ∧
       last (statements t) = Some s ∧
       last t = Some (CursorExit db)).
Proof.
  eexists _, _. split; [vm_compute; reflexivity|].
  apply (@generate_view_docs_raises insertion_order
           DocsExamples.no_introspection DocsExamples.documenting
           SyncExamples.registry_one).
  vm_compute. reflexivity.
Defined.

Example refused_introspection :
  @generate_view_docs insertion_order DocsExamples.no_introspection
     DocsExamples.documenting SyncExamples.registry_one =
    (bracketed_query "default"
       (@schema_qry DocsExamples.documenting Examples.view_b),
     inl (ExecutionError "default"
            "SELECT column_name, data_type FROM columns WHERE name = %s")).
Proof. vm_compute. reflexivity. Qed.

(** ** Order of the creation statements *)

Section creation_order.
Context `{PySet} `{Surroundings}.
Implicit Types (grantee : option string) (db : database).
Implicit Types (views out : list view) (t : list event).

Lemma strictly_before_app_r {A} (x y : A) l l0 :
  strictly_before x y l → strictly_before x y (l ++ l0).
Proof.
  intros (l1 & l2 & l3 & ->). exists l1, l2, (l3 ++ l0).
  by rewrite <- ?app_assoc, <- ?app_comm_cons, <- ?app_assoc,
    <- ?app_comm_cons, <- ?app_assoc.
Qed.

Lemma strictly_before_concat_fmap {A B} (f : A → list B) x y a b l :
  strictly_before x y l → a ∈ f x → b ∈ f y →
  strictly_before a b (concat (f <$> l)).
Proof.
  intros (l1 & l2 & l3 & ->) (a1 & a2 & Ha)%list_elem_of_split
    (b1 & b2 & Hb)%list_elem_of_split.
  rewrite fmap_app, concat_app, fmap_cons. cbn [concat].
  rewrite fmap_app, concat_app, fmap_cons. cbn [concat]. rewrite Ha, Hb.
  exists (concat (f <$> l1) ++ a1), (a2 ++ concat (f <$> l2) ++ b1),
    (b2 ++ concat (f <$> l3)).
  by rewrite <- ?app_assoc, <- ?app_comm_cons, <- ?app_assoc,
    <- ?app_comm_cons, <- ?app_assoc.
Qed.

Lemma rebuild_schema_inr_trace grantee db out body u :
  rebuild_schema grantee db out = (body, inr u) →
  ∃ rest,
    body =
      Execute db drop_and_create_schema_sql None ::
      concat ((λ v, [Log "" "generating view %s" [ArgStr (name v)];
                     Execute db (sql (creation_sql v))
                             (Some (params (creation_sql v)))]) <$> out)
      ++ rest.
Proof.
  unfold rebuild_schema.
  intros (t1 & [] & t' & ->%execute_inr & Hrest & ->)%bind_inr.
  apply bind_inr in Hrest as (t2 & [] & t'' & Hcreate & Hrest & ->).
  apply for_each_inr in Hcreate as [_ ->].
  exists t''. cbn [app]. do 2 f_equal. clear Hrest.
  induction out as [|v out IH]; [done|].
  rewrite !fmap_cons. cbn [concat]. rewrite IH. f_equal.
  apply create_trace.
Qed.

(** X15.  The creation statements follow the dependencies: when the pass
    for a database ends normally and a view depends on the class of
    another view of that database, the creation statement of the
    dependency is executed before that of the dependent. *)
Theorem sync_database_creation_order grantee db views t (D E : view) :
  sync_database grantee (db, views) = (t, inr tt) →
  representative views D →
  representative views E →
  __class__ E ∈ view_dependencies D →
  strictly_before
    (Execute db (sql (creation_sql E)) (Some (params (creation_sql E))))
    (Execute db (sql (creation_sql D)) (Some (params (creation_sql D))))
    t.
Proof.
  intros (out & body & Hout & Hbody & ->)%sync_database_inr HD HE Hdep.
  apply rebuild_schema_inr_trace in Hbody as [rest ->].
  destruct (topological_sort_order views out D (__class__ E) Hout)
    as (E' & Hcls & Hbefore);
    [by apply (topological_sort_elem_of _ _ _ Hout)|done|].
  assert (E' = E) as ->.
  { apply (representative_inj views); [|done..].
    apply (topological_sort_elem_of _ _ _ Hout).
    destruct Hbefore as (l1 & l2 & l3 & ->). set_solver. }
  apply (strictly_before_app_l _ _ [CursorEnter db; AtomicEnter]).
  apply strictly_before_app_r.
  apply (strictly_before_app_l _ _ [_]).
  apply strictly_before_app_r.
  eapply strictly_before_concat_fmap; [done|set_solver..].
Qed.
End creation_order.

Lemma sync_database_creation_order_witness :
  ∃ t,
    @sync_database insertion_order SyncExamples.accepting (Some "reader")
                   ("default", Examples.chain) = (t, inr tt) ∧
    representative Examples.chain Examples.view_a ∧
    representative Examples.chain Examples.view_b ∧
    __class__ Examples.view_b ∈ view_dependencies Examples.view_a ∧
    strictly_before
      (Execute "default" (sql (creation_sql Examples.view_b))
               (Some (params (creation_sql Examples.view_b))))
      (Execute "default" (sql (creation_sql Examples.view_a))
               (Some (params (creation_sql Examples.view_a))))
      t.
Proof.
  eexists.
  assert (representative Examples.chain Examples.view_a) as Ha
    by (apply representative_check; by_compute).
  assert (representative Examples.chain Examples.view_b) as Hb
    by (apply representative_check; by_compute).
  assert (__class__ Examples.view_b ∈ view_dependencies Examples.view_a)
    as Hdep by by_compute.
  split; [vm_compute; reflexivity|]. split_and!; [done..|].
  eapply (@sync_database_creation_order insertion_order
            SyncExamples.accepting (Some "reader") "default" Examples.chain
            _ Examples.view_a Examples.view_b); [|done..].
  vm_compute. reflexivity.
Defined.
